(** * Cross-Stitch Generator: the pattern engine of [EditorScreen]

    A shallow embedding of the editor's pattern engine: the parameter
    history ([setState], [handleUndo], [handleRedo]), the quantizer loop of
    the drawing effect, [getBackgroundGrid], [traceAndSimplifyContours],
    [simplifyPath], and the two renderers (canvas drawing and
    [handleDownloadSvg]); then the rest of the editor and its callers: the
    first state and the saved patterns, the application shell of [App], and
    the PDF export [generatePdf].

    Conventions.
    - A [boolean[][]] is a list of rows.  Reading [g[y][x]] as a condition
      raises a TypeError when the row [g[y]] is undefined and is falsy when
      only the cell is; writing [row[x] = v] past the end extends the row.
    - Grid indices, stitch counts and contour points are small integers, on
      which double arithmetic is exact: they are integers of [Z].
    - The luminance test and the stitch height are computed in binary64,
      with the primitive floats.
    - The drawing geometry is computed in exact rationals; the positions
      on the PDF page are binary64 numbers.
    - A point key [`${x},${y}`] is the pair [(x, y)]; a [Set] or [Map] whose
      iteration order is observed is a list in insertion order. *)

From stdpp Require Import base list strings.
From stdpp Require Import pretty.
From Stdlib Require Import ZArith Uint63 PrimFloat SpecFloat FloatOps FloatAxioms.
From Stdlib Require Import QArith Qcanon Sorted.

Open Scope Z_scope.

(** ** Outcomes of running a piece of the program *)

Inductive Res (A : Type) : Type :=
| Ok (a : A)      (* normal completion *)
| Throw           (* an exception was raised (TypeError, RangeError) *)
| OutOfFuel.      (* the loop budget of the model ran out *)
Arguments Ok {A} a.
Arguments Throw {A}.
Arguments OutOfFuel {A}.

Definition bind {A B : Type} (m : Res A) (k : A → Res B) : Res B :=
  match m with
  | Ok a => k a
  | Throw => Throw
  | OutOfFuel => OutOfFuel
  end.

Notation "'do' x <- m ; k" := (bind m (fun x => k))
  (at level 10, x name, m at level 100, k at level 200,
   format "'[v' 'do'  x  <-  m ; '/' k ']'").

(** [for (const i of l) s = body(i, s)] *)
Fixpoint forEach {I S : Type} (body : I → S → Res S) (l : list I) (s : S) : Res S :=
  match l with
  | [] => Ok s
  | i :: l' => do s' <- body i s; forEach body l' s'
  end.

(** ** Arrays and grids *)

Abbreviation Grid := (list (list bool)).

(** [arr[i]]: [None] is JavaScript's [undefined]. *)
Definition at_ {A : Type} (l : list A) (i : Z) : option A :=
  if decide (0 ≤ i) then l !! Z.to_nat i else None.

(** [g[y][x]] used as a condition. *)
Definition read (g : Grid) (y x : Z) : Res bool :=
  match at_ g y with
  | None => Throw
  | Some row => Ok (default false (at_ row x))
  end.

(** [row[x] = v]; holes left by an extension read as [undefined]. *)
Definition store (row : list bool) (x : Z) (v : bool) : list bool :=
  if decide (x < 0) then row
  else if decide (Z.to_nat x < length row)%nat then <[Z.to_nat x := v]> row
  else row ++ replicate (Z.to_nat x - length row) false ++ [v].

(** [g[y][x] = true] *)
Definition mark (g : Grid) (y x : Z) : Res Grid :=
  match at_ g y with
  | None => Throw
  | Some row => Ok (<[Z.to_nat y := store row x true]> g)
  end.

(** [Array.from({ length: height }, () => Array(width).fill(false))] *)
Definition newGrid (width height : Z) : Res Grid :=
  if decide (0 < height ∧ width < 0) then Throw
  else Ok (replicate (Z.to_nat height) (replicate (Z.to_nat width) false)).

(** A grid of [height] rows of [width] cells. *)
Definition wf_grid (g : Grid) (width height : Z) : Prop :=
  0 ≤ width ∧ 0 ≤ height ∧
  length g = Z.to_nat height ∧ Forall (λ row, length row = Z.to_nat width) g.

(** ** BackgroundResolver: [getBackgroundGrid] *)

(** A cell [[y, x]] as the flood fill queues it. *)
Definition Cell : Type := Z * Z.

Definition FloodState : Type := Grid * list Cell.

(** [if (!stitchGrid[y][x]) { backgroundGrid[y][x] = true; queue.push([y, x]); }] *)
Definition seed (stitchGrid : Grid) (y x : Z) (st : FloodState) : Res FloodState :=
  do occ <- read stitchGrid y x;
  if occ then Ok st
  else do bg <- mark st.1 y x; Ok (bg, st.2 ++ [(y, x)]).

Definition seedRow (stitchGrid : Grid) (width : Z) (y : Z) (st : FloodState) : Res FloodState :=
  do st <- seed stitchGrid y 0 st;
  if decide (1 < width) then seed stitchGrid y (width - 1) st else Ok st.

Definition seedColumn (stitchGrid : Grid) (height : Z) (x : Z) (st : FloodState) : Res FloodState :=
  do st <- seed stitchGrid 0 x st;
  if decide (1 < height) then seed stitchGrid (height - 1) x st else Ok st.

(** The body of [for (const [ny, nx] of neighbors)]. *)
Definition visit (stitchGrid : Grid) (width height : Z) (n : Cell) (st : FloodState)
  : Res FloodState :=
  let '(ny, nx) := n in
  if decide (0 ≤ ny ∧ ny < height ∧ 0 ≤ nx ∧ nx < width) then
    do b <- read st.1 ny nx;
    if b then Ok st
    else
      do s <- read stitchGrid ny nx;
      if s then Ok st
      else do bg <- mark st.1 ny nx; Ok (bg, st.2 ++ [(ny, nx)])
  else Ok st.

Definition neighbors (c : Cell) : list Cell :=
  let '(y, x) := c in [(y - 1, x); (y + 1, x); (y, x - 1); (y, x + 1)].

(** [while (queue.length > 0) { const [y, x] = queue.shift()!; ... }] *)
Fixpoint flood (fuel : nat) (stitchGrid : Grid) (width height : Z) (st : FloodState)
  : Res Grid :=
  match st.2 with
  | [] => Ok st.1
  | c :: queue =>
      match fuel with
      | O => OutOfFuel
      | S fuel' =>
          do st' <- forEach (visit stitchGrid width height) (neighbors c) (st.1, queue);
          flood fuel' stitchGrid width height st'
      end
  end.

(** Unmarked cells of the mask: each pass of the loop either shortens the
    queue or marks one of them. *)
Definition unmarked (g : Grid) : nat := length (filter (λ b, b = false) (concat g)).

Definition getBackgroundGrid (stitchGrid : Grid) (width height : Z) : Res Grid :=
  do backgroundGrid <- newGrid width height;
  do st <- forEach (seedRow stitchGrid width) (seqZ 0 height) (backgroundGrid, []);
  do st <- forEach (seedColumn stitchGrid height) (seqZ 0 width) st;
  flood (unmarked st.1 + length st.2) stitchGrid width height st.

(** *** Scenario grids *)

Definition solid4 : Grid := replicate 4 (replicate 4 true).

Definition ring5 : Grid :=
  [ [true; true;  true;  true;  true];
    [true; false; false; false; true];
    [true; false; false; false; true];
    [true; false; false; false; true];
    [true; true;  true;  true;  true] ].

(** 16 rows of 16 cells: the top left cell alone is occupied. *)
Definition lone16 : Grid :=
  (true :: replicate 15 false) :: replicate 15 (replicate 16 false).

Definition dot3 : Grid :=
  [ [false; false; false];
    [false; true;  false];
    [false; false; false] ].

(** ** PathSimplifier: [simplifyPath] *)

(** A grid corner [[x, y]]. *)
Definition Point : Type := Z * Z.

(** The source computes this expression in binary64.  On points whose
    coordinates are at most 2^25 in absolute value ([gridPoint] below; the
    corners of any grid held in memory are far inside), every difference,
    product and difference of products is an integer of absolute value at
    most 2^53, so the binary64 result is the integer computed here; beyond
    that range binary64 rounds and this definition is not the source's.
    What is proved of the values of [cross_product] is stated for points
    in the range, or for the corners of a grid. *)
Definition cross_product (p_prev p_curr p_next : Point) : Z :=
  (p_curr.2 - p_prev.2) * (p_next.1 - p_curr.1)
  - (p_curr.1 - p_prev.1) * (p_next.2 - p_curr.2).

(** [Math.abs(c) > 1e-9] and [Math.abs(c) < 1e-9], with [1e-9] as [1 / 10^9]. *)
Definition abs_above_eps (c : Z) : bool := bool_decide (1 < Z.abs c * 10 ^ 9).
Definition abs_below_eps (c : Z) : bool := bool_decide (Z.abs c * 10 ^ 9 < 1).

(** [path[i]]; every index used below is in range by the length tests. *)
Definition pt (path : list Point) (i : Z) : Point := default (0, 0) (at_ path i).

Definition len {A : Type} (l : list A) : Z := Z.of_nat (length l).

(** The loop [for (let i = 1; i < path.length - 1; i++)], entered with
    [rest = path.slice(i)]: [p_curr] is [path[i]], [p_next] is [path[i + 1]],
    and the last point is pushed when the loop is over. *)
Fixpoint linear_pass (simplified : list Point) (rest : list Point) : list Point :=
  match rest with
  | [] => simplified
  | [p_last] => simplified ++ [p_last]
  | p_curr :: (p_next :: _) as rest' =>
      let p_prev := pt simplified (len simplified - 1) in
      if abs_above_eps (cross_product p_prev p_curr p_next)
      then linear_pass (simplified ++ [p_curr]) rest'
      else linear_pass simplified rest'
  end.

(** The wrap-around test at the last point, then [simplified.pop()]. *)
Definition seam_last (simplified : list Point) : list Point :=
  if decide (3 ≤ len simplified) then
    let p_prev := pt simplified (len simplified - 2) in
    let p_curr := pt simplified (len simplified - 1) in
    let p_next := pt simplified 0 in
    if abs_below_eps (cross_product p_prev p_curr p_next)
    then removelast simplified else simplified
  else simplified.

(** The wrap-around test at the first point, then [simplified.shift()]. *)
Definition seam_first (simplified : list Point) : list Point :=
  if decide (3 ≤ len simplified) then
    let p_prev := pt simplified (len simplified - 1) in
    let p_curr := pt simplified 0 in
    let p_next := pt simplified 1 in
    if abs_below_eps (cross_product p_prev p_curr p_next)
    then tail simplified else simplified
  else simplified.

Definition simplifyPath (path : list Point) : list Point :=
  if decide (len path < 3) then path
  else
    match path with
    | [] => []
    | p0 :: rest => seam_first (seam_last (linear_pass [p0] rest))
    end.

(** ** ContourTracer: [traceAndSimplifyContours] *)

(** [horizontalEdges] and [verticalEdges], in insertion order. *)
Definition EdgeSets : Type := list Point * list Point.

(** [set.add(key)] *)
Definition set_add (k : Point) (s : list Point) : list Point :=
  if bool_decide (k ∈ s) then s else s ++ [k].

(** [c || g[y][x]]: the read happens only when [c] is false. *)
Definition orRead (c : bool) (g : Grid) (y x : Z) : Res bool :=
  if c then Ok true else read g y x.

(** The body of the two nested loops over the cells. *)
Definition cellEdges (stitchGrid backgroundGrid : Grid) (width height : Z)
    (y x : Z) (es : EdgeSets) : Res EdgeSets :=
  do occ <- read stitchGrid y x;
  if occ then
    do top <- orRead (bool_decide (y = 0)) backgroundGrid (y - 1) x;
    let hs := if top then set_add (x, y) es.1 else es.1 in
    do bottom <- orRead (bool_decide (y = height - 1)) backgroundGrid (y + 1) x;
    let hs := if bottom then set_add (x, y + 1) hs else hs in
    do left <- orRead (bool_decide (x = 0)) backgroundGrid y (x - 1);
    let vs := if left then set_add (x, y) es.2 else es.2 in
    do right <- orRead (bool_decide (x = width - 1)) backgroundGrid y (x + 1);
    let vs := if right then set_add (x + 1, y) vs else vs in
    Ok (hs, vs)
  else Ok es.

Definition boundaryEdges (stitchGrid backgroundGrid : Grid) (width height : Z)
  : Res EdgeSets :=
  forEach
    (λ y, forEach (cellEdges stitchGrid backgroundGrid width height y) (seqZ 0 width))
    (seqZ 0 height) ([], []).

Record Edge : Type := { p1 : Point; p2 : Point }.

(** [pointsToEdges], in insertion order of its keys. *)
Definition EdgeMap : Type := list (Point * list Edge).

Definition keys (m : EdgeMap) : list Point := m.*1.

(** [if (!pointsToEdges.has(key)) pointsToEdges.set(key, [])] *)
Definition ensure (k : Point) (m : EdgeMap) : EdgeMap :=
  if bool_decide (k ∈ keys m) then m else m ++ [(k, [])].

(** [pointsToEdges.get(key)!.push(edge)] *)
Definition pushAt (k : Point) (e : Edge) (m : EdgeMap) : EdgeMap :=
  (λ kv, if bool_decide (kv.1 = k) then (kv.1, kv.2 ++ [e]) else kv) <$> m.

Definition addEdgeToMap (a b : Point) (m : EdgeMap) : EdgeMap :=
  let edge := {| p1 := a; p2 := b |} in
  pushAt b edge (pushAt a edge (ensure b (ensure a m))).

Definition buildMap (es : EdgeSets) : EdgeMap :=
  let m := foldl (λ m k, addEdgeToMap (k.1, k.2) (k.1 + 1, k.2) m) [] es.1 in
  foldl (λ m k, addEdgeToMap (k.1, k.2) (k.1, k.2 + 1) m) m es.2.

(** [pointsToEdges.get(key) || []] *)
Fixpoint getEdges (k : Point) (m : EdgeMap) : list Edge :=
  match m with
  | [] => []
  | kv :: m' => if bool_decide (kv.1 = k) then kv.2 else getEdges k m'
  end.

(** [candidateKey] for one edge: the second test overrides the first. *)
Definition candidate (current : Point) (e : Edge) : option Point :=
  let c := if bool_decide (p1 e = current) then Some (p2 e) else None in
  if bool_decide (p2 e = current) then Some (p1 e) else c.

(** [for (const edge of connectedEdges) { ...; break; }] *)
Fixpoint nextPoint (connectedEdges : list Edge) (current : Point) (visited : list Point)
  : option Point :=
  match connectedEdges with
  | [] => None
  | e :: es =>
      match candidate current e with
      | Some k => if bool_decide (k ∈ visited) then nextPoint es current visited else Some k
      | None => nextPoint es current visited
      end
  end.

(** [while (true) { ... }]: returns the path and the visited points. *)
Fixpoint walk (fuel : nat) (pointsToEdges : EdgeMap) (visited : list Point)
    (current : Point) (path : list Point) : Res (list Point * list Point) :=
  match nextPoint (getEdges current pointsToEdges) current visited with
  | None => Ok (path, visited)
  | Some next =>
      match fuel with
      | O => OutOfFuel
      | S fuel' => walk fuel' pointsToEdges (visited ++ [next]) next (path ++ [next])
      end
  end.

(** [visitedPoints] and [allPaths]. *)
Definition TraceState : Type := list Point * list (list Point).

(** The body of [for (const startPointKey of pointsToEdges.keys())]. *)
Definition traceFrom (pointsToEdges : EdgeMap) (start : Point) (st : TraceState)
  : Res TraceState :=
  if bool_decide (start ∈ st.1) then Ok st
  else
    do r <- walk (length pointsToEdges) pointsToEdges (st.1 ++ [start]) start [start];
    if decide (1 < len r.1) then Ok (r.2, st.2 ++ [simplifyPath r.1])
    else Ok (r.2, st.2).

Definition tracePaths (pointsToEdges : EdgeMap) : Res (list (list Point)) :=
  do st <- forEach (traceFrom pointsToEdges) (keys pointsToEdges) ([], []);
  Ok st.2.

Definition traceAndSimplifyContours (stitchGrid backgroundGrid : Grid) (width height : Z)
  : Res (list (list Point)) :=
  do es <- boundaryEdges stitchGrid backgroundGrid width height;
  tracePaths (buildMap es).

(** The whole outline pipeline of the two renderers. *)
Definition contours (stitchGrid : Grid) (width height : Z) : Res (list (list Point)) :=
  do backgroundGrid <- getBackgroundGrid stitchGrid width height;
  traceAndSimplifyContours stitchGrid backgroundGrid width height.

(** ** ParameterHistory: [setState], [handleUndo], [handleRedo] *)

Inductive FillShape : Type := circle | square.

Record DmcColor : Type := { name : string; dmc : string; hex : string }.

(** An object with some of the keys of [EditorState]: the argument of
    [setState] ([Partial<EditorState>]) and, at run time, a history entry.
    A key that is absent is [None]. *)
Record EditorState : Type := {
  gridSize : option Z;
  threshold : option Z;
  fillShape : option FillShape;
  outlineOffset : option Z;
  selectedColor : option DmcColor
}.

#[global] Instance FillShape_eq_dec : EqDecision FillShape.
Proof. solve_decision. Defined.
#[global] Instance DmcColor_eq_dec : EqDecision DmcColor.
Proof. solve_decision. Defined.
#[global] Instance EditorState_eq_dec : EqDecision EditorState.
Proof. solve_decision. Defined.

(** Every key is present. *)
Definition complete (s : EditorState) : Prop :=
  is_Some (gridSize s) ∧ is_Some (threshold s) ∧ is_Some (fillShape s) ∧
  is_Some (outlineOffset s) ∧ is_Some (selectedColor s).

(** [history] and [historyIndex]; the component starts with [[]] and [-1]. *)
Record History : Type := { history : list EditorState; historyIndex : Z }.

Definition emptyHistory : History := {| history := []; historyIndex := -1 |}.

(** [history[historyIndex]] *)
Definition currentState (h : History) : option EditorState :=
  at_ (history h) (historyIndex h).

Definition canUndo (h : History) : bool := bool_decide (0 < historyIndex h).
Definition canRedo (h : History) : bool :=
  bool_decide (historyIndex h < len (history h) - 1).

Definition override {A : Type} (old new : option A) : option A :=
  match new with Some _ => new | None => old end.

(** [{ ...currentState, ...newState }] *)
Definition spread (cur : option EditorState) (newState : EditorState) : EditorState :=
  match cur with
  | None => newState
  | Some c =>
      {| gridSize := override (gridSize c) (gridSize newState);
         threshold := override (threshold c) (threshold newState);
         fillShape := override (fillShape c) (fillShape newState);
         outlineOffset := override (outlineOffset c) (outlineOffset newState);
         selectedColor := override (selectedColor c) (selectedColor newState) |}
  end.

(** [JSON.stringify(nextState) === JSON.stringify(currentState)].  The
    spread keeps the keys of [currentState] in their order and appends the
    new ones, so the two strings agree exactly when the two objects have
    the same keys with the same values; [JSON.stringify(undefined)] is not
    a string. *)
Definition sameJson (nextState : EditorState) (cur : option EditorState) : bool :=
  match cur with
  | None => false
  | Some c => bool_decide (nextState = c)
  end.

(** [l.slice(0, e)] *)
Definition slice0 {A : Type} (l : list A) (e : Z) : list A :=
  if decide (e < 0) then take (length l - Z.to_nat (- e)) l else take (Z.to_nat e) l.

Definition setState (h : History) (newState : EditorState) : History :=
  let nextState := spread (currentState h) newState in
  if sameJson nextState (currentState h) then h
  else
    let newHistory := slice0 (history h) (historyIndex h + 1) ++ [nextState] in
    {| history := newHistory; historyIndex := len newHistory - 1 |}.

Definition handleUndo (h : History) : History :=
  if canUndo h then {| history := history h; historyIndex := historyIndex h - 1 |} else h.

Definition handleRedo (h : History) : History :=
  if canRedo h then {| history := history h; historyIndex := historyIndex h + 1 |} else h.

(** ** Quantizer: the sampling loop of the drawing effect *)

(** An integer as a JavaScript number (exact below 2^53). *)
Definition Z2F (z : Z) : float :=
  if decide (z < 0) then PrimFloat.opp (PrimFloat.of_uint63 (Uint63.of_Z (- z)))
  else PrimFloat.of_uint63 (Uint63.of_Z z).

(** [Math.floor] of a finite number; the quotients below are finite
    because a loaded image has positive dimensions. *)
Definition floorF (f : float) : Z :=
  match Prim2SF f with
  | S754_finite s m e =>
      let v := if s then Z.neg m else Z.pos m in
      if decide (0 ≤ e) then v * 2 ^ e else v `div` 2 ^ (- e)
  | _ => 0
  end.

(** [imageData[i]] in arithmetic: [undefined] becomes [NaN]. *)
Definition channel (imageData : list Z) (i : Z) : float :=
  match at_ imageData i with
  | Some v => Z2F v
  | None => PrimFloat.nan
  end.

(** [r * 0.299 + g * 0.587 + b * 0.114]; each literal denotes the nearest
    binary64 number, as it does in JavaScript. *)
#[local] Set Warnings "-inexact-float".
Definition gray (r g b : float) : float := (r * 0.299 + g * 0.587 + b * 0.114)%float.
#[local] Set Warnings "inexact-float".

(** [a > 128 && gray < threshold] for the sample at offset [i]. *)
Definition dark (imageData : list Z) (i : Z) (threshold : float) : bool :=
  let r := channel imageData i in
  let g := channel imageData (i + 1) in
  let b := channel imageData (i + 2) in
  let a := channel imageData (i + 3) in
  (128 <? a)%float && (gray r g b <? threshold)%float.

Definition quantizeCell (imageData : list Z) (stitchesX : Z) (threshold : float)
    (y x : Z) (g : Grid) : Res Grid :=
  let i := (y * stitchesX + x) * 4 in
  if dark imageData i threshold then mark g y x else Ok g.

(** The grid built from the sampled pixels. *)
Definition quantize (imageData : list Z) (stitchesX stitchesY : Z) (threshold : float)
  : Res Grid :=
  do currentStitchGrid <- newGrid stitchesX stitchesY;
  forEach
    (λ y, forEach (quantizeCell imageData stitchesX threshold y) (seqZ 0 stitchesX))
    (seqZ 0 stitchesY) currentStitchGrid.

(** [Math.floor(gridSize / (image.width / image.height))] *)
Definition derivedHeight (imageWidth imageHeight : positive) (gridSize : Z) : Z :=
  floorF (Z2F gridSize / (Z2F (Z.pos imageWidth) / Z2F (Z.pos imageHeight)))%float.



(** The luminance [L = 0.299R + 0.587G + 0.114B] as the specification
    writes it: the rational number that the formula denotes. *)
Definition luminance (r g b : Z) : Q :=
  (0.299 * inject_Z r + 0.587 * inject_Z g + 0.114 * inject_Z b)%Q.

(** ** Rasterizer and VectorExporter *)

Inductive LineJoin : Type := miter | round | bevel.

(** A number of the drawing geometry. *)
Definition num (z : Z) : Qc := Q2Qc (inject_Z z).

(** [Math.min(a, b)] *)
Definition minQc (a b : Qc) : Qc := if Qclt_le_dec a b then a else b.

(** What reaches the pixel surface. *)
Inductive CanvasOp : Type :=
| stroke (path : list (Qc * Qc)) (strokeStyle : string)
         (lineWidth : Qc) (lineJoin : LineJoin) (miterLimit : Qc)
| fillArc (cx cy radius : Qc) (fillStyle : string)
| fillRect (x y w h : Qc) (fillStyle : string).

(** The elements of the vector document. *)
Inductive SvgElement : Type :=
| svgPath (d : list (Qc * Qc)) (stroke : string)
          (strokeWidth : Qc) (strokeLinejoin : LineJoin)
| svgCircle (cx cy r : Qc) (fill : string)
| svgRect (x y width height : Qc) (fill : string).

Record SvgDocument : Type := {
  svgWidth : Z;
  svgHeight : Z;
  svgElements : list SvgElement
}.

(** The points of a path scaled by the cell size: [moveTo], then [lineTo]s,
    closed by [closePath] on the canvas and by [Z] in the document. *)
Definition scalePath (sw sh : Qc) (path : list Point) : list (Qc * Qc) :=
  (λ p : Point, (num p.1 * sw, num p.2 * sh)%Qc) <$> path.

(** [new Path2D()] of one contour: a path of fewer than two points stays empty. *)
Definition path2D (stitchWidth stitchHeight : Qc) (path : list Point) : list (Qc * Qc) :=
  if decide (len path < 2) then [] else scalePath stitchWidth stitchHeight path.

(** [path2DObjects.forEach(p => ctx.stroke(p))] under the stroke state set
    just before. *)
Definition strokeContours (stitchWidth stitchHeight : Qc) (hex : string)
    (outlineOffset : Z) (contourPaths : list (list Point)) : list CanvasOp :=
  (λ path, stroke (path2D stitchWidth stitchHeight path) hex
             (num (outlineOffset * 2)) miter (num 4)) <$> contourPaths.

(** The body of the fill loops of the canvas. *)
Definition fillCell (stitchGrid : Grid) (stitchWidth stitchHeight : Qc)
    (shape : FillShape) (hex : string) (y x : Z) (ops : list CanvasOp)
  : Res (list CanvasOp) :=
  let stitchSize := minQc stitchWidth stitchHeight in
  let circleRadius := (stitchSize / num 3)%Qc in
  let squareSize := (stitchSize * num 2 / num 3)%Qc in
  do occ <- read stitchGrid y x;
  if occ then
    match shape with
    | circle =>
        Ok (ops ++ [fillArc (num x * stitchWidth + stitchWidth / num 2)%Qc
                            (num y * stitchHeight + stitchHeight / num 2)%Qc
                            circleRadius hex])
    | square =>
        let rectX := (num x * stitchWidth + (stitchWidth - squareSize) / num 2)%Qc in
        let rectY := (num y * stitchHeight + (stitchHeight - squareSize) / num 2)%Qc in
        Ok (ops ++ [fillRect rectX rectY squareSize squareSize hex])
    end
  else Ok ops.

(** The drawing part of the effect, from [ctx.clearRect] on: the outline
    is stroked first, the fills are drawn over it. *)
Definition drawPattern (canvasWidth canvasHeight : Z) (currentStitchGrid : Grid)
    (stitchesX stitchesY : Z) (shape : FillShape) (outlineOffset : Z) (hex : string)
  : Res (list CanvasOp) :=
  let stitchWidth := (num canvasWidth / num stitchesX)%Qc in
  let stitchHeight := (num canvasHeight / num stitchesY)%Qc in
  do outline <-
    (if decide (0 < outlineOffset) then
       do contourPaths <- contours currentStitchGrid stitchesX stitchesY;
       Ok (strokeContours stitchWidth stitchHeight hex outlineOffset contourPaths)
     else Ok []);
  forEach
    (λ y, forEach (fillCell currentStitchGrid stitchWidth stitchHeight shape hex y)
            (seqZ 0 stitchesX))
    (seqZ 0 stitchesY) outline.

(** [contourPaths.forEach(path => { if (path.length < 2) return; ... })] *)
Definition svgContours (stitchSize : Qc) (hex : string) (outlineOffset : Z)
    (contourPaths : list (list Point)) : list SvgElement :=
  foldl (λ svgElements path,
           if decide (len path < 2) then svgElements
           else svgElements ++ [svgPath (scalePath stitchSize stitchSize path) hex
                                  (num (outlineOffset * 2)) round])
        [] contourPaths.

(** The body of the fill loops of the document. *)
Definition svgCell (stitchGrid : Grid) (stitchSize : Qc) (shape : FillShape)
    (hex : string) (y x : Z) (svgElements : list SvgElement) : Res (list SvgElement) :=
  let circleRadius := (stitchSize / num 3)%Qc in
  let squareSize := (stitchSize * num 2 / num 3)%Qc in
  do occ <- read stitchGrid y x;
  if occ then
    let centerX := (num x * stitchSize + stitchSize / num 2)%Qc in
    let centerY := (num y * stitchSize + stitchSize / num 2)%Qc in
    match shape with
    | circle => Ok (svgElements ++ [svgCircle centerX centerY circleRadius hex])
    | square =>
        let rectX := (centerX - squareSize / num 2)%Qc in
        let rectY := (centerY - squareSize / num 2)%Qc in
        Ok (svgElements ++ [svgRect rectX rectY squareSize squareSize hex])
    end
  else Ok svgElements.

(** [handleDownloadSvg], up to the document it serialises. *)
Definition handleDownloadSvg (stitchGrid : Grid) (stitchesX stitchesY : Z)
    (shape : FillShape) (outlineOffset : Z) (hex : string) : Res SvgDocument :=
  let stitchSize := 10 in
  let width := stitchesX * stitchSize in
  let height := stitchesY * stitchSize in
  do outline <-
    (if decide (0 < outlineOffset) then
       do contourPaths <- contours stitchGrid stitchesX stitchesY;
       Ok (svgContours (num stitchSize) hex outlineOffset contourPaths)
     else Ok []);
  do svgElements <-
    forEach
      (λ y, forEach (svgCell stitchGrid (num stitchSize) shape hex y) (seqZ 0 stitchesX))
      (seqZ 0 stitchesY) outline;
  Ok {| svgWidth := width; svgHeight := height; svgElements := svgElements |}.


(** ** Vocabulary of the statements *)

(** A complete parameter set with the given stitch count. *)
Definition paramsOf (n : Z) : EditorState :=
  {| gridSize := Some n; threshold := Some 128; fillShape := Some circle;
     outlineOffset := Some 0;
     selectedColor := Some {| name := "Black"; dmc := "#310"; hex := "#000000" |} |}.


(** The points pushed by the loop of [simplifyPath] once the last kept
    point is [p_prev], the final point included. *)
Fixpoint kept (p_prev : Point) (rest : list Point) : list Point :=
  match rest with
  | [] => []
  | [p_last] => [p_last]
  | p_curr :: (p_next :: _) as rest' =>
      if abs_above_eps (cross_product p_prev p_curr p_next)
      then p_curr :: kept p_curr rest'
      else kept p_prev rest'
  end.

(** Every three consecutive points make a turn. *)
Inductive turns : list Point → Prop :=
| turns_nil : turns []
| turns_one a : turns [a]
| turns_two a b : turns [a; b]
| turns_more a b c l :
    cross_product a b c ≠ 0 → turns (b :: c :: l) → turns (a :: b :: c :: l).

(** A path that the simplifier leaves alone: it turns at every interior
    point and, once it has three points, at both ends of the seam. *)
Definition settled (r : list Point) : Prop :=
  turns r ∧
  (3 ≤ len r →
   cross_product (pt r (len r - 2)) (pt r (len r - 1)) (pt r 0) ≠ 0 ∧
   cross_product (pt r (len r - 1)) (pt r 0) (pt r 1) ≠ 0).

(** A point in the range where the binary64 arithmetic of [simplifyPath]
    is exact: both coordinates are at most 2^25 in absolute value. *)
Definition gridPoint (p : Point) : Prop := Z.abs p.1 ≤ 2 ^ 25 ∧ Z.abs p.2 ≤ 2 ^ 25.

(** The same expression as the source evaluates it, in binary64: what
    [cross_product] stands for within the range, and where it stops. *)
Definition cross_product64 (p_prev p_curr p_next : Point) : float :=
  ((Z2F p_curr.2 - Z2F p_prev.2) * (Z2F p_next.1 - Z2F p_curr.1)
   - (Z2F p_curr.1 - Z2F p_prev.1) * (Z2F p_next.2 - Z2F p_curr.2))%float.

(** The sides of the occupied cell [(y, x)] that face true background or
    the outside of the grid: [horizontal] tells the two edge sets apart. *)
Definition selects (stitchGrid backgroundGrid : Grid) (width height : Z)
    (y x : Z) (horizontal : bool) (k : Point) : Prop :=
  read stitchGrid y x = Ok true ∧
  if horizontal then
    (k = (x, y) ∧ (y = 0 ∨ read backgroundGrid (y - 1) x = Ok true)) ∨
    (k = (x, y + 1) ∧ (y = height - 1 ∨ read backgroundGrid (y + 1) x = Ok true))
  else
    (k = (x, y) ∧ (x = 0 ∨ read backgroundGrid y (x - 1) = Ok true)) ∨
    (k = (x + 1, y) ∧ (x = width - 1 ∨ read backgroundGrid y (x + 1) = Ok true)).

(** Membership in one of the two edge sets. *)
Definition inEdges (es : EdgeSets) (horizontal : bool) (k : Point) : Prop :=
  if horizontal then k ∈ es.1 else k ∈ es.2.

(** Every end of every edge of the map is one of its keys. *)
Definition closed (m : EdgeMap) : Prop :=
  ∀ k es e, (k, es) ∈ m → e ∈ es → p1 e ∈ keys m ∧ p2 e ∈ keys m.

(** What holds of [visitedPoints] and [allPaths] between two walks. *)
Definition traced (m : EdgeMap) (st : TraceState) : Prop :=
  NoDup st.1 ∧ (∀ x, x ∈ st.1 → x ∈ keys m) ∧
  NoDup (concat st.2) ∧ (∀ x, x ∈ concat st.2 → x ∈ st.1) ∧
  Forall (λ path, 2 ≤ len path) st.2.

(** *** Reachability from the border *)

Definition inside (width height : Z) (c : Cell) : Prop :=
  0 ≤ c.1 < height ∧ 0 ≤ c.2 < width.

Definition border (width height : Z) (c : Cell) : Prop :=
  c.1 = 0 ∨ c.1 = height - 1 ∨ c.2 = 0 ∨ c.2 = width - 1.

(** Up, down, left or right: no diagonals. *)
Definition adjacent (c d : Cell) : Prop :=
  (d.2 = c.2 ∧ (d.1 = c.1 - 1 ∨ d.1 = c.1 + 1)) ∨
  (d.1 = c.1 ∧ (d.2 = c.2 - 1 ∨ d.2 = c.2 + 1)).

Definition unoccupied (stitchGrid : Grid) (c : Cell) : Prop :=
  read stitchGrid c.1 c.2 = Ok false.

(** A cell joined to a border cell by a 4-connected path of unoccupied cells. *)
Inductive reachable (stitchGrid : Grid) (width height : Z) : Cell → Prop :=
| reach_border c :
    inside width height c → border width height c → unoccupied stitchGrid c →
    reachable stitchGrid width height c
| reach_step c d :
    reachable stitchGrid width height c → adjacent c d →
    inside width height d → unoccupied stitchGrid d →
    reachable stitchGrid width height d.

(** What holds of [backgroundGrid] and [queue] throughout the flood fill:
    the mask keeps its shape, and whatever is marked or queued is an
    unoccupied cell reachable from the border. *)
Definition flooding (stitchGrid : Grid) (width height : Z) (st : FloodState) : Prop :=
  length st.1 = Z.to_nat height ∧
  Forall (λ row, 0 < width → length row = Z.to_nat width) st.1 ∧
  (∀ y x, 0 ≤ y < height → 0 ≤ x < width → read st.1 y x = Ok true →
          read stitchGrid y x = Ok false ∧ reachable stitchGrid width height (y, x)) ∧
  Forall (λ c, 0 < width → reachable stitchGrid width height c) st.2.

(** The budget of the flood fill: unmarked cells plus queued cells. *)
Definition budget (st : FloodState) : nat := (unmarked st.1 + length st.2)%nat.

(** The cell is outside the grid or marked in the background mask. *)
Definition faces (backgroundGrid : Grid) (width height : Z) (c : Cell) : Prop :=
  ¬ inside width height c ∨ read backgroundGrid c.1 c.2 = Ok true.

(** *** The geometry of what the renderers emit *)

(** A filled shape: a disc by centre and radius, a box by corner and sides. *)
Inductive Shape : Type :=
| disc (cx cy r : Qc)
| box (x y w h : Qc).

(** A stroked outline: its points, its width and its join rule. *)
Definition Outline : Type := list (Qc * Qc) * Qc * LineJoin.

Definition canvasStrokes (ops : list CanvasOp) : list Outline :=
  omap (λ op, match op with
              | stroke path _ lineWidth lineJoin _ => Some (path, lineWidth, lineJoin)
              | _ => None
              end) ops.

Definition canvasFills (ops : list CanvasOp) : list (Shape * string) :=
  omap (λ op, match op with
              | stroke _ _ _ _ _ => None
              | fillArc cx cy radius fillStyle => Some (disc cx cy radius, fillStyle)
              | fillRect x y w h fillStyle => Some (box x y w h, fillStyle)
              end) ops.

Definition svgStrokes (elements : list SvgElement) : list Outline :=
  omap (λ el, match el with
              | svgPath d _ strokeWidth strokeLinejoin => Some (d, strokeWidth, strokeLinejoin)
              | _ => None
              end) elements.

Definition svgFills (elements : list SvgElement) : list (Shape * string) :=
  omap (λ el, match el with
              | svgPath _ _ _ _ => None
              | svgCircle cx cy r fill => Some (disc cx cy r, fill)
              | svgRect x y width height fill => Some (box x y width height, fill)
              end) elements.

(** The join rules of the strokes of each renderer, [[]] if it fails. *)
Definition canvasJoins (r : Res (list CanvasOp)) : list LineJoin :=
  match r with Ok ops => (canvasStrokes ops).*2 | _ => [] end.

Definition svgJoins (r : Res SvgDocument) : list LineJoin :=
  match r with Ok doc => (svgStrokes (svgElements doc)).*2 | _ => [] end.

(** The fill of the cell [(y, x)] at 10 units per cell: centred on the
    cell, a circle of radius 10/3 or a square of side 20/3. *)
Definition cellShape (shape : FillShape) (y x : Z) : Shape :=
  match shape with
  | circle => disc (num (10 * x + 5)) (num (10 * y + 5)) (num 10 / num 3)
  | square =>
      box (num (10 * x + 5) - num 10 / num 3) (num (10 * y + 5) - num 10 / num 3)
          (num 20 / num 3) (num 20 / num 3)
  end%Qc.

(** The occupied cells, row by row. *)
Definition occupiedCells (stitchGrid : Grid) (stitchesX stitchesY : Z) : list Cell :=
  concat ((λ y, concat ((λ x, match read stitchGrid y x with
                              | Ok true => [(y, x)]
                              | _ => []
                              end) <$> seqZ 0 stitchesX)) <$> seqZ 0 stitchesY).

(** * The rest of the editor and its callers *)

(** ** The editor's first state and its saved patterns *)

Definition DMC_COLORS : list DmcColor :=
  [ {| name := "Red"; dmc := "#321"; hex := "#DE313A" |};
    {| name := "Bright Orange"; dmc := "#608"; hex := "#FF6C00" |};
    {| name := "Dark Lemon"; dmc := "#444"; hex := "#FFBF00" |};
    {| name := "Green"; dmc := "#699"; hex := "#008848" |};
    {| name := "Dark Delft Blue"; dmc := "#798"; hex := "#40548B" |};
    {| name := "Black"; dmc := "#310"; hex := "#000000" |} ].

(** A [SavedPattern]: its own four keys, and the keys of the editor state
    spread into it, kept together as [saved]. *)
Record SavedPattern : Type := {
  id : string;
  createdAt : Z;
  previewDataUrl : string;
  originalImageDataUrl : string;
  saved : EditorState
}.

Definition defaultState : EditorState :=
  {| gridSize := Some 32; threshold := Some 128; fillShape := Some circle;
     outlineOffset := Some 0; selectedColor := DMC_COLORS !! 5%nat |}.

(** [DMC_COLORS.find(c => c.dmc === key)], where [key] is
    [initialState.selectedColor?.dmc]. *)
Definition findColor (key : option string) : option DmcColor :=
  snd <$> list_find (λ c, Some (dmc c) = key) DMC_COLORS.

(** [loadedState] of the first effect. *)
Definition loadedState (initialState : option SavedPattern) : EditorState :=
  match initialState with
  | Some s =>
      {| gridSize := gridSize (saved s);
         threshold := threshold (saved s);
         fillShape := fillShape (saved s);
         outlineOffset := outlineOffset (saved s);
         selectedColor :=
           match findColor (dmc <$> selectedColor (saved s)) with
           | Some c => Some c
           | None => DMC_COLORS !! 5%nat
           end |}
  | None => defaultState
  end.

(** [setHistory([loadedState]); setHistoryIndex(0)] *)
Definition initHistory (initialState : option SavedPattern) : History :=
  {| history := [loadedState initialState]; historyIndex := 0 |}.

(** [newPattern] of [handleSavePattern]; [now] is [Date.now()].  An empty
    id and a zero date are falsy and give way to the clock. *)
Definition newPattern (initialState : option SavedPattern) (now : Z)
    (preview original : string) (current : EditorState) : SavedPattern :=
  {| id := match initialState with
           | Some s => if decide (id s = "") then pretty now else id s
           | None => pretty now
           end;
     createdAt := match initialState with
                  | Some s => if decide (createdAt s = 0) then now else createdAt s
                  | None => now
                  end;
     previewDataUrl := preview;
     originalImageDataUrl := original;
     saved := current |}.

(** [findIndex], then [patterns[existingIndex] = newPattern] or
    [patterns.unshift(newPattern)]. *)
Definition storePattern (patterns : list SavedPattern) (p : SavedPattern)
  : list SavedPattern :=
  match list_find (λ q, id q = id p) patterns with
  | Some (existingIndex, _) => <[existingIndex := p]> patterns
  | None => p :: patterns
  end.

(** [handleSavePattern] on the parsed content of the storage key
    ['myPatterns'] ([[]] when the key is absent), with the canvas and the
    image file in place: the list written back, or [None] when there is no
    current state and nothing is written. *)
Definition handleSavePattern (initialState : option SavedPattern) (now : Z)
    (preview original : string) (h : History) (patterns : list SavedPattern)
  : option (list SavedPattern) :=
  match currentState h with
  | None => None
  | Some current =>
      Some (storePattern patterns (newPattern initialState now preview original current))
  end.

(** [handleDelete] of the gallery; [confirmed] is the answer to
    [window.confirm]. *)
Definition handleDelete (confirmed : bool) (id0 : string)
    (currentPatterns : list SavedPattern) : list SavedPattern :=
  if confirmed then filter (λ p, id p ≠ id0) currentPatterns else currentPatterns.

(** [(a, b) => b.createdAt - a.createdAt] is not positive: [a] stays before
    [b]. *)
Definition newerFirst (a b : SavedPattern) : Prop := createdAt b ≤ createdAt a.

(** [JSON.parse(saved).sort((a, b) => b.createdAt - a.createdAt)].  The sort
    of an array is stable, so its outcome is the one of inserting the
    patterns one by one, from the last to the first, each before the first
    pattern that is not newer than it. *)
Fixpoint insertPattern (p : SavedPattern) (sorted : list SavedPattern)
  : list SavedPattern :=
  match sorted with
  | [] => [p]
  | q :: rest =>
      if decide (createdAt q ≤ createdAt p) then p :: q :: rest
      else q :: insertPattern p rest
  end.

Definition sortPatterns (patterns : list SavedPattern) : list SavedPattern :=
  foldr insertPattern [] patterns.

(** What the gallery shows once its effect has read the storage key
    ['myPatterns'] ([[]] when the key is absent); [handleDelete] works on
    this list and writes its result back. *)
Definition loadPatterns (stored : list SavedPattern) : list SavedPattern :=
  sortPatterns stored.

(** Newest first. *)
Definition newestFirst (patterns : list SavedPattern) : Prop :=
  StronglySorted newerFirst patterns.

(** ** The application shell: [App] and [UploadScreen] *)

Inductive Screen : Type :=
| upload | editor | settings | privacyPolicy | termsOfService | myPatterns | contact.

#[global] Instance Screen_eq_dec : EqDecision Screen.
Proof. solve_decision. Defined.

(** A [File]: its name, its MIME type and its bytes. *)
Record File : Type := { fileName : string; fileType : string; fileData : string }.

Record AppState : Type := {
  screen : Screen;
  imageFile : option File;
  initialEditorState : option SavedPattern;
  previousScreen : Screen
}.

Definition initialApp : AppState :=
  {| screen := upload; imageFile := None; initialEditorState := None;
     previousScreen := upload |}.

Definition navigateTo (targetScreen : Screen) (st : AppState) : AppState :=
  {| screen := targetScreen; imageFile := imageFile st;
     initialEditorState := initialEditorState st; previousScreen := screen st |}.

Definition handleImageUpload (file : File) (st : AppState) : AppState :=
  {| screen := editor; imageFile := Some file; initialEditorState := None;
     previousScreen := screen st |}.

(** [fetched] is the outcome of [dataUrlToFile], [None] when it throws.
    The handler awaits it and then navigates with the [screen] of the render
    in which the pattern was clicked: [seen]. *)
Definition handleLoadPattern (pattern : SavedPattern) (fetched : option File)
    (seen : Screen) (st : AppState) : AppState :=
  match fetched with
  | Some file =>
      {| screen := editor; imageFile := Some file; initialEditorState := Some pattern;
         previousScreen := seen |}
  | None => st
  end.

Definition handleCloseEditor (st : AppState) : AppState :=
  {| screen := upload; imageFile := None; initialEditorState := None;
     previousScreen := screen st |}.

Definition handleBack (st : AppState) : AppState :=
  {| screen := previousScreen st; imageFile := imageFile st;
     initialEditorState := initialEditorState st; previousScreen := previousScreen st |}.

(** [handleFile] of the upload screen, wired to [handleImageUpload]. *)
Definition handleFile (file : option File) (st : AppState) : AppState :=
  match file with
  | Some f => if String.prefix "image/" (fileType f) then handleImageUpload f st else st
  | None => st
  end.

(** What [renderScreen] shows. *)
Inductive View : Type :=
| UploadScreen
| EditorScreen (file : File) (initialState : option SavedPattern)
| MyPatternsScreen
| SettingsScreen
| PrivacyPolicyScreen
| TermsOfServiceScreen
| ContactScreen.

Definition renderScreen (st : AppState) : View :=
  match screen st with
  | upload => UploadScreen
  | editor =>
      match imageFile st with
      | Some file => EditorScreen file (initialEditorState st)
      | None => UploadScreen
      end
  | myPatterns => MyPatternsScreen
  | settings => SettingsScreen
  | privacyPolicy => PrivacyPolicyScreen
  | termsOfService => TermsOfServiceScreen
  | contact => ContactScreen
  end.

(** What the user can do to the shell. *)
Inductive Action : Type :=
| Navigate (targetScreen : Screen)
| PickFile (file : option File)
| LoadPattern (pattern : SavedPattern) (fetched : option File) (seen : Screen)
| CloseEditor
| Back.

Definition act (st : AppState) (a : Action) : AppState :=
  match a with
  | Navigate t => navigateTo t st
  | PickFile f => handleFile f st
  | LoadPattern p f seen => handleLoadPattern p f seen st
  | CloseEditor => handleCloseEditor st
  | Back => handleBack st
  end.

Definition run (actions : list Action) : AppState := foldl act initialApp actions.


(** Where the image and the pattern held by the shell come from. *)
Definition provenance (actions : list Action) (st : AppState) : Prop :=
  match imageFile st, initialEditorState st with
  | Some f, None =>
      PickFile (Some f) ∈ actions ∧ String.prefix "image/" (fileType f) = true
  | Some f, Some p => ∃ seen, LoadPattern p (Some f) seen ∈ actions
  | None, Some _ => False
  | None, None => True
  end.


(** Moving between screens: [navigateTo] and [handleBack] only. *)
Definition moves (a : Action) : Prop :=
  match a with Navigate _ | Back => True | _ => False end.


(** ** The undo history in use *)

(** What the controls of the editor do to the history. *)
Inductive Edit : Type :=
| Change (newState : EditorState)
| Undo
| Redo.

Definition edit (h : History) (e : Edit) : History :=
  match e with
  | Change newState => setState h newState
  | Undo => handleUndo h
  | Redo => handleRedo h
  end.

(** The history after the first effect and a series of edits. *)
Definition edits (initialState : option SavedPattern) (es : list Edit) : History :=
  foldl edit (initHistory initialState) es.

(** ** The PDF export: [generatePdf] and its two callers *)

Inductive Align : Type := alignLeft | alignCenter | alignRight.

(** The calls made on the jsPDF document; its numbers are doubles. *)
Inductive PdfOp : Type :=
| setFontSize (size : Z)
| text (s : string) (x y : float) (align : Align)
| textLines (lines : list string) (x y : float)
| setLineWidth (w : float)
| setDrawColor (c : string)
| setTextColor (c : string)
| line (x1 y1 x2 y2 : float)
| addImage (imgData : string) (x y w h : float)
| addPage
| save (filename : string).

(** [for (let i = from; i <= to; i += step)] *)
Definition countUp (from to step : Z) : list Z :=
  (λ k, from + step * k) <$> seqZ 0 ((to - from) `div` step + 1).

(** The size of the image on the page: the content width, or 0.8 of the
    content height when the height would exceed it. *)
#[local] Set Warnings "-inexact-float".
Definition pdfImgSize (contentWidth contentHeight : float) (imgWidth imgHeight : Z)
  : float * float :=
  let aspectRatio := (Z2F imgWidth / Z2F imgHeight)%float in
  let pdfImgWidth := contentWidth in
  let pdfImgHeight := (contentWidth / aspectRatio)%float in
  if (contentHeight * 0.8 <? pdfImgHeight)%float
  then ((contentHeight * 0.8) * aspectRatio, contentHeight * 0.8)%float
  else (pdfImgWidth, pdfImgHeight).
#[local] Set Warnings "inexact-float".

(** The vertical and the horizontal grid lines at the steps [steps]. *)
Definition verticalLines (gridX gridY w h : float) (stitchesX : Z) (steps : list Z)
  : list PdfOp :=
  (λ i, let x := (gridX + (Z2F i / Z2F stitchesX) * w)%float in
        line x gridY x (gridY + h)%float) <$> steps.

Definition horizontalLines (gridX gridY w h : float) (stitchesY : Z) (steps : list Z)
  : list PdfOp :=
  (λ i, let y := (gridY + (Z2F i / Z2F stitchesY) * h)%float in
        line gridX y (gridX + w)%float y) <$> steps.

(** The numbers along the top and down the left side. *)
Definition topLabels (gridX gridY w : float) (stitchesX : Z) (steps : list Z) : list PdfOp :=
  (λ i, text (pretty i) (gridX + (Z2F i / Z2F stitchesX) * w)%float
          (gridY - 5)%float alignCenter) <$> steps.

Definition sideLabels (gridX gridY h : float) (stitchesY : Z) (steps : list Z) : list PdfOp :=
  (λ i, text (pretty i) (gridX - 5)%float
          (gridY + (Z2F i / Z2F stitchesY) * h + 3)%float alignRight) <$> steps.

(** The calls that [generatePdf] makes on the document, in order, when
    none of them throws.  [pageWidth] and [pageHeight] are what jsPDF
    reports for the page, [splitTextToSize] is its line breaker, [imgData],
    [imgWidth] and [imgHeight] come from the pattern canvas. *)
Definition pdfCalls (pageWidth pageHeight : float)
    (splitTextToSize : string → float → list string)
    (imgData : string) (imgWidth imgHeight : Z)
    (instructions : string) (stitchesX stitchesY : Z) : list PdfOp :=
  let margin := 40%float in
  let contentWidth := (pageWidth - margin * 2)%float in
  let contentHeight := (pageHeight - margin * 2)%float in
  let size := pdfImgSize contentWidth contentHeight imgWidth imgHeight in
  let pdfImgWidth := size.1 in
  let pdfImgHeight := size.2 in
  let gridX := margin in
  let gridY := (margin + 30)%float in
  [setFontSize 20; text "Cross-Stitch Silhouette Pattern" margin margin alignLeft;
   setLineWidth 0.5%float; setDrawColor "#E2E8F0"]
  ++ verticalLines gridX gridY pdfImgWidth pdfImgHeight stitchesX (countUp 0 stitchesX 1)
  ++ horizontalLines gridX gridY pdfImgWidth pdfImgHeight stitchesY (countUp 0 stitchesY 1)
  ++ [setLineWidth 1%float; setDrawColor "#94A3B8"]
  ++ verticalLines gridX gridY pdfImgWidth pdfImgHeight stitchesX (countUp 0 stitchesX 10)
  ++ horizontalLines gridX gridY pdfImgWidth pdfImgHeight stitchesY (countUp 0 stitchesY 10)
  ++ [setFontSize 8; setTextColor "#475569"]
  ++ topLabels gridX gridY pdfImgWidth stitchesX (countUp 10 stitchesX 10)
  ++ sideLabels gridX gridY pdfImgHeight stitchesY (countUp 10 stitchesY 10)
  ++ [addImage imgData gridX gridY pdfImgWidth pdfImgHeight]
  ++ (if decide (instructions = EmptyString) then []
      else [addPage; setFontSize 20; text "Instructions" margin margin alignLeft;
            setFontSize 10;
            textLines (splitTextToSize instructions contentWidth) margin
              (margin + 20)%float])
  ++ [save "cross-stitch-silhouette-pattern.pdf"].

(** How [generatePdf] ends: the document was saved, or a call threw and
    the [catch] block raised the alert; either way with the calls that the
    document took. *)
Inductive PdfOutcome : Type :=
| Saved (calls : list PdfOp)
| Failed (calls : list PdfOp).

(** The [try] block: the calls are made one after the other until the
    library refuses one; [accepts] is the argument check of jsPDF. *)
Fixpoint perform (accepts : PdfOp → bool) (calls done : list PdfOp) : PdfOutcome :=
  match calls with
  | [] => Saved done
  | op :: rest =>
      if accepts op then perform accepts rest (done ++ [op]) else Failed done
  end.

Definition generatePdf (accepts : PdfOp → bool) (pageWidth pageHeight : float)
    (splitTextToSize : string → float → list string)
    (imgData : string) (imgWidth imgHeight : Z)
    (instructions : string) (stitchesX stitchesY : Z) : PdfOutcome :=
  perform accepts
    (pdfCalls pageWidth pageHeight splitTextToSize imgData imgWidth imgHeight
       instructions stitchesX stitchesY) [].

(** What is known of the check: jsPDF's [line] throws [Invalid arguments
    passed to jsPDF.line] when one of its coordinates is not a number. *)
Definition rejectsNaN (accepts : PdfOp → bool) : Prop :=
  ∀ x1 y1 x2 y2,
    is_nan x1 || is_nan y1 || is_nan x2 || is_nan y2 = true →
    accepts (line x1 y1 x2 y2) = false.

(** A check that refuses such lines and nothing else. *)
Definition checksLines (op : PdfOp) : bool :=
  match op with
  | line x1 y1 x2 y2 => negb (is_nan x1 || is_nan y1 || is_nan x2 || is_nan y2)
  | _ => true
  end.

(** [handleDownloadPdfWithInstructions] once its guard has passed: [service]
    is the answer of [getCrossStitchInstructions], [None] when the call
    throws; [pdf] is [generatePdf] on the pattern canvas. *)
Definition handleDownloadPdfWithInstructions (pdf : string → Z → Z → PdfOutcome)
    (service : option string) (imageWidth imageHeight : positive) (gridSize : Z)
  : PdfOutcome :=
  let stitchesX := gridSize in
  let stitchesY := derivedHeight imageWidth imageHeight gridSize in
  let instructions := default "Failed to generate instructions." service in
  pdf instructions stitchesX stitchesY.

Definition handleDownloadPdfWithoutInstructions (pdf : string → Z → Z → PdfOutcome)
    (imageWidth imageHeight : positive) (gridSize : Z) : PdfOutcome :=
  let stitchesX := gridSize in
  let stitchesY := derivedHeight imageWidth imageHeight gridSize in
  pdf EmptyString stitchesX stitchesY.

(** The pages of a document: one, and one more for each [addPage]. *)
Definition isAddPage (op : PdfOp) : bool :=
  match op with addPage => true | _ => false end.

Definition pages (ops : list PdfOp) : nat :=
  S (length (filter (λ op, isAddPage op = true) ops)).

(** The lines drawn, each with the line width set when it is drawn. *)
Fixpoint drawnLines (lineWidth : float) (ops : list PdfOp)
  : list (float * (float * float * float * float)) :=
  match ops with
  | [] => []
  | setLineWidth w :: ops' => drawnLines w ops'
  | line x1 y1 x2 y2 :: ops' => (lineWidth, (x1, y1, x2, y2)) :: drawnLines lineWidth ops'
  | _ :: ops' => drawnLines lineWidth ops'
  end.

(** ** More vocabulary *)

(** The point is one of the four corners of the cell [(y, x)]. *)
Definition cornerOf (k : Point) (c : Cell) : Prop :=
  (k.1 = c.2 ∨ k.1 = c.2 + 1) ∧ (k.2 = c.1 ∨ k.2 = c.1 + 1).

(** Two points on a common grid line. *)
Definition aligned (p q : Point) : Prop := p.1 = q.1 ∨ p.2 = q.2.

(** Every segment of the path is horizontal or vertical. *)
Fixpoint rectilinear (path : list Point) : Prop :=
  match path with
  | p :: (q :: _) as rest => aligned p q ∧ rectilinear rest
  | _ => True
  end.

(** The cursor of the history is on one of its entries. *)
Definition onEntry (h : History) : Prop := 0 ≤ historyIndex h < len (history h).

(** The cell is marked in the mask. *)
Definition marked (g : Grid) (c : Cell) : Prop := read g c.1 c.2 = Ok true.

(** Every marked cell is still queued, or the flood fill is done with it:
    each of its unoccupied neighbours inside the grid is marked. *)
Definition swept (stitchGrid : Grid) (width height : Z) (st : FloodState) : Prop :=
  ∀ c, inside width height c → marked st.1 c →
       c ∈ st.2 ∨
       ∀ d, adjacent c d → inside width height d → unoccupied stitchGrid d →
            marked st.1 d.

(** Every edge of the map is horizontal or vertical. *)
Definition straight (m : EdgeMap) : Prop :=
  ∀ k es e, (k, es) ∈ m → e ∈ es → aligned (p1 e) (p2 e).

(** What holds of the traced paths besides [traced]: their segments are
    horizontal or vertical. *)
Definition squared (st : TraceState) : Prop := Forall rectilinear st.2.
(** * Properties *)

(** ** ParameterHistory *)

Lemma sameJson_true next cur : sameJson next cur = true ↔ cur = Some next.
Proof.
  destruct cur as [c|]; simpl; [|split; discriminate].
  rewrite bool_decide_eq_true. split; [intros ->; reflexivity | intros [= ->]; reflexivity].
Qed.

Lemma override_some {A : Type} (old new : option A) : is_Some new → override old new = new.
Proof. intros [v ->]. reflexivity. Qed.

Lemma spread_complete cur s : complete s → spread cur s = s.
Proof.
  intros (Hg & Ht & Hf & Ho & Hc). destruct cur as [c|]; [|reflexivity].
  destruct s; simpl in *. unfold spread; simpl.
  rewrite !override_some by assumption. reflexivity.
Qed.

Lemma setState_same h newState :
  currentState h = Some (spread (currentState h) newState) → setState h newState = h.
Proof.
  intros H. unfold setState.
  destruct (sameJson _ _) eqn:E; [reflexivity|].
  apply sameJson_true in H. congruence.
Qed.

Lemma setState_fresh h newState :
  currentState h ≠ Some (spread (currentState h) newState) →
  setState h newState =
    let newHistory := slice0 (history h) (historyIndex h + 1)
                      ++ [spread (currentState h) newState] in
    {| history := newHistory; historyIndex := len newHistory - 1 |}.
Proof.
  intros H. unfold setState.
  destruct (sameJson _ _) eqn:E; [|reflexivity].
  apply sameJson_true in E. contradiction.
Qed.

Lemma at_last {A : Type} (l : list A) (x : A) : at_ (l ++ [x]) (len (l ++ [x]) - 1) = Some x.
Proof.
  unfold at_, len. rewrite length_app. simpl.
  destruct (decide _) as [_|Hn]; [|lia].
  replace (Z.to_nat _) with (length l) by lia.
  rewrite lookup_app_r by lia. rewrite Nat.sub_diag. reflexivity.
Qed.

(** C6: [setState] leaves the history alone when the merged parameters equal
    the current entry; otherwise it keeps the entries up to the cursor,
    appends the new one and moves the cursor onto it.  From the empty
    history, push a, push b, undo, push c leaves [a; c] with the cursor on c. *)
Theorem setState_push :
  (∀ h cur newState,
      currentState h = Some cur → spread (Some cur) newState = cur →
      setState h newState = h) ∧
  (∀ h newState,
      -1 ≤ historyIndex h →
      currentState h ≠ Some (spread (currentState h) newState) →
      history (setState h newState)
      = take (Z.to_nat (historyIndex h + 1)) (history h)
        ++ [spread (currentState h) newState] ∧
      historyIndex (setState h newState) = len (history (setState h newState)) - 1 ∧
      currentState (setState h newState) = Some (spread (currentState h) newState)) ∧
  (∀ a b c,
      complete a → complete b → complete c → a ≠ b → b ≠ c → a ≠ c →
      setState (handleUndo (setState (setState emptyHistory a) b)) c
      = {| history := [a; c]; historyIndex := 1 |} ∧
      currentState (setState (handleUndo (setState (setState emptyHistory a) b)) c)
      = Some c).
Proof.
  split; [|split].
  - intros h cur newState Hc Hs. apply setState_same. rewrite Hc at 2. rewrite Hs. exact Hc.
  - intros h newState Hi Hne. rewrite (setState_fresh _ _ Hne). cbn zeta. simpl.
    unfold slice0. destruct (decide _) as [Hn|_]; [lia|].
    split; [reflexivity|]. split; [reflexivity|].
    unfold currentState; simpl. apply at_last.
  - intros a b c Ha Hb Hc Hab Hbc Hac.
    assert (E1 : setState emptyHistory a = {| history := [a]; historyIndex := 0 |}).
    { rewrite setState_fresh by (unfold currentState; simpl; discriminate).
      unfold currentState; simpl. reflexivity. }
    assert (E2 : setState {| history := [a]; historyIndex := 0 |} b
                 = {| history := [a; b]; historyIndex := 1 |}).
    { rewrite setState_fresh; rewrite ?(spread_complete _ _ Hb);
        [reflexivity | cbv [currentState at_]; simpl; congruence]. }
    assert (E3 : handleUndo {| history := [a; b]; historyIndex := 1 |}
                 = {| history := [a; b]; historyIndex := 0 |}) by reflexivity.
    assert (E4 : setState {| history := [a; b]; historyIndex := 0 |} c
                 = {| history := [a; c]; historyIndex := 1 |}).
    { rewrite setState_fresh; rewrite ?(spread_complete _ _ Hc);
        [reflexivity | cbv [currentState at_]; simpl; congruence]. }
    rewrite E1, E2, E3, E4. split; reflexivity.
Qed.

Lemma setState_push_witness :
  setState (handleUndo (setState (setState emptyHistory (paramsOf 16)) (paramsOf 32)))
           (paramsOf 48)
  = {| history := [paramsOf 16; paramsOf 48]; historyIndex := 1 |}.
Proof.
  assert (Hc : ∀ n, complete (paramsOf n)) by (intros n; repeat split; eexists; reflexivity).
  apply (proj2 (proj2 setState_push) (paramsOf 16) (paramsOf 32) (paramsOf 48));
    try apply Hc; discriminate.
Defined.

(** ** PathSimplifier *)

Lemma abs_above_eps_spec c : abs_above_eps c = true ↔ c ≠ 0.
Proof. unfold abs_above_eps. rewrite bool_decide_eq_true. lia. Qed.

Lemma abs_below_eps_spec c : abs_below_eps c = true ↔ c = 0.
Proof. unfold abs_below_eps. rewrite bool_decide_eq_true. lia. Qed.

Lemma len_app {A : Type} (l k : list A) : len (l ++ k) = len l + len k.
Proof. unfold len. rewrite length_app. lia. Qed.

Lemma len_cons {A : Type} (x : A) (l : list A) : len (x :: l) = 1 + len l.
Proof. unfold len. simpl. lia. Qed.

Lemma len_nonneg {A : Type} (l : list A) : 0 ≤ len l.
Proof. unfold len. lia. Qed.

Lemma pt_snoc (s : list Point) (x : Point) : pt (s ++ [x]) (len (s ++ [x]) - 1) = x.
Proof.
  unfold pt, at_. rewrite len_app. unfold len; simpl.
  destruct (decide _) as [_|Hn]; [|lia].
  replace (Z.to_nat _) with (length s) by lia.
  rewrite lookup_app_r by lia. rewrite Nat.sub_diag. reflexivity.
Qed.

Lemma pt_app_l (s k : list Point) (i : Z) : 0 ≤ i < len s → pt (s ++ k) i = pt s i.
Proof.
  unfold pt, at_, len. intros H. destruct (decide _); [|lia].
  rewrite lookup_app_l by lia. reflexivity.
Qed.

Lemma pt_0 (x : Point) (l : list Point) : pt (x :: l) 0 = x.
Proof. reflexivity. Qed.

Lemma pt_1 (x y : Point) (l : list Point) : pt (x :: y :: l) 1 = y.
Proof. reflexivity. Qed.

Lemma linear_pass_step s c n rest :
  linear_pass s (c :: n :: rest)
  = if abs_above_eps (cross_product (pt s (len s - 1)) c n)
    then linear_pass (s ++ [c]) (n :: rest) else linear_pass s (n :: rest).
Proof. reflexivity. Qed.

Lemma kept_step prev c n rest :
  kept prev (c :: n :: rest)
  = if abs_above_eps (cross_product prev c n)
    then c :: kept c (n :: rest) else kept prev (n :: rest).
Proof. reflexivity. Qed.

Lemma linear_pass_kept rest : ∀ s x, linear_pass (s ++ [x]) rest = s ++ x :: kept x rest.
Proof.
  induction rest as [|c rest IH]; intros s x; [reflexivity|].
  destruct rest as [|n rest']; [simpl; rewrite <- app_assoc; reflexivity|].
  rewrite linear_pass_step, kept_step, pt_snoc.
  destruct (abs_above_eps _).
  - rewrite IH. rewrite <- app_assoc. reflexivity.
  - apply IH.
Qed.

Lemma simplifyPath_short path : len path < 3 → simplifyPath path = path.
Proof. intros H. unfold simplifyPath. destruct (decide _); [reflexivity|lia]. Qed.

Lemma simplifyPath_long p0 rest :
  3 ≤ len (p0 :: rest) →
  simplifyPath (p0 :: rest) = seam_first (seam_last (p0 :: kept p0 rest)).
Proof.
  intros H. unfold simplifyPath. destruct (decide _); [lia|].
  pose proof (linear_pass_kept rest [] p0) as E. simpl in E. rewrite E. reflexivity.
Qed.

Lemma kept_nonempty rest prev : rest ≠ [] → kept prev rest ≠ [].
Proof.
  revert prev. induction rest as [|c rest IH]; intros prev Hne; [contradiction|].
  destruct rest as [|n rest']; [discriminate|].
  rewrite kept_step. destruct (abs_above_eps _); [discriminate|].
  apply IH. discriminate.
Qed.

Lemma kept_sublist rest : ∀ prev, kept prev rest `sublist_of` rest.
Proof.
  induction rest as [|c rest IH]; intros prev; [constructor|].
  destruct rest as [|n rest']; [reflexivity|].
  rewrite kept_step. destruct (abs_above_eps _).
  - apply sublist_skip, IH.
  - apply sublist_cons, IH.
Qed.

Lemma removelast_sublist {A : Type} (l : list A) : removelast l `sublist_of` l.
Proof.
  induction l as [|x l IH]; [constructor|].
  destruct l as [|y l]; [apply sublist_cons; constructor|].
  change (removelast (x :: y :: l)) with (x :: removelast (y :: l)).
  apply sublist_skip, IH.
Qed.

Lemma seam_last_sublist s : seam_last s `sublist_of` s.
Proof.
  unfold seam_last. destruct (decide _); [|reflexivity].
  destruct (abs_below_eps _); [apply removelast_sublist|reflexivity].
Qed.

Lemma seam_first_sublist s : seam_first s `sublist_of` s.
Proof.
  unfold seam_first. destruct (decide _); [|reflexivity].
  destruct (abs_below_eps _); [|reflexivity].
  destruct s; [constructor|apply sublist_cons; reflexivity].
Qed.

(** The simplified path is the path with some points left out. *)
Lemma simplifyPath_sublist path : simplifyPath path `sublist_of` path.
Proof.
  destruct (decide (len path < 3)) as [Hs|Hl]; [rewrite simplifyPath_short by assumption; reflexivity|].
  destruct path as [|p0 rest]; [reflexivity|].
  rewrite simplifyPath_long by lia.
  etrans; [apply seam_first_sublist|]. etrans; [apply seam_last_sublist|].
  apply sublist_skip, kept_sublist.
Qed.

Lemma len_removelast {A : Type} (l : list A) : l ≠ [] → len (removelast l) = len l - 1.
Proof.
  intros Hne. destruct (exists_last Hne) as (l' & x & ->).
  rewrite removelast_last, len_app. unfold len; simpl. lia.
Qed.

Lemma len_seam_last s : 2 ≤ len s → 2 ≤ len (seam_last s).
Proof.
  intros H. unfold seam_last. destruct (decide _); [|assumption].
  destruct (abs_below_eps _); [|assumption].
  rewrite len_removelast; [lia|]. intros ->. unfold len in *; simpl in *; lia.
Qed.

Lemma len_seam_first s : 2 ≤ len s → 2 ≤ len (seam_first s).
Proof.
  intros H. unfold seam_first. destruct (decide _); [|assumption].
  destruct (abs_below_eps _); [|assumption].
  destruct s; [unfold len in *; simpl in *; lia|]. rewrite len_cons in *. simpl. lia.
Qed.

(** Simplification never takes a path below two points. *)
Lemma len_simplifyPath path : 2 ≤ len path → 2 ≤ len (simplifyPath path).
Proof.
  intros H.
  destruct (decide (len path < 3)) as [Hs|Hl]; [rewrite simplifyPath_short; assumption|].
  destruct path as [|p0 rest]; [assumption|].
  rewrite simplifyPath_long by lia.
  apply len_seam_first, len_seam_last.
  pose proof (kept_nonempty rest p0) as Hk.
  destruct rest as [|r rest]; [rewrite len_cons in Hl; unfold len in Hl; simpl in Hl; lia|].
  destruct (kept p0 (r :: rest)); [exfalso; apply Hk; [discriminate|reflexivity]|].
  rewrite !len_cons. pose proof (len_nonneg l). lia.
Qed.
(** *** Collinearity *)

Lemma cross_rot a b c : cross_product a b c = cross_product b c a.
Proof. unfold cross_product. ring. Qed.

Lemma cross_swap a b c : cross_product a b c = - cross_product a c b.
Proof. unfold cross_product. ring. Qed.

Lemma cross_same a b : cross_product a b b = 0.
Proof. unfold cross_product. ring. Qed.

(** Two points of a line decide it: what lies on the line through [p] and
    [q] is collinear with [p] and any other point of that line. *)
Lemma line_through (p q x y : Point) :
  p ≠ q → cross_product p q x = 0 → cross_product p q y = 0 → cross_product p x y = 0.
Proof.
  destruct p as [p1 p2], q as [q1 q2], x as [x1 x2], y as [y1 y2].
  unfold cross_product; simpl. intros Hne Hx Hy.
  assert (Hq : q1 - p1 ≠ 0 ∨ q2 - p2 ≠ 0).
  { destruct (decide (q1 = p1)) as [->|]; [|left; lia].
    destruct (decide (q2 = p2)) as [->|]; [|right; lia].
    contradiction Hne; reflexivity. }
  set (u1 := q1 - p1) in *. set (u2 := q2 - p2) in *.
  set (D := (x2 - p2) * (y1 - x1) - (x1 - p1) * (y2 - x2)).
  assert (H1 : u1 * D = 0).
  { subst D u1 u2.
    replace ((q1 - p1) * ((x2 - p2) * (y1 - x1) - (x1 - p1) * (y2 - x2)))
      with ((x1 - p1) * ((q2 - p2) * (y1 - q1) - (q1 - p1) * (y2 - q2))
            - (y1 - p1) * ((q2 - p2) * (x1 - q1) - (q1 - p1) * (x2 - q2))) by ring.
    rewrite Hx, Hy. ring. }
  assert (H2 : u2 * D = 0).
  { subst D u1 u2.
    replace ((q2 - p2) * ((x2 - p2) * (y1 - x1) - (x1 - p1) * (y2 - x2)))
      with ((x2 - p2) * ((q2 - p2) * (y1 - q1) - (q1 - p1) * (y2 - q2))
            - (y2 - p2) * ((q2 - p2) * (x1 - q1) - (q1 - p1) * (x2 - q2))) by ring.
    rewrite Hx, Hy. ring. }
  destruct Hq as [Hq|Hq]; [apply Z.mul_eq_0 in H1 | apply Z.mul_eq_0 in H2]; tauto.
Qed.

(** If [x] is off the line through [p] and [c], and [q ≠ p] is on it, then
    [x] is off the line through [p] and [q]. *)
Lemma off_line (x p c q : Point) :
  cross_product x p c ≠ 0 → cross_product p c q = 0 → p ≠ q → cross_product x p q ≠ 0.
Proof.
  intros Hoff Hon Hne Hcol. apply Hoff.
  rewrite (cross_rot x p c), (cross_swap p c x), (line_through p q x c Hne); [reflexivity| |].
  - rewrite <- (cross_rot x p q). exact Hcol.
  - rewrite (cross_swap p q c), Hon. reflexivity.
Qed.
Lemma cross_rev a b c : cross_product a b c = - cross_product c b a.
Proof. unfold cross_product. ring. Qed.

Lemma off_line_back (c p x q : Point) :
  cross_product c p x ≠ 0 → cross_product q c p = 0 → p ≠ q → cross_product q p x ≠ 0.
Proof.
  intros Hoff Hon Hne.
  assert (H : cross_product x p q ≠ 0).
  { apply (off_line x p c q); [rewrite cross_rev; lia| |exact Hne].
    rewrite <- (cross_rot q p c), cross_swap, Hon. reflexivity. }
  rewrite cross_rev. lia.
Qed.

(** *** The loop keeps exactly the turning points *)

Lemma kept_head_line rest : ∀ prev n tl h t,
  rest = n :: tl → prev ∉ rest → kept prev rest = h :: t →
  cross_product prev n h = 0 ∧ h ∈ rest.
Proof.
  induction rest as [|c rest IH]; intros prev n tl h t E Hnotin Hk; [discriminate|].
  injection E as -> ->.
  destruct tl as [|n2 tl'].
  - simpl in Hk. injection Hk as <- <-. split; [apply cross_same|left].
  - rewrite kept_step in Hk. destruct (abs_above_eps _) eqn:Ha.
    + injection Hk as <- <-. split; [apply cross_same|left].
    + assert (Hc : cross_product prev n n2 = 0).
      { destruct (decide (cross_product prev n n2 = 0)) as [|Hn]; [assumption|].
        apply abs_above_eps_spec in Hn. congruence. }
      destruct (IH prev n2 tl' h t eq_refl) as [Hl Hin]; [|exact Hk|].
      { intros Hin. apply Hnotin. right. exact Hin. }
      split; [|right; exact Hin].
      assert (Hne : prev ≠ n2) by (intros ->; apply Hnotin; right; left).
      rewrite cross_swap, (line_through prev n2 h n Hne); [reflexivity|exact Hl|].
      rewrite cross_swap, Hc. reflexivity.
Qed.

Lemma turns_kept rest : ∀ prev, NoDup (prev :: rest) → turns (prev :: kept prev rest).
Proof.
  induction rest as [|c rest IH]; intros prev Hnd; [constructor|].
  destruct rest as [|n tl]; [constructor|].
  rewrite kept_step. destruct (abs_above_eps _) eqn:Ha.
  - apply abs_above_eps_spec in Ha.
    assert (Hnd' : NoDup (c :: n :: tl)) by (apply NoDup_cons in Hnd; tauto).
    specialize (IH c Hnd').
    destruct (kept c (n :: tl)) as [|h t] eqn:Hk.
    { exfalso. eapply kept_nonempty; [|exact Hk]. discriminate. }
    constructor; [|exact IH].
    destruct (kept_head_line (n :: tl) c n tl h t eq_refl) as [Hl Hin];
      [apply NoDup_cons in Hnd'; tauto|exact Hk|].
    apply (off_line prev c n h Ha Hl).
    intros ->. apply NoDup_cons in Hnd'. tauto.
  - apply IH. apply NoDup_cons in Hnd as [Hnotin Hnd].
    apply NoDup_cons in Hnd as [_ Hnd].
    apply NoDup_cons. split; [|exact Hnd].
    intros Hin. apply Hnotin. right. exact Hin.
Qed.

Lemma kept_turns l : ∀ prev, turns (prev :: l) → kept prev l = l.
Proof.
  induction l as [|c l IH]; intros prev Ht; [reflexivity|].
  destruct l as [|n tl]; [reflexivity|].
  inversion Ht as [| | |a b d l' Hc Ht']; subst.
  rewrite kept_step. apply abs_above_eps_spec in Hc. rewrite Hc.
  f_equal. apply IH. exact Ht'.
Qed.

(** *** Paths by index *)

Lemma pt_cons (x : Point) (l : list Point) (i : Z) : 0 ≤ i → pt (x :: l) (i + 1) = pt l i.
Proof.
  intros H. unfold pt, at_. destruct (decide _); [|lia]. destruct (decide _); [|lia].
  replace (Z.to_nat (i + 1)) with (S (Z.to_nat i)) by lia. reflexivity.
Qed.

Lemma pt_cons' (x : Point) (l : list Point) (i : Z) : 1 ≤ i → pt (x :: l) i = pt l (i - 1).
Proof. intros H. replace i with ((i - 1) + 1) at 1 by lia. apply pt_cons. lia. Qed.

Lemma pt_tail (l : list Point) (i : Z) : 0 ≤ i → pt (tail l) i = pt l (i + 1).
Proof.
  intros H. destruct l as [|x l]; [|rewrite pt_cons by assumption; reflexivity].
  unfold pt, at_. repeat destruct (decide _); rewrite ?lookup_nil; reflexivity.
Qed.

Lemma len_tail {A : Type} (l : list A) : l ≠ [] → len (tail l) = len l - 1.
Proof. destruct l; [contradiction|]. intros _. rewrite len_cons. simpl. lia. Qed.

Lemma pt_removelast (l : list Point) (i : Z) :
  0 ≤ i < len l - 1 → pt (removelast l) i = pt l i.
Proof.
  intros H. destruct (decide (l = [])) as [->|Hne]; [reflexivity|].
  destruct (exists_last Hne) as (l' & x & ->).
  rewrite removelast_last. rewrite len_app in H. unfold len at 2 in H. simpl in H.
  rewrite pt_app_l by lia. reflexivity.
Qed.

Lemma turns_pt l : turns l →
  ∀ k, 0 ≤ k → k + 2 < len l →
       cross_product (pt l k) (pt l (k + 1)) (pt l (k + 2)) ≠ 0.
Proof.
  induction 1 as [| | |a b c l Hc Ht IH]; intros k Hk Hlen;
    try (unfold len in Hlen; simpl in Hlen; lia).
  destruct (decide (k = 0)) as [->|Hk0]; [exact Hc|].
  rewrite (pt_cons' a _ k), (pt_cons' a _ (k + 1)), (pt_cons' a _ (k + 2)) by lia.
  replace (k + 1 - 1) with (k - 1 + 1) by lia.
  replace (k + 2 - 1) with (k - 1 + 2) by lia.
  apply IH; [lia|]. rewrite len_cons in Hlen. lia.
Qed.

Lemma pt_turns l :
  (∀ k, 0 ≤ k → k + 2 < len l →
        cross_product (pt l k) (pt l (k + 1)) (pt l (k + 2)) ≠ 0) →
  turns l.
Proof.
  induction l as [|a l IH]; intros H; [constructor|].
  destruct l as [|b l]; [constructor|]. destruct l as [|c l]; [constructor|].
  constructor.
  - apply (H 0); [lia|]. rewrite !len_cons. pose proof (len_nonneg l). lia.
  - apply IH. intros k Hk Hlen.
    specialize (H (k + 1)).
    rewrite (pt_cons' a _ (k + 1)), (pt_cons' a _ (k + 1 + 1)), (pt_cons' a _ (k + 1 + 2)) in H by lia.
    replace (k + 1 - 1) with k in H by lia.
    replace (k + 1 + 1 - 1) with (k + 1) in H by lia.
    replace (k + 1 + 2 - 1) with (k + 2) in H by lia.
    apply H; [lia|]. rewrite (len_cons a). lia.
Qed.

Lemma NoDup_pt (l : list Point) (i j : Z) :
  NoDup l → 0 ≤ i < len l → 0 ≤ j < len l → pt l i = pt l j → i = j.
Proof.
  intros Hnd Hi Hj. unfold pt, at_, len in *.
  destruct (decide _); [|lia]. destruct (decide _); [|lia].
  destruct (lookup_lt_is_Some_2 l (Z.to_nat i)) as [x Hx]; [lia|].
  destruct (lookup_lt_is_Some_2 l (Z.to_nat j)) as [y Hy]; [lia|].
  rewrite Hx, Hy. simpl. intros ->.
  pose proof (NoDup_lookup l _ _ _ Hnd Hx Hy). lia.
Qed.
(** *** The seam *)

Lemma abs_below_eps_false c : abs_below_eps c = false ↔ c ≠ 0.
Proof.
  rewrite <- abs_below_eps_spec. destruct (abs_below_eps c); split; congruence.
Qed.

Lemma turns_tail l : turns l → turns (tail l).
Proof. destruct 1; simpl; try constructor; assumption. Qed.

Lemma turns_removelast l : turns l → turns (removelast l).
Proof.
  intros Ht. destruct (decide (l = [])) as [->|Hne]; [constructor|].
  apply pt_turns. intros k Hk Hlen. rewrite len_removelast in Hlen by assumption.
  rewrite !pt_removelast by lia. apply turns_pt; [assumption|lia|lia].
Qed.

Lemma settled_fix r : settled r → simplifyPath r = r.
Proof.
  intros [Ht Hs].
  destruct (decide (len r < 3)) as [Hlt|Hge]; [apply simplifyPath_short; assumption|].
  destruct Hs as [H1 H2]; [lia|].
  destruct r as [|r0 rest]; [reflexivity|].
  rewrite simplifyPath_long by lia. rewrite (kept_turns rest r0 Ht).
  assert (E : seam_last (r0 :: rest) = r0 :: rest).
  { unfold seam_last. destruct (decide _); [|reflexivity].
    apply abs_below_eps_false in H1. rewrite H1. reflexivity. }
  rewrite E. unfold seam_first. destruct (decide _); [|reflexivity].
  apply abs_below_eps_false in H2. rewrite H2. reflexivity.
Qed.

(** Dropping a collinear last point leaves a turn at the new last point. *)
Lemma pop_turn k :
  NoDup k → turns k → 4 ≤ len k →
  cross_product (pt k (len k - 2)) (pt k (len k - 1)) (pt k 0) = 0 →
  cross_product (pt k (len k - 3)) (pt k (len k - 2)) (pt k 0) ≠ 0.
Proof.
  intros Hnd Ht Hlen Hcol.
  apply (off_line _ _ (pt k (len k - 1))); [| exact Hcol |].
  - pose proof (turns_pt k Ht (len k - 3)) as H.
    replace (len k - 3 + 1) with (len k - 2) in H by lia.
    replace (len k - 3 + 2) with (len k - 1) in H by lia.
    apply H; lia.
  - intros E. apply NoDup_pt in E; [lia|assumption|lia|lia].
Qed.

(** Dropping a collinear first point settles the path. *)
Lemma settle_tail l :
  NoDup l → turns l → 3 ≤ len l →
  cross_product (pt l (len l - 2)) (pt l (len l - 1)) (pt l 0) ≠ 0 →
  cross_product (pt l (len l - 1)) (pt l 0) (pt l 1) = 0 →
  settled (tail l).
Proof.
  intros Hnd Ht Hlen Hs1 Hcol. split; [apply turns_tail; assumption|].
  assert (Hne : l ≠ []) by (intros ->; unfold len in Hlen; simpl in Hlen; lia).
  rewrite len_tail by assumption. intros Hlen'.
  rewrite !pt_tail by lia.
  replace (len l - 1 - 2 + 1) with (len l - 2) by lia.
  replace (len l - 1 - 1 + 1) with (len l - 1) by lia.
  simpl (0 + 1). replace (1 + 1) with 2 by lia.
  split.
  - apply (off_line _ _ (pt l 0)); [exact Hs1|exact Hcol|].
    intros E. apply NoDup_pt in E; [lia|assumption|lia|lia].
  - apply (off_line_back (pt l 0)); [|exact Hcol|].
    + apply (turns_pt l Ht 0); lia.
    + intros E. apply NoDup_pt in E; [lia|assumption|lia|lia].
Qed.

Lemma seams_settled k : NoDup k → turns k → settled (seam_first (seam_last k)).
Proof.
  intros Hnd Ht. unfold seam_last.
  destruct (decide (3 ≤ len k)) as [Hlen|Hlen].
  2:{ unfold seam_first. destruct (decide _); [lia|]. split; [assumption|lia]. }
  assert (Hne : k ≠ []) by (intros ->; unfold len in Hlen; simpl in Hlen; lia).
  destruct (abs_below_eps _) eqn:Hpop.
  - apply abs_below_eps_spec in Hpop.
    assert (Hnd' : NoDup (removelast k))
      by (eapply sublist_NoDup; [exact Hnd|apply removelast_sublist]).
    assert (Ht' : turns (removelast k)) by (apply turns_removelast; assumption).
    assert (Hl' : len (removelast k) = len k - 1) by (apply len_removelast; assumption).
    unfold seam_first. destruct (decide (3 ≤ len (removelast k))) as [Hlen'|Hlen'].
    2:{ split; [assumption|lia]. }
    assert (Hs1 : cross_product (pt (removelast k) (len (removelast k) - 2))
                    (pt (removelast k) (len (removelast k) - 1)) (pt (removelast k) 0) ≠ 0).
    { rewrite Hl'. rewrite !pt_removelast by lia.
      replace (len k - 1 - 2) with (len k - 3) by lia.
      replace (len k - 1 - 1) with (len k - 2) by lia.
      apply pop_turn; [assumption|assumption|lia|assumption]. }
    destruct (abs_below_eps _) eqn:Hshift.
    + apply abs_below_eps_spec in Hshift. apply settle_tail; assumption.
    + apply abs_below_eps_false in Hshift. split; [assumption|]. intros _. split; assumption.
  - apply abs_below_eps_false in Hpop.
    unfold seam_first. destruct (decide _); [|lia].
    destruct (abs_below_eps _) eqn:Hshift.
    + apply abs_below_eps_spec in Hshift. apply settle_tail; assumption.
    + apply abs_below_eps_false in Hshift. split; [assumption|]. intros _. split; assumption.
Qed.

Lemma simplifyPath_settled path : NoDup path → settled (simplifyPath path) ∨ len path < 3.
Proof.
  intros Hnd. destruct (decide (len path < 3)) as [Hlt|Hge]; [right; assumption|left].
  destruct path as [|p0 rest]; [unfold len in Hge; simpl in Hge; lia|].
  rewrite simplifyPath_long by lia.
  apply seams_settled.
  - eapply sublist_NoDup; [exact Hnd|]. apply sublist_skip, kept_sublist.
  - apply turns_kept. exact Hnd.
Qed.

(** On a path without a repeated point nothing is left to remove after
    one pass. *)
Lemma simplifyPath_twice path :
  NoDup path → simplifyPath (simplifyPath path) = simplifyPath path.
Proof.
  intros Hnd. destruct (simplifyPath_settled path Hnd) as [Hs|Hlt].
  - apply settled_fix. exact Hs.
  - rewrite (simplifyPath_short path Hlt). apply simplifyPath_short. exact Hlt.
Qed.

(** In the range of [gridPoint] every number that the source forms on the
    way to the cross product is an integer of absolute value at most 2^53:
    binary64 holds each of them exactly. *)
Lemma cross_product_in_range p_prev p_curr p_next :
  gridPoint p_prev → gridPoint p_curr → gridPoint p_next →
  Z.abs (p_curr.2 - p_prev.2) ≤ 2 ^ 26 ∧ Z.abs (p_next.1 - p_curr.1) ≤ 2 ^ 26 ∧
  Z.abs (p_curr.1 - p_prev.1) ≤ 2 ^ 26 ∧ Z.abs (p_next.2 - p_curr.2) ≤ 2 ^ 26 ∧
  Z.abs ((p_curr.2 - p_prev.2) * (p_next.1 - p_curr.1)) ≤ 2 ^ 52 ∧
  Z.abs ((p_curr.1 - p_prev.1) * (p_next.2 - p_curr.2)) ≤ 2 ^ 52 ∧
  Z.abs (cross_product p_prev p_curr p_next) ≤ 2 ^ 53.
Proof.
  unfold gridPoint, cross_product. intros [H1 H2] [H3 H4] [H5 H6].
  assert (Ha : Z.abs (p_curr.2 - p_prev.2) ≤ 2 ^ 26) by lia.
  assert (Hb : Z.abs (p_next.1 - p_curr.1) ≤ 2 ^ 26) by lia.
  assert (Hc : Z.abs (p_curr.1 - p_prev.1) ≤ 2 ^ 26) by lia.
  assert (Hd : Z.abs (p_next.2 - p_curr.2) ≤ 2 ^ 26) by lia.
  assert (He : Z.abs ((p_curr.2 - p_prev.2) * (p_next.1 - p_curr.1)) ≤ 2 ^ 52).
  { rewrite Z.abs_mul. change (2 ^ 52) with (2 ^ 26 * 2 ^ 26).
    apply Z.mul_le_mono_nonneg; lia. }
  assert (Hf : Z.abs ((p_curr.1 - p_prev.1) * (p_next.2 - p_curr.2)) ≤ 2 ^ 52).
  { rewrite Z.abs_mul. change (2 ^ 52) with (2 ^ 26 * 2 ^ 26).
    apply Z.mul_le_mono_nonneg; lia. }
  repeat split; try assumption. lia.
Qed.

(** At the edge of the range the binary64 value is the integer; for
    coordinates around 10^8 it is not: the three points below are not in
    line, and binary64 finds them in line. *)
Example cross_product64_in_range :
  cross_product64 (- 2 ^ 25, - 2 ^ 25) (2 ^ 25, 2 ^ 25) (- 2 ^ 25, 2 ^ 25 - 1)
  = Z2F (cross_product (- 2 ^ 25, - 2 ^ 25) (2 ^ 25, 2 ^ 25) (- 2 ^ 25, 2 ^ 25 - 1)).
Proof. vm_compute. reflexivity. Qed.

Example cross_product64_rounds :
  cross_product64 (0, 0) (94906267, 94906268) (189812535, 189812537) = 0%float ∧
  cross_product (0, 0) (94906267, 94906268) (189812535, 189812537) = 1.
Proof. split; vm_compute; reflexivity. Qed.
(** ** Loops *)

Lemma forEach_inv {I S : Type} (body : I → S → Res S) (P : S → Prop) (l : list I) :
  ∀ s, P s →
       (∀ i s, i ∈ l → P s → ∃ s', body i s = Ok s' ∧ P s') →
       ∃ s', forEach body l s = Ok s' ∧ P s'.
Proof.
  induction l as [|i l IH]; intros s Hs Hbody; [exists s; split; [reflexivity|assumption]|].
  destruct (Hbody i s) as (s1 & E1 & H1); [left|assumption|].
  destruct (IH s1 H1) as (s2 & E2 & H2).
  { intros j t Hj. apply Hbody. right. exact Hj. }
  exists s2. split; [|assumption]. simpl. rewrite E1. simpl. exact E2.
Qed.

(** A loop whose body adds to a collection adds what each pass adds. *)
Lemma forEach_collect {I S K : Type} (body : I → S → Res S) (P : S → Prop)
    (mem : S → K → Prop) (sel : I → K → Prop) (l : list I) :
  (∀ i s, i ∈ l → P s →
          ∃ s', body i s = Ok s' ∧ P s' ∧ ∀ k, mem s' k ↔ mem s k ∨ sel i k) →
  ∀ s, P s →
       ∃ s', forEach body l s = Ok s' ∧ P s' ∧
             ∀ k, mem s' k ↔ mem s k ∨ ∃ i, i ∈ l ∧ sel i k.
Proof.
  induction l as [|i l IH]; intros Hbody s Hs.
  - exists s. split; [reflexivity|]. split; [assumption|]. intros k. split; [tauto|].
    intros [H|(i & Hi & _)]; [assumption|]. inversion Hi.
  - destruct (Hbody i s) as (s1 & E1 & Hs1 & H1); [left|assumption|].
    destruct (IH (λ j t Hj, Hbody j t (list_elem_of_further _ _ _ Hj)) s1 Hs1)
      as (s2 & E2 & Hs2 & H2).
    exists s2. split; [simpl; rewrite E1; exact E2|]. split; [assumption|].
    intros k. rewrite H2, H1. split.
    + intros [[H|H]|(j & Hj & H)]; [tauto|right; exists i; split; [left|assumption]|].
      right. exists j. split; [right|]; assumption.
    + intros [H|(j & Hj & H)]; [tauto|].
      apply elem_of_cons in Hj as [->|Hj]; [tauto|]. right. exists j. tauto.
Qed.

(** ** Reading a well-formed grid *)

Lemma at_Some {A : Type} (l : list A) (i : Z) :
  0 ≤ i < len l → ∃ x, at_ l i = Some x.
Proof.
  intros H. unfold at_, len in *. destruct (decide _); [|lia].
  apply lookup_lt_is_Some_2. lia.
Qed.

Lemma wf_rows g width height y :
  wf_grid g width height → 0 ≤ y < height →
  ∃ row, at_ g y = Some row ∧ length row = Z.to_nat width.
Proof.
  intros (Hw & Hh & Hlen & Hrows) Hy.
  destruct (at_Some g y) as [row E]; [unfold len; lia|].
  exists row. split; [assumption|].
  unfold at_ in E. destruct (decide _); [|discriminate].
  rewrite Forall_forall in Hrows. apply Hrows. apply list_elem_of_lookup. eauto.
Qed.

Lemma read_ok g width height y x :
  wf_grid g width height → 0 ≤ y < height → ∃ b, read g y x = Ok b.
Proof.
  intros Hwf Hy. destruct (wf_rows g width height y Hwf Hy) as (row & E & _).
  unfold read. rewrite E. eauto.
Qed.

(** ** ContourTracer: the boundary edges *)

Lemma elem_of_set_add k k' s : k ∈ set_add k' s ↔ k ∈ s ∨ k = k'.
Proof.
  unfold set_add. destruct (bool_decide (k' ∈ s)) eqn:E.
  - apply bool_decide_eq_true in E. split; [tauto|]. intros [H| ->]; assumption.
  - rewrite elem_of_app, list_elem_of_singleton. reflexivity.
Qed.

Lemma orRead_ok c g width height y x :
  wf_grid g width height → (c = false → 0 ≤ y < height) →
  ∃ b, orRead c g y x = Ok b ∧ (b = true ↔ c = true ∨ read g y x = Ok true).
Proof.
  intros Hwf Hy. destruct c; simpl.
  - exists true. split; [reflexivity|]. tauto.
  - destruct (read_ok g width height y x Hwf (Hy eq_refl)) as [b E].
    exists b. split; [assumption|]. rewrite E. split; [intros ->; tauto|].
    intros [H|H]; congruence.
Qed.

Lemma cellEdges_spec stitchGrid backgroundGrid width height y x es :
  wf_grid stitchGrid width height → wf_grid backgroundGrid width height →
  0 ≤ y < height → 0 ≤ x < width →
  ∃ es', cellEdges stitchGrid backgroundGrid width height y x es = Ok es' ∧
         ∀ hk, inEdges es' hk.1 hk.2 ↔
               inEdges es hk.1 hk.2
               ∨ selects stitchGrid backgroundGrid width height y x hk.1 hk.2.
Proof.
  intros Hs Hb Hy Hx. unfold cellEdges.
  destruct (read_ok stitchGrid width height y x Hs Hy) as [occ Eocc].
  rewrite Eocc. simpl. destruct occ.
  2:{ exists es. split; [reflexivity|]. intros [hz k]. unfold selects. rewrite Eocc.
      split; [tauto|]. intros [H|[H _]]; [assumption|discriminate]. }
  destruct (orRead_ok (bool_decide (y = 0)) backgroundGrid width height (y - 1) x Hb)
    as (top & Et & Ht).
  { intros E. apply bool_decide_eq_false in E. lia. }
  destruct (orRead_ok (bool_decide (y = height - 1)) backgroundGrid width height (y + 1) x Hb)
    as (bottom & Ebo & Hbo).
  { intros E. apply bool_decide_eq_false in E. lia. }
  destruct (orRead_ok (bool_decide (x = 0)) backgroundGrid width height y (x - 1) Hb)
    as (left & El & Hl); [intros _; lia|].
  destruct (orRead_ok (bool_decide (x = width - 1)) backgroundGrid width height y (x + 1) Hb)
    as (right & Er & Hr); [intros _; lia|].
  rewrite Et. simpl. rewrite Ebo. simpl. rewrite El. simpl. rewrite Er. simpl.
  eexists. split; [reflexivity|].
  rewrite bool_decide_eq_true in Ht, Hbo, Hl, Hr.
  intros [hz k]. unfold selects, inEdges. simpl. destruct hz.
  - destruct top, bottom; rewrite ?elem_of_set_add; intuition congruence.
  - destruct left, right; rewrite ?elem_of_set_add; intuition congruence.
Qed.
Lemma boundaryEdges_spec stitchGrid backgroundGrid width height :
  wf_grid stitchGrid width height → wf_grid backgroundGrid width height →
  ∃ es, boundaryEdges stitchGrid backgroundGrid width height = Ok es ∧
        ∀ horizontal k,
          inEdges es horizontal k ↔
          ∃ y x, 0 ≤ y < height ∧ 0 ≤ x < width ∧
                 selects stitchGrid backgroundGrid width height y x horizontal k.
Proof.
  intros Hs Hb. unfold boundaryEdges.
  destruct (forEach_collect
              (λ y, forEach (cellEdges stitchGrid backgroundGrid width height y) (seqZ 0 width))
              (λ _, True)
              (λ (es : EdgeSets) (hk : bool * Point), inEdges es hk.1 hk.2)
              (λ y hk, ∃ x, x ∈ seqZ 0 width ∧
                            selects stitchGrid backgroundGrid width height y x hk.1 hk.2)
              (seqZ 0 height)) with (([], []) : EdgeSets) as (es & E & _ & H); [|exact I|].
  { intros y es Hy _. apply elem_of_seqZ in Hy.
    apply (forEach_collect (cellEdges stitchGrid backgroundGrid width height y)
             (λ _, True)
             (λ (es : EdgeSets) (hk : bool * Point), inEdges es hk.1 hk.2)
             (λ x hk, selects stitchGrid backgroundGrid width height y x hk.1 hk.2));
      [|exact I].
    intros x es0 Hx _. apply elem_of_seqZ in Hx.
    destruct (cellEdges_spec stitchGrid backgroundGrid width height y x es0)
      as (es' & E' & H'); [assumption|assumption|lia|lia|].
    exists es'. split; [assumption|]. split; [exact I|assumption]. }
  exists es. split; [exact E|].
  intros hz k. rewrite (H (hz, k)). simpl. split.
  - intros [Hin|(y & Hy & x & Hx & Hsel)].
    + destruct hz; simpl in Hin; inversion Hin.
    + apply elem_of_seqZ in Hy, Hx. exists y, x. split; [lia|]. split; [lia|assumption].
  - intros (y & x & Hy & Hx & Hsel). right. exists y. split; [apply elem_of_seqZ; lia|].
    exists x. split; [apply elem_of_seqZ; lia|assumption].
Qed.

(** ** ContourTracer: the edge map *)

Lemma keys_app (m m' : EdgeMap) : keys (m ++ m') = keys m ++ keys m'.
Proof. unfold keys. apply fmap_app. Qed.

Lemma keys_pushAt k e m : keys (pushAt k e m) = keys m.
Proof.
  unfold keys, pushAt. rewrite <- list_fmap_compose. apply list_fmap_ext.
  intros i [k' es] _. simpl. destruct (bool_decide _); reflexivity.
Qed.

Lemma keys_ensure k m k' : k' ∈ keys (ensure k m) ↔ k' ∈ keys m ∨ k' = k.
Proof.
  unfold ensure. destruct (bool_decide (k ∈ keys m)) eqn:E.
  - apply bool_decide_eq_true in E. split; [tauto|]. intros [H| ->]; assumption.
  - rewrite keys_app, elem_of_app. simpl. rewrite list_elem_of_singleton. reflexivity.
Qed.

Lemma elem_of_keys (m : EdgeMap) k es : (k, es) ∈ m → k ∈ keys m.
Proof. intros H. unfold keys. apply list_elem_of_fmap. exists (k, es). split; [reflexivity|assumption]. Qed.

Lemma closed_ensure k m : closed m → closed (ensure k m).
Proof.
  intros Hc k' es e Hin He.
  assert (Hin' : (k', es) ∈ m).
  { unfold ensure in Hin. destruct (bool_decide _); [assumption|].
    apply elem_of_app in Hin as [Hin|Hin]; [assumption|].
    apply list_elem_of_singleton in Hin. injection Hin as -> ->. inversion He. }
  destruct (Hc k' es e Hin' He) as [H1 H2].
  split; apply keys_ensure; left; assumption.
Qed.

Lemma closed_pushAt k e m :
  closed m → p1 e ∈ keys m → p2 e ∈ keys m → closed (pushAt k e m).
Proof.
  intros Hc H1 H2 k' es e' Hin He. rewrite keys_pushAt.
  unfold pushAt in Hin. apply list_elem_of_fmap in Hin as ([k0 es0] & E & Hin).
  simpl in E. destruct (bool_decide _).
  - injection E as -> ->. apply elem_of_app in He as [He|He]; [exact (Hc _ _ _ Hin He)|].
    apply list_elem_of_singleton in He as ->. split; assumption.
  - injection E as -> ->. exact (Hc _ _ _ Hin He).
Qed.

Lemma closed_addEdgeToMap a b m : closed m → closed (addEdgeToMap a b m).
Proof.
  intros Hc. unfold addEdgeToMap.
  assert (Ha : a ∈ keys (ensure b (ensure a m))).
  { apply keys_ensure. left. apply keys_ensure. right. reflexivity. }
  assert (Hb : b ∈ keys (ensure b (ensure a m))).
  { apply keys_ensure. right. reflexivity. }
  apply closed_pushAt; simpl; rewrite ?keys_pushAt; try assumption.
  apply closed_pushAt; simpl; try assumption.
  apply closed_ensure, closed_ensure, Hc.
Qed.

Lemma closed_foldl (f : Point → Point * Point) (l : list Point) :
  ∀ m, closed m → closed (foldl (λ m k, addEdgeToMap (f k).1 (f k).2 m) m l).
Proof.
  induction l as [|k l IH]; intros m Hc; [assumption|].
  simpl. apply IH. apply closed_addEdgeToMap. exact Hc.
Qed.

Lemma closed_buildMap es : closed (buildMap es).
Proof.
  unfold buildMap.
  apply (closed_foldl (λ k, ((k.1, k.2), (k.1, k.2 + 1)))).
  apply (closed_foldl (λ k, ((k.1, k.2), (k.1 + 1, k.2)))).
  intros k es' e Hin. inversion Hin.
Qed.
(** ** ContourTracer: the walks *)

Lemma getEdges_in k m e : e ∈ getEdges k m → ∃ es, (k, es) ∈ m ∧ e ∈ es.
Proof.
  induction m as [|[k' es'] m IH]; simpl; [intros H; inversion H|].
  destruct (bool_decide (k' = k)) eqn:E.
  - apply bool_decide_eq_true in E as ->. intros H. exists es'. split; [left|assumption].
  - intros H. destruct (IH H) as (es & Hin & He). exists es. split; [right|]; assumption.
Qed.

Lemma candidate_end current e k : candidate current e = Some k → k = p1 e ∨ k = p2 e.
Proof.
  unfold candidate. destruct (bool_decide (p2 e = current)); [intros [= <-]; tauto|].
  destruct (bool_decide (p1 e = current)); [intros [= <-]; tauto|discriminate].
Qed.

Lemma nextPoint_Some es current visited k :
  nextPoint es current visited = Some k →
  (k ∉ visited) ∧ ∃ e, e ∈ es ∧ (k = p1 e ∨ k = p2 e).
Proof.
  induction es as [|e es IH]; simpl; [discriminate|].
  assert (Hrec : nextPoint es current visited = Some k →
                 (k ∉ visited) ∧ ∃ e', e' ∈ e :: es ∧ (k = p1 e' ∨ k = p2 e')).
  { intros H. destruct (IH H) as (Hn & e' & He' & Hk). split; [assumption|].
    exists e'. split; [right|]; assumption. }
  destruct (candidate current e) as [c|] eqn:Ec; [|exact Hrec].
  destruct (bool_decide (c ∈ visited)) eqn:Ev; [exact Hrec|].
  intros [= ->]. apply bool_decide_eq_false in Ev. split; [assumption|].
  exists e. split; [left|]. eapply candidate_end. exact Ec.
Qed.

(** A step of the walk lands on a key not visited before. *)
Lemma nextPoint_key m current visited k :
  closed m → nextPoint (getEdges current m) current visited = Some k →
  (k ∉ visited) ∧ k ∈ keys m.
Proof.
  intros Hc H. apply nextPoint_Some in H as (Hn & e & He & Hk). split; [assumption|].
  apply getEdges_in in He as (es & Hin & He).
  destruct (Hc _ _ _ Hin He) as [H1 H2]. destruct Hk as [-> | ->]; assumption.
Qed.

Lemma NoDup_snoc (l : list Point) x : NoDup l → x ∉ l → NoDup (l ++ [x]).
Proof.
  intros Hnd Hx. apply NoDup_app. split; [assumption|]. split; [|apply NoDup_singleton].
  intros y Hy Hin. apply list_elem_of_singleton in Hin as ->. contradiction.
Qed.

(** The walk ends within its budget: it only steps onto fresh keys. *)
Lemma walk_spec m : closed m → ∀ fuel visited current path,
  NoDup visited → (∀ x, x ∈ visited → x ∈ keys m) →
  (length (keys m) ≤ fuel + length visited)%nat →
  ∃ ext, walk fuel m visited current path = Ok (path ++ ext, visited ++ ext) ∧
         NoDup (visited ++ ext) ∧ (∀ x, x ∈ visited ++ ext → x ∈ keys m).
Proof.
  intros Hc fuel. induction fuel as [|fuel IH]; intros visited current path Hnd Hsub Hfuel.
  - simpl. destruct (nextPoint _ _ _) as [next|] eqn:En.
    + exfalso. apply (nextPoint_key m current visited next Hc) in En as [Hfresh Hkey].
      assert (Hle : (length (visited ++ [next]) ≤ length (keys m))%nat).
      { apply submseteq_length, NoDup_submseteq; [apply NoDup_snoc; assumption|].
        intros x Hx. apply elem_of_app in Hx as [Hx|Hx]; [auto|].
        apply list_elem_of_singleton in Hx as ->. assumption. }
      rewrite length_app in Hle. simpl in Hle. lia.
    + exists []. rewrite !app_nil_r. auto.
  - simpl. destruct (nextPoint _ _ _) as [next|] eqn:En.
    + apply (nextPoint_key m current visited next Hc) in En as [Hfresh Hkey].
      destruct (IH (visited ++ [next]) next (path ++ [next])) as (ext & E & Hnd' & Hsub').
      * apply NoDup_snoc; assumption.
      * intros x Hx. apply elem_of_app in Hx as [Hx|Hx]; [auto|].
        apply list_elem_of_singleton in Hx as ->. assumption.
      * rewrite length_app. simpl. lia.
      * exists (next :: ext). rewrite E.
        rewrite <- !app_assoc in *. simpl in *. auto.
    + exists []. rewrite !app_nil_r. auto.
Qed.

Lemma traceFrom_spec m start st :
  closed m → start ∈ keys m → traced m st →
  ∃ st', traceFrom m start st = Ok st' ∧ traced m st'.
Proof.
  intros Hc Hstart (Hnd & Hsub & Hndp & Hin & Hlen). unfold traceFrom.
  destruct (bool_decide (start ∈ st.1)) eqn:Ev.
  { exists st. split; [reflexivity|]. repeat split; assumption. }
  apply bool_decide_eq_false in Ev.
  destruct (walk_spec m Hc (length m) (st.1 ++ [start]) start [start])
    as (ext & E & Hnd' & Hsub').
  - apply NoDup_snoc; assumption.
  - intros x Hx. apply elem_of_app in Hx as [Hx|Hx]; [auto|].
    apply list_elem_of_singleton in Hx as ->. assumption.
  - unfold keys. rewrite length_fmap, length_app. lia.
  - rewrite E. simpl. rewrite <- app_assoc in Hnd', Hsub'. simpl in Hnd', Hsub'.
    apply NoDup_app in Hnd' as (_ & Hdisj & Hndpath).
    assert (Hvis : ∀ x, x ∈ st.1 → x ∈ (st.1 ++ [start]) ++ ext).
    { intros x Hx. rewrite <- app_assoc. apply elem_of_app. left. assumption. }
    assert (Hnd' : NoDup ((st.1 ++ [start]) ++ ext)).
    { rewrite <- app_assoc. apply NoDup_app. repeat split; assumption. }
    assert (Hsub'' : ∀ x, x ∈ (st.1 ++ [start]) ++ ext → x ∈ keys m).
    { intros x Hx. apply Hsub'. rewrite <- app_assoc in Hx. exact Hx. }
    destruct (decide (1 < len (start :: ext))) as [Hl|Hl].
    + eexists. split; [reflexivity|]. unfold traced. simpl.
      split; [assumption|]. split; [assumption|].
      rewrite concat_app. simpl. rewrite app_nil_r.
      assert (Hsp : ∀ x, x ∈ simplifyPath (start :: ext) → x ∈ start :: ext).
      { intros x Hx. eapply elem_of_sublist; [exact Hx|apply simplifyPath_sublist]. }
      split; [|split].
      * apply NoDup_app. split; [assumption|]. split.
        -- intros x Hx Hx'. apply (Hdisj x); [apply Hin; assumption|apply Hsp; assumption].
        -- eapply sublist_NoDup; [exact Hndpath|apply simplifyPath_sublist].
      * intros x Hx. apply elem_of_app in Hx as [Hx|Hx]; [apply Hvis, Hin; assumption|].
        rewrite <- app_assoc. apply elem_of_app. right. apply Hsp. assumption.
      * apply Forall_app. split; [assumption|]. constructor; [|constructor].
        apply len_simplifyPath. lia.
    + eexists. split; [reflexivity|]. unfold traced. simpl.
      split; [assumption|]. split; [assumption|].
      split; [assumption|]. split; [|assumption].
      intros x Hx. apply Hvis, Hin. assumption.
Qed.

Lemma tracePaths_spec m :
  closed m →
  ∃ paths, tracePaths m = Ok paths ∧
           NoDup (concat paths) ∧ Forall (λ path, 2 ≤ len path) paths.
Proof.
  intros Hc. unfold tracePaths.
  destruct (forEach_inv (traceFrom m) (traced m) (keys m) ([], [])) as (st & E & Ht).
  - unfold traced. simpl. repeat split; try constructor; intros x Hx; inversion Hx.
  - intros k st Hk Hst. apply traceFrom_spec; assumption.
  - exists st.2. rewrite E. split; [reflexivity|].
    destruct Ht as (_ & _ & Hnd & _ & Hlen). split; assumption.
Qed.

(** On well-formed grids the tracer returns, and its paths share no point
    and have two points or more. *)
Lemma trace_spec stitchGrid backgroundGrid width height :
  wf_grid stitchGrid width height → wf_grid backgroundGrid width height →
  ∃ paths, traceAndSimplifyContours stitchGrid backgroundGrid width height = Ok paths ∧
           NoDup (concat paths) ∧ Forall (λ path, 2 ≤ len path) paths.
Proof.
  intros Hs Hb. unfold traceAndSimplifyContours.
  destruct (boundaryEdges_spec _ _ _ _ Hs Hb) as (es & E & _). rewrite E. simpl.
  apply tracePaths_spec, closed_buildMap.
Qed.

Lemma elem_of_concat (ls : list (list Point)) x :
  x ∈ concat ls ↔ ∃ l, l ∈ ls ∧ x ∈ l.
Proof.
  rewrite list_elem_of_In, in_concat.
  split; intros (l & H1 & H2); exists l; split; apply list_elem_of_In; assumption.
Qed.

(** C9: simplification never takes a path below two points, and on every
    occupancy grid and background mask the tracer returns, and every path
    it returns has at least two points. *)
Theorem traced_paths_length :
  (∀ path, 2 ≤ len path → 2 ≤ len (simplifyPath path)) ∧
  (∀ stitchGrid backgroundGrid width height,
      wf_grid stitchGrid width height → wf_grid backgroundGrid width height →
      ∃ paths,
        traceAndSimplifyContours stitchGrid backgroundGrid width height = Ok paths ∧
        ∀ path, path ∈ paths → 2 ≤ len path).
Proof.
  split; [exact len_simplifyPath|].
  intros stitchGrid backgroundGrid width height Hs Hb.
  destruct (trace_spec _ _ _ _ Hs Hb) as (paths & E & _ & Hlen).
  exists paths. split; [assumption|]. apply Forall_forall. assumption.
Qed.

(** C10: on every occupancy grid and background mask the tracer returns
    paths in which every point occurs at most once over the whole output:
    no path repeats a point, its starting point included, and two
    different paths share none. *)
Theorem traced_paths_disjoint stitchGrid backgroundGrid width height :
  wf_grid stitchGrid width height → wf_grid backgroundGrid width height →
  ∃ paths, traceAndSimplifyContours stitchGrid backgroundGrid width height = Ok paths ∧
           NoDup (concat paths) ∧
           (∀ path, path ∈ paths → NoDup path) ∧
           (∀ first rest, first :: rest ∈ paths → first ∉ rest) ∧
           (∀ i j p q x, paths !! i = Some p → paths !! j = Some q →
                         x ∈ p → x ∈ q → i = j).
Proof.
  intros Hs Hb. destruct (trace_spec _ _ _ _ Hs Hb) as (paths & E & Hnd & _).
  exists paths. split; [assumption|]. split; [assumption|].
  assert (Hp : ∀ path, path ∈ paths → NoDup path).
  { clear E. induction paths as [|p paths IH]; intros path Hin; [inversion Hin|].
    simpl in Hnd. apply NoDup_app in Hnd as (H1 & _ & H2).
    apply elem_of_cons in Hin as [->|Hin]; [assumption|]. apply IH; assumption. }
  split; [exact Hp|]. split.
  - intros first rest Hin. apply Hp in Hin. apply NoDup_cons in Hin. tauto.
  - clear E Hp. induction paths as [|p0 paths IH]; intros i j p q x Hi Hj Hxp Hxq;
      [rewrite lookup_nil in Hi; discriminate|].
    simpl in Hnd. apply NoDup_app in Hnd as (H1 & Hdisj & H2).
    assert (Hcat : ∀ k r, paths !! k = Some r → x ∈ r → x ∈ concat paths).
    { intros k r Hk Hr. apply elem_of_concat. exists r. split; [|assumption].
      apply list_elem_of_lookup. eauto. }
    destruct i as [|i], j as [|j]; simpl in Hi, Hj.
    + reflexivity.
    + injection Hi as ->. exfalso. apply (Hdisj x Hxp). eapply Hcat; eassumption.
    + injection Hj as ->. exfalso. apply (Hdisj x Hxq). eapply Hcat; eassumption.
    + f_equal. eapply IH; eassumption.
Qed.

Lemma traced_paths_length_witness :
  ∃ paths,
    traceAndSimplifyContours ring5 (replicate 5 (replicate 5 false)) 5 5 = Ok paths ∧
    ∀ path, path ∈ paths → 2 ≤ len path.
Proof.
  apply (proj2 traced_paths_length ring5 (replicate 5 (replicate 5 false)) 5 5);
    (split; [lia|]; split; [lia|]; split; [reflexivity|]; repeat constructor).
Defined.

Lemma traced_paths_disjoint_witness :
  ∃ paths,
    traceAndSimplifyContours dot3
      [[true; true; true]; [true; false; true]; [true; true; true]] 3 3 = Ok paths ∧
    NoDup (concat paths).
Proof.
  destruct (traced_paths_disjoint dot3
              [[true; true; true]; [true; false; true]; [true; true; true]] 3 3)
    as (paths & E & Hnd & _);
    try (split; [lia|]; split; [lia|]; split; [reflexivity|]; repeat constructor).
  exists paths. split; assumption.
Defined.
(** ** BackgroundResolver *)

Lemma at_insert {A : Type} (l : list A) (i j : Z) (v : A) :
  0 ≤ i < len l →
  at_ (<[Z.to_nat i := v]> l) j = if decide (j = i) then Some v else at_ l j.
Proof.
  intros Hi. unfold at_, len in *. destruct (decide (j = i)) as [->|Hne].
  - destruct (decide _); [|lia]. apply list_lookup_insert_eq. lia.
  - destruct (decide _); [|reflexivity]. apply list_lookup_insert_ne. lia.
Qed.

Lemma at_store row x x' :
  0 ≤ x →
  default false (at_ (store row x true) x')
  = if decide (x' = x) then true else default false (at_ row x').
Proof.
  intros Hx. unfold store. destruct (decide (x < 0)); [lia|].
  destruct (decide (Z.to_nat x < length row)%nat) as [Hin|Hout].
  - rewrite at_insert by (unfold len; lia). destruct (decide _); reflexivity.
  - unfold at_. destruct (decide (x' = x)) as [->|Hne].
    + destruct (decide _); [|lia].
      rewrite lookup_app_r by lia. rewrite lookup_app_r by (rewrite length_replicate; lia).
      rewrite length_replicate. replace (_ - _ - _)%nat with 0%nat by lia. reflexivity.
    + destruct (decide _); [|reflexivity].
      destruct (decide (Z.to_nat x' < length row)%nat) as [Hl|Hl].
      * rewrite lookup_app_l by lia. reflexivity.
      * rewrite (lookup_ge_None_2 row) by lia. rewrite lookup_app_r by lia.
        destruct (decide (Z.to_nat x' - length row < Z.to_nat x - length row)%nat).
        -- rewrite lookup_app_l by (rewrite length_replicate; lia).
           rewrite lookup_replicate_2 by lia. reflexivity.
        -- rewrite lookup_app_r by (rewrite length_replicate; lia).
           rewrite length_replicate.
           destruct (_ - _ - _)%nat eqn:E; [lia|]. reflexivity.
Qed.

Lemma length_store row x v :
  (Z.to_nat x < length row)%nat → length (store row x v) = length row.
Proof.
  intros H. unfold store. destruct (decide _); [reflexivity|].
  destruct (decide _); [apply length_insert|lia].
Qed.

(** [g[y][x] = true] on an existing row marks that cell and no other. *)
Lemma mark_read g y x row :
  at_ g y = Some row → 0 ≤ x →
  ∃ g', mark g y x = Ok g' ∧ g' = <[Z.to_nat y := store row x true]> g ∧
        ∀ y' x', read g' y' x'
                 = if decide (y' = y ∧ x' = x) then Ok true else read g y' x'.
Proof.
  intros Hrow Hx. unfold mark. rewrite Hrow. eexists. split; [reflexivity|].
  split; [reflexivity|]. intros y' x'. unfold read.
  assert (Hy : 0 ≤ y < len g).
  { unfold at_, len in *. destruct (decide _); [|discriminate].
    apply lookup_lt_Some in Hrow. lia. }
  rewrite at_insert by assumption.
  destruct (decide (y' = y)) as [->|Hne].
  - rewrite Hrow, at_store by assumption.
    destruct (decide (x' = x)) as [->|Hne'].
    + destruct (decide _); [reflexivity|tauto].
    + destruct (decide _); [tauto|reflexivity].
  - destruct (decide _); [tauto|reflexivity].
Qed.
Lemma unmarked_row (row : list bool) (x : nat) :
  row !! x = Some false →
  (length (filter (λ b, b = false) (<[x := true]> row)) + 1
   = length (filter (λ b, b = false) row))%nat.
Proof.
  intros Hx. rewrite insert_take_drop by (eapply lookup_lt_Some; eassumption).
  pose proof (take_drop_middle row x false Hx) as E.
  set (l1 := take x row) in *. set (l2 := drop (S x) row) in *. rewrite <- E.
  rewrite !filter_app, !length_app, !filter_cons.
  destruct (decide (true = false)) as [|_]; [discriminate|].
  destruct (decide (false = false)) as [_|]; [|contradiction].
  simpl. lia.
Qed.

Lemma unmarked_insert (g : Grid) (y x : nat) row :
  g !! y = Some row → row !! x = Some false →
  (unmarked (<[y := <[x := true]> row]> g) + 1 = unmarked g)%nat.
Proof.
  intros Hy Hx. unfold unmarked.
  rewrite insert_take_drop by (eapply lookup_lt_Some; eassumption).
  pose proof (take_drop_middle g y row Hy) as E.
  set (g1 := take y g) in *. set (g2 := drop (S y) g) in *. rewrite <- E.
  rewrite !concat_app, !concat_cons, !filter_app, !length_app.
  pose proof (unmarked_row row x Hx). lia.
Qed.

Section Flood.
Variable stitchGrid : Grid.
Variables width height : Z.
Hypothesis stitch_wf : wf_grid stitchGrid width height.

Let flooding := flooding stitchGrid width height.
Let reachable := reachable stitchGrid width height.

Lemma flooding_row st y :
  flooding st → 0 ≤ y < height →
  ∃ row, at_ st.1 y = Some row ∧ (0 < width → length row = Z.to_nat width).
Proof.
  intros (Hlen & Hrows & _) Hy.
  destruct (at_Some st.1 y) as [row E]; [unfold len; lia|].
  exists row. split; [assumption|].
  unfold at_ in E. destruct (decide _); [|discriminate].
  rewrite Forall_forall in Hrows. apply Hrows. apply list_elem_of_lookup. eauto.
Qed.

(** Marking and queueing an unoccupied cell that is reachable (or lies
    outside a grid without columns) keeps the invariant. *)
Lemma flooding_mark st y x :
  flooding st → 0 ≤ y < height → 0 ≤ x →
  (0 < width → x < width) →
  read stitchGrid y x = Ok false →
  (0 < width → reachable (y, x)) →
  ∃ bg, mark st.1 y x = Ok bg ∧ flooding (bg, st.2 ++ [(y, x)]) ∧
        (0 ≤ x < width → read st.1 y x = Ok false →
         budget (bg, st.2 ++ [(y, x)]) = budget st).
Proof.
  intros Hfl Hy Hx Hxw Hfree Hreach.
  destruct (flooding_row st y Hfl Hy) as (row & Hrow & Hrowlen).
  destruct (mark_read st.1 y x row Hrow Hx) as (bg & E & -> & Hread).
  destruct Hfl as (Hlen & Hrows & Hsound & Hqueue).
  eexists. split; [exact E|]. split; [split; [|split; [|split]]|]; simpl.
  - rewrite length_insert. assumption.
  - apply Forall_insert; [assumption|]. intros Hw.
    rewrite length_store; [auto|]. rewrite (Hrowlen Hw). lia.
  - intros y' x' Hy' Hx'. rewrite Hread. destruct (decide _) as [[-> ->]|_].
    + intros _. split; [assumption|]. apply Hreach. lia.
    + apply Hsound; assumption.
  - apply Forall_app. split; [assumption|]. constructor; [assumption|constructor].
  - intros Hxin Hfalse. unfold budget. simpl. rewrite length_app. simpl.
    unfold store. destruct (decide (x < 0)); [lia|].
    destruct (decide _) as [_|Hout]; [|rewrite Hrowlen in Hout; lia].
    unfold read in Hfalse. rewrite Hrow in Hfalse.
    unfold at_ in Hrow, Hfalse. destruct (decide (0 ≤ y)); [|lia].
    destruct (decide (0 ≤ x)); [|lia].
    destruct (row !! Z.to_nat x) as [b|] eqn:Eb.
    2:{ apply lookup_ge_None in Eb. rewrite Hrowlen in Eb; lia. }
    simpl in Hfalse. injection Hfalse as ->.
    pose proof (unmarked_insert st.1 _ _ row Hrow Eb). lia.
Qed.

Lemma seed_spec st y x :
  flooding st → 0 ≤ y < height → 0 ≤ x → (0 < width → x < width) →
  (0 < width → border width height (y, x)) →
  ∃ st', seed stitchGrid y x st = Ok st' ∧ flooding st'.
Proof.
  intros Hfl Hy Hx Hxw Hb. unfold seed.
  destruct (read_ok stitchGrid width height y x stitch_wf Hy) as [occ Eocc].
  rewrite Eocc. simpl. destruct occ; [exists st; auto|].
  destruct (flooding_mark st y x Hfl Hy Hx Hxw Eocc) as (bg & E & Hfl' & _).
  { intros Hw. apply reach_border; [split; simpl; lia|auto|exact Eocc]. }
  rewrite E. simpl. eauto.
Qed.

Lemma seedRow_spec st y :
  flooding st → 0 ≤ y < height →
  ∃ st', seedRow stitchGrid width y st = Ok st' ∧ flooding st'.
Proof.
  intros Hfl Hy. unfold seedRow.
  destruct (seed_spec st y 0 Hfl Hy) as (st1 & E1 & H1); try lia.
  { intros _. right. right. left. reflexivity. }
  rewrite E1. simpl. destruct (decide (1 < width)); [|eauto].
  apply seed_spec; try assumption; try lia.
  intros _. right. right. right. reflexivity.
Qed.

Lemma seedColumn_spec st x :
  flooding st → 0 < height → 0 ≤ x < width →
  ∃ st', seedColumn stitchGrid height x st = Ok st' ∧ flooding st'.
Proof.
  intros Hfl Hh Hx. unfold seedColumn.
  destruct (seed_spec st 0 x Hfl) as (st1 & E1 & H1); try lia.
  { intros _. left. reflexivity. }
  rewrite E1. simpl. destruct (decide (1 < height)); [|eauto].
  apply seed_spec; try assumption; try lia.
  intros _. right. left. reflexivity.
Qed.

Lemma visit_spec c n st :
  flooding st → (0 < width → reachable c) → adjacent c n →
  ∃ st', visit stitchGrid width height n st = Ok st' ∧ flooding st' ∧ budget st' = budget st.
Proof.
  intros Hfl Hc Hadj. unfold visit. destruct n as [ny nx].
  destruct (decide _) as [Hin|]; [|eauto].
  destruct (flooding_row st ny Hfl) as (row & Hrow & _); [lia|].
  destruct (read st.1 ny nx) as [b| |] eqn:Eb;
    [|unfold read in Eb; rewrite Hrow in Eb; discriminate..].
  simpl. destruct b; [eauto|].
  destruct (read_ok stitchGrid width height ny nx stitch_wf) as [s Es]; [lia|].
  rewrite Es. simpl. destruct s; [eauto|].
  assert (Hn : 0 < width → reachable (ny, nx)).
  { intros Hw. apply (reach_step _ _ _ c); [exact (Hc Hw)|assumption|split; simpl; lia|exact Es]. }
  destruct (flooding_mark st ny nx Hfl) as (bg & E & Hfl' & Hbudget); try lia; try assumption.
  rewrite E. simpl. eexists. split; [reflexivity|]. split; [assumption|].
  apply Hbudget; [lia|assumption].
Qed.

Lemma adjacent_neighbors c n : n ∈ neighbors c → adjacent c n.
Proof.
  destruct c as [y x]. unfold neighbors, adjacent. rewrite !elem_of_cons.
  intros [->|[->|[->|[->|H]]]]; simpl; [tauto..|inversion H].
Qed.

(** The flood fill ends within its budget and keeps the invariant. *)
Lemma flood_spec fuel : ∀ st,
  flooding st → (budget st ≤ fuel)%nat →
  ∃ bg, flood fuel stitchGrid width height st = Ok bg ∧ flooding (bg, []).
Proof.
  induction fuel as [|fuel IH]; intros [bg queue] Hfl Hb.
  - destruct queue as [|c queue]; [exists bg; split; [reflexivity|exact Hfl]|].
    unfold budget in Hb. simpl in Hb. lia.
  - destruct queue as [|c queue]; [exists bg; split; [reflexivity|exact Hfl]|].
    simpl.
    assert (Hc : 0 < width → reachable c).
    { destruct Hfl as (_ & _ & _ & Hq). simpl in Hq.
      apply Forall_cons in Hq as [Hq _]. exact Hq. }
    assert (Hfl0 : flooding (bg, queue)).
    { destruct Hfl as (H1 & H2 & H3 & Hq). simpl in *.
      apply Forall_cons in Hq as [_ Hq]. split; [|split; [|split]]; assumption. }
    destruct (forEach_inv (visit stitchGrid width height)
                (λ st, flooding st ∧ budget st = budget (bg, queue))
                (neighbors c) (bg, queue)) as (st' & E & Hfl' & Hb').
    + split; [assumption|reflexivity].
    + intros n st Hn [Hst Hbst].
      destruct (visit_spec c n st Hst Hc (adjacent_neighbors c n Hn)) as (st' & E & H1 & H2).
      exists st'. split; [assumption|]. split; [assumption|congruence].
    + rewrite E. simpl. apply IH; [assumption|].
      rewrite Hb'. unfold budget in *. simpl in *. lia.
Qed.
End Flood.
Lemma read_replicate (width height y x : Z) :
  0 ≤ y < height →
  read (replicate (Z.to_nat height) (replicate (Z.to_nat width) false)) y x = Ok false.
Proof.
  intros Hy. unfold read, at_. destruct (decide _); [|lia].
  rewrite lookup_replicate_2 by lia.
  destruct (decide _); [|reflexivity].
  destruct (replicate _ _ !! _) as [b|] eqn:E; [|reflexivity].
  apply lookup_replicate in E as [-> _]. reflexivity.
Qed.

(** On a grid with at least one row the flood fill returns, and its mask
    satisfies the invariant with an empty queue. *)
Lemma getBackgroundGrid_spec stitchGrid width height :
  wf_grid stitchGrid width height → 0 < height →
  ∃ bg, getBackgroundGrid stitchGrid width height = Ok bg ∧
        flooding stitchGrid width height (bg, []).
Proof.
  intros Hwf Hh. unfold getBackgroundGrid, newGrid.
  pose proof Hwf as (Hw & _). destruct (decide _); [lia|]. simpl.
  destruct (forEach_inv (seedRow stitchGrid width) (flooding stitchGrid width height)
              (seqZ 0 height)
              (replicate (Z.to_nat height) (replicate (Z.to_nat width) false), []))
    as (st1 & E1 & H1).
  { split; [|split; [|split]]; simpl.
    - apply length_replicate.
    - apply Forall_replicate. intros _. apply length_replicate.
    - intros y x Hy Hx. rewrite read_replicate by assumption. discriminate.
    - constructor. }
  { intros y st Hy Hst. apply elem_of_seqZ in Hy. apply seedRow_spec; [assumption..|lia]. }
  rewrite E1. simpl.
  destruct (forEach_inv (seedColumn stitchGrid height) (flooding stitchGrid width height)
              (seqZ 0 width) st1) as (st2 & E2 & H2); [assumption| |].
  { intros x st Hx Hst. apply elem_of_seqZ in Hx. apply seedColumn_spec; [assumption..|lia]. }
  rewrite E2. simpl. apply flood_spec; [assumption|assumption|reflexivity].
Qed.

Lemma flooding_wf stitchGrid width height bg :
  flooding stitchGrid width height (bg, []) → 0 < width → 0 ≤ height →
  wf_grid bg width height.
Proof.
  intros (Hlen & Hrows & _) Hw Hh. simpl in *. split; [lia|]. split; [lia|].
  split; [assumption|]. eapply Forall_impl; [exact Hrows|]. simpl. auto.
Qed.

(** The mask is false on occupied cells and on unoccupied cells that no
    4-connected path of unoccupied cells joins to the border. *)
Lemma flooding_sound stitchGrid width height bg y x :
  flooding stitchGrid width height (bg, []) →
  0 ≤ y < height → 0 ≤ x < width →
  (read stitchGrid y x = Ok true → read bg y x = Ok false) ∧
  (¬ reachable stitchGrid width height (y, x) → read bg y x = Ok false).
Proof.
  intros Hfl Hy Hx.
  destruct (flooding_row stitchGrid width height (bg, []) y Hfl Hy) as (row & Hrow & _).
  destruct Hfl as (_ & _ & Hsound & _). specialize (Hsound y x Hy Hx).
  simpl in *. unfold read in *. rewrite Hrow in *.
  destruct (default false (at_ row x)); [|tauto].
  destruct (Hsound eq_refl) as [Hfree Hreach]. split; [congruence|tauto].
Qed.

(** C1: on every occupancy grid the mask that the flood fill returns is
    false at every occupied cell, and false at every unoccupied cell that
    no 4-connected path of unoccupied cells joins to a border cell; and the
    flood fill does return a mask as soon as the grid has a row. *)
Theorem background_mask_sound stitchGrid width height :
  wf_grid stitchGrid width height →
  (0 < height → ∃ bg, getBackgroundGrid stitchGrid width height = Ok bg) ∧
  ∀ bg, getBackgroundGrid stitchGrid width height = Ok bg →
        ∀ y x, 0 ≤ y < height → 0 ≤ x < width →
               (read stitchGrid y x = Ok true → read bg y x = Ok false) ∧
               (read stitchGrid y x = Ok false →
                ¬ reachable stitchGrid width height (y, x) → read bg y x = Ok false).
Proof.
  intros Hwf. split.
  - intros Hh.
    destruct (getBackgroundGrid_spec stitchGrid width height Hwf Hh) as (bg & E & _).
    exists bg. exact E.
  - intros bg E y x Hy Hx.
    destruct (getBackgroundGrid_spec stitchGrid width height Hwf) as (bg' & E' & Hfl); [lia|].
    assert (bg' = bg) as -> by congruence.
    destruct (flooding_sound stitchGrid width height bg y x Hfl Hy Hx) as [H1 H2].
    split; [assumption|]. intros _. assumption.
Qed.

Lemma background_mask_sound_witness :
  (∃ bg, getBackgroundGrid ring5 5 5 = Ok bg) ∧
  ∀ bg, getBackgroundGrid ring5 5 5 = Ok bg → read bg 0 0 = Ok false.
Proof.
  assert (Hwf : wf_grid ring5 5 5).
  { split; [lia|]. split; [lia|]. split; [reflexivity|]. repeat constructor. }
  destruct (background_mask_sound ring5 5 5 Hwf) as [Hex Hmask].
  split; [apply Hex; lia|].
  intros bg E. destruct (Hmask bg E 0 0) as [H _]; [lia|lia|].
  apply H. reflexivity.
Defined.

(** ** ContourTracer: which sides are boundary edges *)

Lemma boundary_sides stitchGrid backgroundGrid width height es :
  (∀ horizontal k,
      inEdges es horizontal k ↔
      ∃ y x, 0 ≤ y < height ∧ 0 ≤ x < width ∧
             selects stitchGrid backgroundGrid width height y x horizontal k) →
  (∀ y x, 0 ≤ y < height → 0 ≤ x < width →
          read stitchGrid y x = Ok true → read backgroundGrid y x = Ok false) →
  ∀ y x, 0 ≤ y < height → 0 ≤ x < width → read stitchGrid y x = Ok true →
    ((x, y) ∈ es.1 ↔ faces backgroundGrid width height (y - 1, x)) ∧
    ((x, y + 1) ∈ es.1 ↔ faces backgroundGrid width height (y + 1, x)) ∧
    ((x, y) ∈ es.2 ↔ faces backgroundGrid width height (y, x - 1)) ∧
    ((x + 1, y) ∈ es.2 ↔ faces backgroundGrid width height (y, x + 1)).
Proof.
  intros Hes Hmask y x Hy Hx Hocc.
  assert (Hno : ∀ y' x', 0 ≤ y' < height → 0 ≤ x' < width →
                         read stitchGrid y' x' = Ok true →
                         read backgroundGrid y' x' = Ok true → False).
  { intros y' x' Hy' Hx' Ho Hb. rewrite (Hmask y' x' Hy' Hx' Ho) in Hb. discriminate. }
  pose proof (Hes true) as Hh. pose proof (Hes false) as Hv. simpl in Hh, Hv.
  unfold faces, inside. simpl.
  split; [|split; [|split]].
  - rewrite Hh. split.
    + intros (y' & x' & Hy' & Hx' & Ho & [[E Hc]|[E Hc]]); injection E as <- E'.
      * subst y'. destruct Hc as [->|Hc]; [left; lia|right; assumption].
      * assert (y' = y - 1) by lia. subst y'. destruct Hc as [Hc|Hc]; [lia|].
        replace (y - 1 + 1) with y in Hc by lia. destruct (Hno y x Hy Hx Hocc Hc).
    + intros Hf. exists y, x. split; [assumption|]. split; [assumption|].
      split; [assumption|]. left. split; [reflexivity|].
      destruct Hf as [Hf|Hf]; [left; lia|right; assumption].
  - rewrite Hh. split.
    + intros (y' & x' & Hy' & Hx' & Ho & [[E Hc]|[E Hc]]); injection E as <- E'.
      * subst y'. destruct Hc as [Hc|Hc]; [lia|].
        replace (y + 1 - 1) with y in Hc by lia. destruct (Hno y x Hy Hx Hocc Hc).
      * assert (y' = y) by lia. subst y'.
        destruct Hc as [->|Hc]; [left; lia|right; assumption].
    + intros Hf. exists y, x. split; [assumption|]. split; [assumption|].
      split; [assumption|]. right. split; [reflexivity|].
      destruct Hf as [Hf|Hf]; [left; lia|right; assumption].
  - rewrite Hv. split.
    + intros (y' & x' & Hy' & Hx' & Ho & [[E Hc]|[E Hc]]); injection E as E' <-.
      * subst x'. destruct Hc as [->|Hc]; [left; lia|right; assumption].
      * assert (x' = x - 1) by lia. subst x'. destruct Hc as [Hc|Hc]; [lia|].
        replace (x - 1 + 1) with x in Hc by lia. destruct (Hno y x Hy Hx Hocc Hc).
    + intros Hf. exists y, x. split; [assumption|]. split; [assumption|].
      split; [assumption|]. left. split; [reflexivity|].
      destruct Hf as [Hf|Hf]; [left; lia|right; assumption].
  - rewrite Hv. split.
    + intros (y' & x' & Hy' & Hx' & Ho & [[E Hc]|[E Hc]]); injection E as E' <-.
      * subst x'. destruct Hc as [Hc|Hc]; [lia|].
        replace (x + 1 - 1) with x in Hc by lia. destruct (Hno y x Hy Hx Hocc Hc).
      * assert (x' = x) by lia. subst x'.
        destruct Hc as [->|Hc]; [left; lia|right; assumption].
    + intros Hf. exists y, x. split; [assumption|]. split; [assumption|].
      split; [assumption|]. right. split; [reflexivity|].
      destruct Hf as [Hf|Hf]; [left; lia|right; assumption].
Qed.

(** C2: with the mask of the flood fill, a side of an occupied cell is in
    the edge sets of the tracer exactly when the cell across it is outside
    the grid or marked in the mask; the mask and the edge sets are
    produced as soon as the grid has a row and a column; and on the 5×5
    ring with the empty 3×3 centre the tracer returns the outer rectangle
    and nothing else. *)
Theorem boundary_edges_face_background :
  (∀ stitchGrid width height,
      wf_grid stitchGrid width height →
      (0 < width → 0 < height →
       ∃ bg es, getBackgroundGrid stitchGrid width height = Ok bg ∧
                boundaryEdges stitchGrid bg width height = Ok es) ∧
      ∀ bg es,
        getBackgroundGrid stitchGrid width height = Ok bg →
        boundaryEdges stitchGrid bg width height = Ok es →
        ∀ y x, 0 ≤ y < height → 0 ≤ x < width → read stitchGrid y x = Ok true →
          ((x, y) ∈ es.1 ↔ faces bg width height (y - 1, x)) ∧
          ((x, y + 1) ∈ es.1 ↔ faces bg width height (y + 1, x)) ∧
          ((x, y) ∈ es.2 ↔ faces bg width height (y, x - 1)) ∧
          ((x + 1, y) ∈ es.2 ↔ faces bg width height (y, x + 1))) ∧
  contours ring5 5 5 = Ok [[(0, 0); (5, 0); (5, 5); (0, 5)]].
Proof.
  split; [|vm_compute; reflexivity].
  intros stitchGrid width height Hwf.
  assert (Hall : 0 < width → 0 < height →
                 ∃ bg es, getBackgroundGrid stitchGrid width height = Ok bg ∧
                          boundaryEdges stitchGrid bg width height = Ok es ∧
                          flooding stitchGrid width height (bg, []) ∧
                          ∀ horizontal k,
                            inEdges es horizontal k ↔
                            ∃ y x, 0 ≤ y < height ∧ 0 ≤ x < width ∧
                                   selects stitchGrid bg width height y x horizontal k).
  { intros Hw Hh.
    destruct (getBackgroundGrid_spec stitchGrid width height Hwf Hh) as (bg & E & Hfl).
    assert (Hbg : wf_grid bg width height) by (eapply flooding_wf; [eassumption|lia|lia]).
    destruct (boundaryEdges_spec stitchGrid bg width height Hwf Hbg) as (es & Ees & Hes).
    exists bg, es. auto. }
  split.
  - intros Hw Hh. destruct (Hall Hw Hh) as (bg & es & E & Ees & _). exists bg, es. auto.
  - intros bg es E Ees y x Hy Hx.
    destruct Hall as (bg' & es' & E' & Ees' & Hfl & Hes); [lia|lia|].
    assert (bg' = bg) as -> by congruence. assert (es' = es) as -> by congruence.
    apply (boundary_sides stitchGrid bg width height es Hes); [|assumption|assumption].
    intros y' x' Hy' Hx'. apply (flooding_sound stitchGrid width height bg y' x' Hfl Hy' Hx').
Qed.

Lemma boundary_edges_face_background_witness :
  ∃ bg es,
    getBackgroundGrid dot3 3 3 = Ok bg ∧ boundaryEdges dot3 bg 3 3 = Ok es ∧
    ((1, 1) ∈ es.1 ↔ faces bg 3 3 (0, 1)).
Proof.
  assert (Hwf : wf_grid dot3 3 3).
  { split; [lia|]. split; [lia|]. split; [reflexivity|]. repeat constructor. }
  destruct (proj1 boundary_edges_face_background dot3 3 3 Hwf) as [Hex Hsides].
  destruct Hex as (bg & es & E & Ees); [lia|lia|].
  exists bg, es. split; [exact E|]. split; [exact Ees|].
  destruct (Hsides bg es E Ees 1 1) as [H _]; [lia|lia|reflexivity|]. exact H.
Defined.
(** ** Quantizer *)

(** What holds for each of the 256 values of a byte holds for every byte. *)
Lemma byte_cases (P : Z → bool) :
  forallb P (seqZ 0 256) = true → ∀ a, 0 ≤ a ≤ 255 → P a = true.
Proof.
  intros H a Ha. rewrite forallb_forall in H. apply H.
  apply list_elem_of_In, elem_of_seqZ. lia.
Qed.

Lemma alpha_test a : 0 ≤ a ≤ 255 → (128 <? Z2F a)%float = bool_decide (128 < a).
Proof.
  intros Ha.
  apply (byte_cases (λ a, bool_decide ((128 <? Z2F a)%float = bool_decide (128 < a))))
    in Ha; [|vm_compute; reflexivity].
  apply bool_decide_eq_true in Ha. exact Ha.
Qed.

Lemma below_threshold T : 0 ≤ T ≤ 255 → (Z2F (T - 1) <? Z2F T)%float = true.
Proof.
  intros HT.
  apply (byte_cases (λ T, (Z2F (T - 1) <? Z2F T)%float)); [vm_compute; reflexivity|exact HT].
Qed.

Lemma at_threshold T : 0 ≤ T ≤ 255 → (Z2F T <? Z2F T)%float = false.
Proof.
  intros HT.
  apply (byte_cases (λ T, negb (Z2F T <? Z2F T)%float)) in HT; [|vm_compute; reflexivity].
  apply negb_true_iff in HT. exact HT.
Qed.

Lemma quantizeCell_spec imageData stitchesX stitchesY threshold y x g :
  length g = Z.to_nat stitchesY →
  Forall (λ row, length row = Z.to_nat stitchesX) g →
  0 ≤ y < stitchesY → 0 ≤ x < stitchesX →
  ∃ g', quantizeCell imageData stitchesX threshold y x g = Ok g' ∧
        (length g' = Z.to_nat stitchesY ∧
         Forall (λ row, length row = Z.to_nat stitchesX) g') ∧
        ∀ c : Cell, read g' c.1 c.2 = Ok true ↔
                    read g c.1 c.2 = Ok true
                    ∨ (dark imageData ((y * stitchesX + x) * 4) threshold = true ∧ c = (y, x)).
Proof.
  intros Hlen Hrows Hy Hx. unfold quantizeCell.
  destruct (dark _ _ _).
  2:{ exists g. split; [reflexivity|]. split; [auto|]. intros c. split; [tauto|].
      intros [H|[H _]]; [assumption|discriminate]. }
  destruct (at_Some g y) as [row Hrow]; [unfold len; lia|].
  assert (Hrl : length row = Z.to_nat stitchesX).
  { unfold at_ in Hrow. destruct (decide _); [|discriminate].
    rewrite Forall_forall in Hrows. apply Hrows. apply list_elem_of_lookup. eauto. }
  destruct (mark_read g y x row Hrow) as (g' & E & -> & Hread); [lia|].
  eexists. split; [exact E|]. split.
  - split; [rewrite length_insert; assumption|].
    apply Forall_insert; [assumption|]. rewrite length_store; [assumption|lia].
  - intros [cy cx]. simpl. rewrite Hread. destruct (decide _) as [[-> ->]|Hne].
    + split; [intros _; right; split; reflexivity|reflexivity].
    + split; [tauto|]. intros [H|[_ H]]; [assumption|]. injection H as -> ->. tauto.
Qed.

(** The sampling loop returns a grid of [stitchesY] rows of [stitchesX]
    cells whose true cells are the dark samples. *)
Lemma quantize_spec imageData stitchesX stitchesY threshold :
  0 ≤ stitchesX →
  ∃ grid, quantize imageData stitchesX stitchesY threshold = Ok grid ∧
          length grid = Z.to_nat stitchesY ∧
          Forall (λ row, length row = Z.to_nat stitchesX) grid ∧
          ∀ y x, 0 ≤ y < stitchesY → 0 ≤ x < stitchesX →
                 read grid y x = Ok (dark imageData ((y * stitchesX + x) * 4) threshold).
Proof.
  intros Hsx. unfold quantize, newGrid. destruct (decide _); [lia|]. simpl.
  set (shape := λ g : Grid, length g = Z.to_nat stitchesY ∧
                            Forall (λ row, length row = Z.to_nat stitchesX) g).
  set (mem := λ (g : Grid) (c : Cell), read g c.1 c.2 = Ok true).
  destruct (forEach_collect
              (λ y, forEach (quantizeCell imageData stitchesX threshold y) (seqZ 0 stitchesX))
              shape mem
              (λ y c, ∃ x, x ∈ seqZ 0 stitchesX ∧
                           dark imageData ((y * stitchesX + x) * 4) threshold = true ∧
                           c = (y, x))
              (seqZ 0 stitchesY))
    with (replicate (Z.to_nat stitchesY) (replicate (Z.to_nat stitchesX) false))
    as (grid & E & [Hlen Hrows] & Hmem).
  { intros y g Hy Hg. apply elem_of_seqZ in Hy.
    apply (forEach_collect (quantizeCell imageData stitchesX threshold y) shape mem
             (λ x c, dark imageData ((y * stitchesX + x) * 4) threshold = true ∧ c = (y, x)));
      [|assumption].
    intros x g0 Hx [Hl Hr]. apply elem_of_seqZ in Hx.
    apply (quantizeCell_spec imageData stitchesX stitchesY); [assumption|assumption|lia|lia]. }
  { split; [apply length_replicate|]. apply Forall_replicate, length_replicate. }
  exists grid. split; [exact E|]. split; [assumption|]. split; [assumption|].
  intros y x Hy Hx.
  destruct (at_Some grid y) as [row Hrow]; [unfold len; lia|].
  pose proof (Hmem (y, x)) as H. unfold mem in H. simpl in H.
  unfold read in *. rewrite Hrow in *.
  destruct (dark imageData ((y * stitchesX + x) * 4) threshold) eqn:Ed.
  - apply H. right. exists y. split; [apply elem_of_seqZ; lia|].
    exists x. split; [apply elem_of_seqZ; lia|]. split; [assumption|reflexivity].
  - destruct (default false (at_ row x)); [|reflexivity].
    destruct (proj1 H eq_refl) as [H0|(y' & _ & x' & _ & Hd & Hc)].
    + destruct (decide (0 ≤ y)); [|lia]. unfold at_ in H0.
      destruct (decide (0 ≤ y)); [|lia].
      rewrite lookup_replicate_2 in H0 by lia.
      destruct (decide (0 ≤ x)); [|lia]. rewrite lookup_replicate_2 in H0 by lia.
      discriminate.
    + injection Hc as <- <-. congruence.
Qed.
(** C5, as stated, fails at the boundary: a mid-grey sample (128, 128, 128)
    with alpha 200 has luminance exactly 128, yet at threshold 128 its cell
    is occupied, because the binary64 sum
    [128 * 0.299 + 128 * 0.587 + 128 * 0.114] is 127.99999999999999. *)
Lemma luminance_at_threshold_occupied :
  quantize [128; 128; 128; 200] 1 1 (Z2F 128) = Ok [[true]] ∧
  read [[true]] 0 0 = Ok true ∧
  (luminance 128 128 128 == inject_Z 128)%Q ∧
  ¬ (128 < 200 ∧ (luminance 128 128 128 < inject_Z 128)%Q).
Proof.
  split; [vm_compute; reflexivity|]. split; [reflexivity|].
  split; [vm_compute; reflexivity|].
  intros [_ H]. vm_compute in H. discriminate.
Qed.

(** C5, amended: the cell of a sample (r, g, b, a) is occupied exactly when
    [a > 128] and the binary64 value of [r * 0.299 + g * 0.587 + b * 0.114]
    is below the threshold.  With alpha 200 and an integer threshold in
    0..255, a sample whose computed value is the threshold minus one is
    occupied, and one whose computed value is the threshold is not. *)
Theorem quantizer_occupancy imageData stitchesX stitchesY threshold :
  0 ≤ stitchesX →
  ∃ grid,
    quantize imageData stitchesX stitchesY threshold = Ok grid ∧
    ∀ y x r g b a,
      0 ≤ y < stitchesY → 0 ≤ x < stitchesX →
      at_ imageData ((y * stitchesX + x) * 4) = Some r →
      at_ imageData ((y * stitchesX + x) * 4 + 1) = Some g →
      at_ imageData ((y * stitchesX + x) * 4 + 2) = Some b →
      at_ imageData ((y * stitchesX + x) * 4 + 3) = Some a →
      0 ≤ a ≤ 255 →
      (read grid y x = Ok true ↔
       128 < a ∧ (gray (Z2F r) (Z2F g) (Z2F b) <? threshold)%float = true) ∧
      (∀ T, 0 ≤ T ≤ 255 → threshold = Z2F T → a = 200 →
            (gray (Z2F r) (Z2F g) (Z2F b) = Z2F (T - 1) → read grid y x = Ok true) ∧
            (gray (Z2F r) (Z2F g) (Z2F b) = Z2F T → read grid y x = Ok false)).
Proof.
  intros Hsx.
  destruct (quantize_spec imageData stitchesX stitchesY threshold Hsx)
    as (grid & E & _ & _ & Hread).
  exists grid. split; [exact E|].
  intros y x r g b a Hy Hx Hr Hg Hb Ha Hbyte.
  rewrite (Hread y x Hy Hx). unfold dark, channel. rewrite Hr, Hg, Hb, Ha.
  rewrite (alpha_test a Hbyte). split.
  - split.
    + intros [= H]. apply andb_true_iff in H as [H1 H2].
      apply bool_decide_eq_true in H1. tauto.
    + intros [H1 H2]. rewrite H2, bool_decide_true by assumption. reflexivity.
  - intros T HT -> ->. split; intros ->.
    + rewrite (below_threshold T HT). reflexivity.
    + rewrite (at_threshold T HT). reflexivity.
Qed.

Lemma quantizer_occupancy_witness :
  (∃ grid, quantize [100; 100; 100; 200] 1 1 (Z2F 101) = Ok grid ∧
           read grid 0 0 = Ok true) ∧
  (∃ grid, quantize [100; 100; 100; 200] 1 1 (Z2F 100) = Ok grid ∧
           read grid 0 0 = Ok false).
Proof.
  split.
  - destruct (quantizer_occupancy [100; 100; 100; 200] 1 1 (Z2F 101))
      as (grid & E & H); [lia|].
    exists grid. split; [exact E|].
    destruct (H 0 0 100 100 100 200) as [_ Hb]; try lia; try reflexivity.
    destruct (Hb 101) as [Hocc _]; try lia; try reflexivity.
    apply Hocc. vm_compute. reflexivity.
  - destruct (quantizer_occupancy [100; 100; 100; 200] 1 1 (Z2F 100))
      as (grid & E & H); [lia|].
    exists grid. split; [exact E|].
    destruct (H 0 0 100 100 100 200) as [_ Hb]; try lia; try reflexivity.
    destruct (Hb 100) as [_ Hfree]; try lia; try reflexivity.
    apply Hfree. vm_compute. reflexivity.
Defined.

(** The height is the floor of a binary64 quotient of a binary64 quotient:
    for a 3×17 image at 21 stitches it is 118, where 21 · 17 / 3 is 119. *)
Example derivedHeight_rounds : derivedHeight 3 17 21 = 118 ∧ (21 * 17) `div` 3 = 119.
Proof. split; vm_compute; reflexivity. Qed.


(** ** Rasterizer and VectorExporter *)

Lemma num_mul a b : num (a * b) = (num a * num b)%Qc.
Proof.
  unfold num, Qcmult. apply Qc_is_canon. cbn [this Q2Qc].
  rewrite !Qred_correct, inject_Z_mult. reflexivity.
Qed.

Lemma num_add a b : num (a + b) = (num a + num b)%Qc.
Proof.
  unfold num, Qcplus. apply Qc_is_canon. cbn [this Q2Qc].
  rewrite !Qred_correct, inject_Z_plus. reflexivity.
Qed.

Lemma num_nonzero a : a ≠ 0 → num a ≠ num 0.
Proof.
  intros Ha H. apply (f_equal this) in H. unfold num in H. simpl in H.
  assert (E : (inject_Z a == inject_Z 0)%Q)
    by (rewrite <- (Qred_correct (inject_Z a)), H; reflexivity).
  apply Ha. unfold Qeq in E. simpl in E. lia.
Qed.

(** A canvas of 10 pixels per stitch has cells of 10 by 10. *)
Lemma cell_size n : 0 < n → (num (10 * n) / num n)%Qc = num 10.
Proof. intros H. rewrite num_mul. field. apply (num_nonzero n). lia. Qed.

Lemma centre x : (num x * num 10 + num 10 / num 2)%Qc = num (10 * x + 5).
Proof.
  rewrite num_add, num_mul.
  assert (E : (num 10 / num 2 = num 5)%Qc) by (apply Qc_is_canon; reflexivity).
  rewrite E. ring.
Qed.

Lemma corner_canvas x :
  (num x * num 10 + (num 10 - num 10 * num 2 / num 3) / num 2)%Qc
  = (num (10 * x + 5) - num 10 / num 3)%Qc.
Proof.
  rewrite num_add, num_mul.
  assert (E : ((num 10 - num 10 * num 2 / num 3) / num 2 = num 5 - num 10 / num 3)%Qc)
    by (apply Qc_is_canon; reflexivity).
  rewrite E. ring.
Qed.

Lemma corner_svg x :
  (num x * num 10 + num 10 / num 2 - num 10 * num 2 / num 3 / num 2)%Qc
  = (num (10 * x + 5) - num 10 / num 3)%Qc.
Proof.
  rewrite centre.
  assert (E : (num 10 * num 2 / num 3 / num 2 = num 10 / num 3)%Qc)
    by (apply Qc_is_canon; reflexivity).
  rewrite E. reflexivity.
Qed.

Lemma side : (num 10 * num 2 / num 3)%Qc = (num 20 / num 3)%Qc.
Proof. apply Qc_is_canon. reflexivity. Qed.

(** A loop whose body appends appends what each pass appends. *)
Lemma forEach_app {I X : Type} (body : I → list X → Res (list X)) (f : I → list X)
    (l : list I) :
  (∀ i s, i ∈ l → body i s = Ok (s ++ f i)) →
  ∀ s, forEach body l s = Ok (s ++ concat (f <$> l)).
Proof.
  induction l as [|i l IH]; intros Hbody s.
  - simpl. rewrite app_nil_r. reflexivity.
  - rewrite fmap_cons. cbn [concat forEach]. rewrite Hbody by left. cbn [bind].
    rewrite IH.
    + rewrite <- app_assoc. reflexivity.
    + intros j t Hj. apply Hbody. right. exact Hj.
Qed.

Lemma omap_concat {A B : Type} (f : A → option B) (ls : list (list A)) :
  omap f (concat ls) = concat ((λ l : list A, omap f l) <$> ls).
Proof.
  induction ls as [|l ls IH]; [reflexivity|].
  rewrite fmap_cons. cbn [concat]. rewrite omap_app, IH. reflexivity.
Qed.

Lemma concat_fmap_ext {A B : Type} (f g : A → list B) (l : list A) :
  (∀ x, x ∈ l → f x = g x) → concat (f <$> l) = concat (g <$> l).
Proof.
  induction l as [|x l IH]; intros H; [reflexivity|].
  rewrite !fmap_cons. cbn [concat]. rewrite (H x) by left. f_equal.
  apply IH. intros y Hy. apply H. right. exact Hy.
Qed.

Lemma concat_fmap_fmap {A B C : Type} (h : B → C) (f : A → list B) (l : list A) :
  h <$> concat (f <$> l) = concat ((λ x, h <$> f x) <$> l).
Proof.
  induction l as [|x l IH]; [reflexivity|].
  rewrite !fmap_cons. cbn [concat]. rewrite fmap_app, IH. reflexivity.
Qed.
(** The outline pipeline returns on a grid with a row and a column, and
    its paths have two points or more. *)
Lemma contours_spec stitchGrid width height :
  wf_grid stitchGrid width height → 0 < width → 0 < height →
  ∃ paths, contours stitchGrid width height = Ok paths ∧
           Forall (λ path, 2 ≤ len path) paths.
Proof.
  intros Hwf Hw Hh. unfold contours.
  destruct (getBackgroundGrid_spec stitchGrid width height Hwf Hh) as (bg & E & Hfl).
  rewrite E. simpl.
  assert (Hbg : wf_grid bg width height) by (eapply flooding_wf; [eassumption|lia|lia]).
  destruct (trace_spec stitchGrid bg width height Hwf Hbg) as (paths & Et & _ & Hlen).
  exists paths. split; assumption.
Qed.

Lemma concat_empty {A B : Type} (l : list A) : concat ((λ _, @nil B) <$> l) = [].
Proof. induction l as [|x l IH]; [reflexivity|]. rewrite fmap_cons. exact IH. Qed.

Section Render.
Variable stitchGrid : Grid.
Variables stitchesX stitchesY : Z.
Variable shape : FillShape.
Variable outlineOffset : Z.
Variable hex : string.
Hypothesis grid_wf : wf_grid stitchGrid stitchesX stitchesY.

(** What the canvas loop draws for one cell. *)
Let cellOps (y x : Z) : list CanvasOp :=
  match read stitchGrid y x with
  | Ok true =>
      match shape with
      | circle => [fillArc (num x * num 10 + num 10 / num 2)%Qc
                           (num y * num 10 + num 10 / num 2)%Qc
                           (num 10 / num 3)%Qc hex]
      | square => [fillRect (num x * num 10 + (num 10 - num 10 * num 2 / num 3) / num 2)%Qc
                            (num y * num 10 + (num 10 - num 10 * num 2 / num 3) / num 2)%Qc
                            (num 10 * num 2 / num 3)%Qc (num 10 * num 2 / num 3)%Qc hex]
      end
  | _ => []
  end.

(** What the document loop emits for one cell. *)
Let cellElements (y x : Z) : list SvgElement :=
  match read stitchGrid y x with
  | Ok true =>
      match shape with
      | circle => [svgCircle (num x * num 10 + num 10 / num 2)%Qc
                             (num y * num 10 + num 10 / num 2)%Qc
                             (num 10 / num 3)%Qc hex]
      | square => [svgRect (num x * num 10 + num 10 / num 2
                            - num 10 * num 2 / num 3 / num 2)%Qc
                           (num y * num 10 + num 10 / num 2
                            - num 10 * num 2 / num 3 / num 2)%Qc
                           (num 10 * num 2 / num 3)%Qc (num 10 * num 2 / num 3)%Qc hex]
      end
  | _ => []
  end.

Let cellFill (y x : Z) : list (Shape * string) :=
  (λ c : Cell, (cellShape shape c.1 c.2, hex))
    <$> match read stitchGrid y x with Ok true => [(y, x)] | _ => [] end.

Lemma fillCell_app y x ops :
  0 ≤ y < stitchesY →
  fillCell stitchGrid (num 10) (num 10) shape hex y x ops = Ok (ops ++ cellOps y x).
Proof.
  intros Hy. unfold fillCell, cellOps.
  destruct (read_ok stitchGrid stitchesX stitchesY y x grid_wf Hy) as [occ ->].
  simpl. destruct occ; [|rewrite app_nil_r; reflexivity].
  destruct shape; reflexivity.
Qed.

Lemma svgCell_app y x els :
  0 ≤ y < stitchesY →
  svgCell stitchGrid (num 10) shape hex y x els = Ok (els ++ cellElements y x).
Proof.
  intros Hy. unfold svgCell, cellElements.
  destruct (read_ok stitchGrid stitchesX stitchesY y x grid_wf Hy) as [occ ->].
  simpl. destruct occ; [|rewrite app_nil_r; reflexivity].
  destruct shape; reflexivity.
Qed.

Lemma canvasFills_cell y x : canvasFills (cellOps y x) = cellFill y x.
Proof.
  unfold cellOps, cellFill. destruct (read stitchGrid y x) as [[|]| |]; try reflexivity.
  unfold cellShape. destruct shape; simpl.
  - rewrite !centre. reflexivity.
  - rewrite !corner_canvas, side. reflexivity.
Qed.

Lemma svgFills_cell y x : svgFills (cellElements y x) = cellFill y x.
Proof.
  unfold cellElements, cellFill. destruct (read stitchGrid y x) as [[|]| |]; try reflexivity.
  unfold cellShape. destruct shape; simpl.
  - rewrite !centre. reflexivity.
  - rewrite !corner_svg, side. reflexivity.
Qed.

Lemma canvasStrokes_cell y x : canvasStrokes (cellOps y x) = [].
Proof.
  unfold cellOps. destruct (read stitchGrid y x) as [[|]| |]; try reflexivity.
  destruct shape; reflexivity.
Qed.

Lemma svgStrokes_cell y x : svgStrokes (cellElements y x) = [].
Proof.
  unfold cellElements. destruct (read stitchGrid y x) as [[|]| |]; try reflexivity.
  destruct shape; reflexivity.
Qed.

(** The fills of all the cells, row by row. *)
Lemma fills_occupied :
  concat ((λ y, concat (cellFill y <$> seqZ 0 stitchesX)) <$> seqZ 0 stitchesY)
  = (λ c : Cell, (cellShape shape c.1 c.2, hex))
      <$> occupiedCells stitchGrid stitchesX stitchesY.
Proof.
  unfold occupiedCells. rewrite concat_fmap_fmap.
  apply concat_fmap_ext. intros y _. rewrite concat_fmap_fmap. reflexivity.
Qed.

Lemma canvas_loops outline :
  forEach (λ y, forEach (fillCell stitchGrid (num 10) (num 10) shape hex y)
                  (seqZ 0 stitchesX))
    (seqZ 0 stitchesY) outline
  = Ok (outline
        ++ concat ((λ y, concat (cellOps y <$> seqZ 0 stitchesX)) <$> seqZ 0 stitchesY)).
Proof.
  apply (forEach_app _ (λ y, concat (cellOps y <$> seqZ 0 stitchesX))).
  intros y s Hy. apply elem_of_seqZ in Hy.
  apply (forEach_app _ (cellOps y)). intros x t _. apply fillCell_app. lia.
Qed.

Lemma svg_loops outline :
  forEach (λ y, forEach (svgCell stitchGrid (num 10) shape hex y) (seqZ 0 stitchesX))
    (seqZ 0 stitchesY) outline
  = Ok (outline
        ++ concat ((λ y, concat (cellElements y <$> seqZ 0 stitchesX))
                     <$> seqZ 0 stitchesY)).
Proof.
  apply (forEach_app _ (λ y, concat (cellElements y <$> seqZ 0 stitchesX))).
  intros y s Hy. apply elem_of_seqZ in Hy.
  apply (forEach_app _ (cellElements y)). intros x t _. apply svgCell_app. lia.
Qed.

Lemma canvasFills_loops :
  canvasFills (concat ((λ y, concat (cellOps y <$> seqZ 0 stitchesX)) <$> seqZ 0 stitchesY))
  = (λ c : Cell, (cellShape shape c.1 c.2, hex))
      <$> occupiedCells stitchGrid stitchesX stitchesY.
Proof.
  rewrite <- fills_occupied. unfold canvasFills. rewrite omap_concat.
  rewrite <- list_fmap_compose. apply concat_fmap_ext. intros y _. simpl.
  rewrite omap_concat, <- list_fmap_compose. apply concat_fmap_ext. intros x _.
  apply canvasFills_cell.
Qed.

Lemma svgFills_loops :
  svgFills (concat ((λ y, concat (cellElements y <$> seqZ 0 stitchesX))
                      <$> seqZ 0 stitchesY))
  = (λ c : Cell, (cellShape shape c.1 c.2, hex))
      <$> occupiedCells stitchGrid stitchesX stitchesY.
Proof.
  rewrite <- fills_occupied. unfold svgFills. rewrite omap_concat.
  rewrite <- list_fmap_compose. apply concat_fmap_ext. intros y _. simpl.
  rewrite omap_concat, <- list_fmap_compose. apply concat_fmap_ext. intros x _.
  apply svgFills_cell.
Qed.

Lemma canvasStrokes_loops :
  canvasStrokes (concat ((λ y, concat (cellOps y <$> seqZ 0 stitchesX))
                           <$> seqZ 0 stitchesY)) = [].
Proof.
  unfold canvasStrokes. rewrite omap_concat, <- list_fmap_compose.
  rewrite <- (concat_empty (seqZ 0 stitchesY)). apply concat_fmap_ext. intros y _. simpl.
  rewrite omap_concat, <- list_fmap_compose.
  rewrite <- (concat_empty (seqZ 0 stitchesX)). apply concat_fmap_ext. intros x _.
  apply canvasStrokes_cell.
Qed.

Lemma svgStrokes_loops :
  svgStrokes (concat ((λ y, concat (cellElements y <$> seqZ 0 stitchesX))
                        <$> seqZ 0 stitchesY)) = [].
Proof.
  unfold svgStrokes. rewrite omap_concat, <- list_fmap_compose.
  rewrite <- (concat_empty (seqZ 0 stitchesY)). apply concat_fmap_ext. intros y _. simpl.
  rewrite omap_concat, <- list_fmap_compose.
  rewrite <- (concat_empty (seqZ 0 stitchesX)). apply concat_fmap_ext. intros x _.
  apply svgStrokes_cell.
Qed.

Lemma canvasStrokes_stroke path c w j m ops :
  canvasStrokes (stroke path c w j m :: ops) = (path, w, j) :: canvasStrokes ops.
Proof. reflexivity. Qed.

Lemma canvasFills_stroke path c w j m ops :
  canvasFills (stroke path c w j m :: ops) = canvasFills ops.
Proof. reflexivity. Qed.

Lemma svgStrokes_path d c w j els :
  svgStrokes (svgPath d c w j :: els) = (d, w, j) :: svgStrokes els.
Proof. reflexivity. Qed.

Lemma svgFills_path d c w j els : svgFills (svgPath d c w j :: els) = svgFills els.
Proof. reflexivity. Qed.

Lemma strokeContours_cons sw sh path paths :
  strokeContours sw sh hex outlineOffset (path :: paths)
  = stroke (path2D sw sh path) hex (num (outlineOffset * 2)) miter (num 4)
      :: strokeContours sw sh hex outlineOffset paths.
Proof. reflexivity. Qed.

Lemma canvas_outline paths :
  Forall (λ path, 2 ≤ len path) paths →
  canvasStrokes (strokeContours (num 10) (num 10) hex outlineOffset paths)
  = (λ path, (scalePath (num 10) (num 10) path, num (2 * outlineOffset), miter)) <$> paths
  ∧ canvasFills (strokeContours (num 10) (num 10) hex outlineOffset paths) = [].
Proof.
  induction 1 as [|path paths Hlen _ [IH1 IH2]]; [split; reflexivity|].
  rewrite strokeContours_cons, canvasStrokes_stroke, canvasFills_stroke, fmap_cons.
  rewrite IH1, IH2. unfold path2D. destruct (decide _); [lia|].
  rewrite (Z.mul_comm 2). split; reflexivity.
Qed.

Lemma svgContours_concat paths : ∀ acc,
  foldl (λ svgElements path,
           if decide (len path < 2) then svgElements
           else svgElements ++ [svgPath (scalePath (num 10) (num 10) path) hex
                                  (num (outlineOffset * 2)) round])
        acc paths
  = acc ++ concat ((λ path, if decide (len path < 2) then []
                            else [svgPath (scalePath (num 10) (num 10) path) hex
                                    (num (outlineOffset * 2)) round]) <$> paths).
Proof.
  induction paths as [|path paths IH]; intros acc; [simpl; rewrite app_nil_r; reflexivity|].
  rewrite fmap_cons. cbn [foldl concat]. rewrite IH.
  destruct (decide _); [reflexivity|]. rewrite <- app_assoc. reflexivity.
Qed.

Lemma svg_outline paths :
  Forall (λ path, 2 ≤ len path) paths →
  svgStrokes (svgContours (num 10) hex outlineOffset paths)
  = (λ path, (scalePath (num 10) (num 10) path, num (2 * outlineOffset), round)) <$> paths
  ∧ svgFills (svgContours (num 10) hex outlineOffset paths) = [].
Proof.
  intros Hlen. unfold svgContours. rewrite svgContours_concat. rewrite app_nil_l.
  induction Hlen as [|path paths Hl _ [IH1 IH2]]; [split; reflexivity|].
  rewrite !fmap_cons. cbn [concat]. destruct (decide _); [lia|].
  cbn [app]. rewrite svgStrokes_path, svgFills_path, IH1, IH2.
  rewrite (Z.mul_comm 2). split; reflexivity.
Qed.
End Render.
(** C7: the exporter does not use the join rule of the canvas.  At 16
    stitches, for a square image whose top left sample alone is dark and an
    outline offset of 1, the canvas strokes the contour with a miter join
    ([ctx.lineJoin = 'miter']) and the document with a round join
    ([stroke-linejoin="round"]). *)
Lemma export_join_differs :
  canvasJoins (drawPattern 320 320 lone16 16 16 circle 1 "#000000") = [miter] ∧
  svgJoins (handleDownloadSvg lone16 16 16 circle 1 "#000000") = [round] ∧
  canvasJoins (drawPattern 320 320 lone16 16 16 circle 1 "#000000")
  ≠ svgJoins (handleDownloadSvg lone16 16 16 circle 1 "#000000").
Proof.
  assert (E1 : canvasJoins (drawPattern 320 320 lone16 16 16 circle 1 "#000000") = [miter])
    by (vm_compute; reflexivity).
  assert (E2 : svgJoins (handleDownloadSvg lone16 16 16 circle 1 "#000000") = [round])
    by (vm_compute; reflexivity).
  rewrite E1, E2. repeat split. discriminate.
Qed.

(** The join rule apart, the two renderers agree: with a positive outline
    offset, at 10 units per stitch cell, both stroke every contour path
    with the same points and the same width, twice the offset, and both
    fill every occupied cell with the same shape, centred on the cell: a
    circle of radius 10/3 or a square of side 20/3.  The geometry is in
    exact rationals; in binary64 both renderers round these numbers alike. *)
Lemma render_geometry stitchGrid stitchesX stitchesY shape outlineOffset hex :
  wf_grid stitchGrid stitchesX stitchesY →
  0 < stitchesX → 0 < stitchesY → 0 < outlineOffset →
  ∃ paths ops doc,
    contours stitchGrid stitchesX stitchesY = Ok paths ∧
    drawPattern (10 * stitchesX) (10 * stitchesY) stitchGrid stitchesX stitchesY
      shape outlineOffset hex = Ok ops ∧
    handleDownloadSvg stitchGrid stitchesX stitchesY shape outlineOffset hex = Ok doc ∧
    canvasStrokes ops
    = (λ path, (scalePath (num 10) (num 10) path, num (2 * outlineOffset), miter))
        <$> paths ∧
    svgStrokes (svgElements doc)
    = (λ path, (scalePath (num 10) (num 10) path, num (2 * outlineOffset), round))
        <$> paths ∧
    canvasFills ops
    = (λ c : Cell, (cellShape shape c.1 c.2, hex))
        <$> occupiedCells stitchGrid stitchesX stitchesY ∧
    svgFills (svgElements doc)
    = (λ c : Cell, (cellShape shape c.1 c.2, hex))
        <$> occupiedCells stitchGrid stitchesX stitchesY.
Proof.
  intros Hwf Hx Hy Hoff.
  destruct (contours_spec stitchGrid stitchesX stitchesY Hwf Hx Hy) as (paths & E & Hlen).
  destruct (canvas_outline outlineOffset hex paths Hlen) as [Hcs Hcf].
  destruct (svg_outline outlineOffset hex paths Hlen) as [Hss Hsf].
  exists paths. eexists. eexists. split; [exact E|].
  unfold drawPattern, handleDownloadSvg.
  rewrite !cell_size by assumption.
  destruct (decide (0 < outlineOffset)); [|lia].
  rewrite E. cbn [bind].
  rewrite (canvas_loops stitchGrid stitchesX stitchesY shape hex Hwf).
  rewrite (svg_loops stitchGrid stitchesX stitchesY shape hex Hwf). cbn [bind].
  split; [reflexivity|]. split; [reflexivity|]. cbn [svgElements].
  unfold canvasStrokes, canvasFills, svgStrokes, svgFills. rewrite !omap_app.
  fold (canvasStrokes (strokeContours (num 10) (num 10) hex outlineOffset paths)).
  fold (canvasFills (strokeContours (num 10) (num 10) hex outlineOffset paths)).
  fold (svgStrokes (svgContours (num 10) hex outlineOffset paths)).
  fold (svgFills (svgContours (num 10) hex outlineOffset paths)).
  rewrite Hcs, Hcf, Hss, Hsf.
  pose proof (canvasStrokes_loops stitchGrid stitchesX stitchesY shape hex) as H1.
  pose proof (svgStrokes_loops stitchGrid stitchesX stitchesY shape hex) as H2.
  pose proof (canvasFills_loops stitchGrid stitchesX stitchesY shape hex) as H3.
  pose proof (svgFills_loops stitchGrid stitchesX stitchesY shape hex) as H4.
  unfold canvasStrokes, canvasFills, svgStrokes, svgFills in H1, H2, H3, H4.
  rewrite H1, H2, H3, H4, !app_nil_r. repeat split; reflexivity.
Qed.

Lemma render_geometry_witness :
  ∃ paths ops doc,
    contours dot3 3 3 = Ok paths ∧
    drawPattern 30 30 dot3 3 3 square 2 "#DE313A" = Ok ops ∧
    handleDownloadSvg dot3 3 3 square 2 "#DE313A" = Ok doc ∧
    canvasFills ops = svgFills (svgElements doc).
Proof.
  destruct (render_geometry dot3 3 3 square 2 "#DE313A")
    as (paths & ops & doc & E1 & E2 & E3 & _ & _ & F1 & F2); try lia.
  { split; [lia|]. split; [lia|]. split; [reflexivity|]. repeat constructor. }
  exists paths, ops, doc. split; [exact E1|]. split; [exact E2|]. split; [exact E3|].
  rewrite F1, F2. reflexivity.
Defined.

(** ** The undo history in use *)

Lemma len_take {A : Type} (l : list A) (n : Z) :
  0 ≤ n ≤ len l → len (take (Z.to_nat n) l) = n.
Proof. unfold len. intros H. rewrite length_take. lia. Qed.

Lemma slice0_take {A : Type} (l : list A) (e : Z) :
  0 ≤ e → slice0 l e = take (Z.to_nat e) l.
Proof. intros H. unfold slice0. destruct (decide _); [lia | reflexivity]. Qed.

Lemma at_app_l {A : Type} (l k : list A) (i : Z) : i < len l → at_ (l ++ k) i = at_ l i.
Proof.
  unfold at_, len. intros H. destruct (decide _); [|reflexivity].
  apply lookup_app_l. lia.
Qed.

Lemma at_take {A : Type} (l : list A) (n i : Z) :
  i < n → at_ (take (Z.to_nat n) l) i = at_ l i.
Proof.
  unfold at_. intros H. destruct (decide _); [|reflexivity].
  apply lookup_take_lt. lia.
Qed.

Lemma onEntry_current h : onEntry h → is_Some (currentState h).
Proof.
  intros [H0 H1]. unfold currentState, at_. destruct (decide _); [|lia].
  apply lookup_lt_is_Some. unfold len in H1. lia.
Qed.

Lemma onEntry_setState h s : onEntry h → onEntry (setState h s).
Proof.
  intros H. unfold setState. destruct (sameJson _ _); [exact H|].
  unfold onEntry; simpl. unfold len. rewrite length_app. simpl. lia.
Qed.

Lemma onEntry_handleUndo h : onEntry h → onEntry (handleUndo h).
Proof.
  intros H. unfold handleUndo, canUndo. case_bool_decide; [|exact H].
  unfold onEntry in *; simpl. lia.
Qed.

Lemma onEntry_handleRedo h : onEntry h → onEntry (handleRedo h).
Proof.
  intros H. unfold handleRedo, canRedo. case_bool_decide; [|exact H].
  unfold onEntry in *; simpl. lia.
Qed.

Lemma onEntry_edit h e : onEntry h → onEntry (edit h e).
Proof.
  destruct e; simpl; auto using onEntry_setState, onEntry_handleUndo, onEntry_handleRedo.
Qed.

Lemma foldl_inv {A B : Type} (f : A → B → A) (P : A → Prop) (l : list B) :
  (∀ a b, P a → P (f a b)) → ∀ a, P a → P (foldl f a l).
Proof. intros Hf. induction l as [|b l IH]; simpl; auto. Qed.

(** X1: once the first effect has run, whatever is changed, undone or
    redone, the cursor stays on an entry of the history: the editor always
    has a current state. *)
Theorem history_always_current initialState es :
  onEntry (edits initialState es) ∧ is_Some (currentState (edits initialState es)).
Proof.
  assert (H : onEntry (edits initialState es)).
  { unfold edits. apply foldl_inv; [intros; by apply onEntry_edit|].
    unfold onEntry, initHistory; simpl. unfold len; simpl. lia. }
  split; [exact H | by apply onEntry_current].
Qed.

(** X2: undo and redo cancel each other whenever the first of the two is
    enabled and the cursor is on an entry. *)
Theorem undo_redo_inverse h :
  onEntry h →
  (canUndo h = true → handleRedo (handleUndo h) = h) ∧
  (canRedo h = true → handleUndo (handleRedo h) = h).
Proof.
  intros [H0 H1]. destruct h as [l i]; simpl in *. split; intros Hc.
  - unfold handleUndo. rewrite Hc. unfold canUndo in Hc. apply bool_decide_eq_true in Hc.
    simpl in *. unfold handleRedo, canRedo; simpl.
    rewrite bool_decide_eq_true_2 by lia. f_equal. lia.
  - unfold handleRedo. rewrite Hc. unfold canRedo in Hc. apply bool_decide_eq_true in Hc.
    simpl in *. unfold handleUndo, canUndo; simpl.
    rewrite bool_decide_eq_true_2 by lia. f_equal. lia.
Qed.

Lemma undo_redo_inverse_witness :
  handleRedo (handleUndo {| history := [paramsOf 16; paramsOf 32]; historyIndex := 1 |})
  = {| history := [paramsOf 16; paramsOf 32]; historyIndex := 1 |}.
Proof.
  apply (undo_redo_inverse {| history := [paramsOf 16; paramsOf 32]; historyIndex := 1 |}).
  - unfold onEntry, len; simpl. lia.
  - reflexivity.
Defined.

(** X3: a change that alters the current parameters drops every entry that
    could be redone; the entries up to the cursor stay as they were, the
    state before the change is one undo away, and redo after that undo
    brings the change back. *)
Theorem change_discards_redo h newState :
  onEntry h →
  currentState h ≠ Some (spread (currentState h) newState) →
  canRedo (setState h newState) = false ∧
  canUndo (setState h newState) = true ∧
  (∀ i, i ≤ historyIndex h → at_ (history (setState h newState)) i = at_ (history h) i) ∧
  currentState (handleUndo (setState h newState)) = currentState h ∧
  handleRedo (handleUndo (setState h newState)) = setState h newState.
Proof.
  intros [H0 H1] Hne. rewrite (setState_fresh _ _ Hne). cbn zeta.
  rewrite slice0_take by lia.
  set (l := take _ _). set (x := spread _ _).
  assert (Hl : len l = historyIndex h + 1) by (apply len_take; lia).
  assert (Hlx : len (l ++ [x]) = historyIndex h + 2).
  { rewrite len_app, Hl. unfold len; simpl. lia. }
  assert (Hu : canUndo {| history := l ++ [x]; historyIndex := len (l ++ [x]) - 1 |} = true).
  { unfold canUndo; simpl. apply bool_decide_eq_true_2. lia. }
  split; [|split; [|split; [|split]]].
  - unfold canRedo; simpl. apply bool_decide_eq_false_2. lia.
  - exact Hu.
  - intros i Hi. simpl. rewrite at_app_l by lia. apply at_take. lia.
  - unfold handleUndo. rewrite Hu. unfold currentState; simpl.
    rewrite Hlx. replace (historyIndex h + 2 - 1 - 1) with (historyIndex h) by lia.
    rewrite at_app_l by lia. apply at_take. lia.
  - unfold handleUndo. rewrite Hu. unfold handleRedo, canRedo; simpl.
    rewrite bool_decide_eq_true_2 by lia. f_equal. lia.
Qed.

Lemma change_discards_redo_witness :
  canRedo (setState {| history := [paramsOf 16; paramsOf 32]; historyIndex := 0 |}
             (paramsOf 48)) = false.
Proof.
  apply (change_discards_redo {| history := [paramsOf 16; paramsOf 32]; historyIndex := 0 |}
           (paramsOf 48)).
  - unfold onEntry, len; simpl. lia.
  - vm_compute. discriminate.
Defined.

Lemma complete_spread c s : complete c → complete (spread (Some c) s).
Proof.
  intros (Hg & Ht & Hf & Ho & Hc). unfold complete, spread; simpl.
  repeat split; match goal with |- is_Some (override _ ?n) => destruct n; simpl; auto end.
Qed.

(** X4: a partial update never loses a key.  If every entry of the history
    has all five parameters, so has every entry after [setState], whatever
    keys the update carries, and the new current state takes each key of
    the update and keeps the others. *)
Theorem partial_update_keeps_keys h newState :
  onEntry h → Forall complete (history h) →
  Forall complete (history (setState h newState)) ∧
  ∃ cur next, currentState h = Some cur ∧
              currentState (setState h newState) = Some next ∧
              complete next ∧
              gridSize next = override (gridSize cur) (gridSize newState) ∧
              threshold next = override (threshold cur) (threshold newState) ∧
              fillShape next = override (fillShape cur) (fillShape newState) ∧
              outlineOffset next = override (outlineOffset cur) (outlineOffset newState) ∧
              selectedColor next = override (selectedColor cur) (selectedColor newState).
Proof.
  intros He Hall. destruct (onEntry_current _ He) as [cur Hcur].
  assert (Hc : complete cur).
  { rewrite Forall_forall in Hall. apply Hall. unfold currentState, at_ in Hcur.
    destruct (decide _); [|discriminate]. apply list_elem_of_lookup. eauto. }
  pose proof (complete_spread cur newState Hc) as Hn.
  destruct (decide (currentState h = Some (spread (currentState h) newState))) as [E|E].
  - rewrite (setState_same _ _ E). split; [exact Hall|].
    exists cur, cur. rewrite Hcur in E. injection E as E.
    split; [exact Hcur|]. split; [exact Hcur|]. split; [exact Hc|].
    rewrite E at 1 3 5 7 9. repeat split; reflexivity.
  - rewrite (setState_fresh _ _ E). cbn zeta. rewrite Hcur. split.
    + simpl. apply Forall_app. split.
      * unfold slice0. destruct (decide _); by apply Forall_take.
      * by apply Forall_singleton.
    + exists cur, (spread (Some cur) newState). split; [reflexivity|].
      split; [unfold currentState; simpl; apply at_last|].
      split; [exact Hn|]. repeat split; reflexivity.
Qed.

Lemma partial_update_keeps_keys_witness :
  Forall complete
    (history (setState {| history := [paramsOf 16]; historyIndex := 0 |}
                {| gridSize := None; threshold := Some 90; fillShape := None;
                   outlineOffset := None; selectedColor := None |})).
Proof.
  apply (partial_update_keeps_keys {| history := [paramsOf 16]; historyIndex := 0 |}).
  - unfold onEntry, len; simpl. lia.
  - apply Forall_singleton. repeat split; eexists; reflexivity.
Defined.

(** ** Saved patterns: the first state, saving, deleting *)

Lemma findColor_palette c : c ∈ DMC_COLORS → findColor (Some (dmc c)) = Some c.
Proof.
  unfold DMC_COLORS. rewrite !elem_of_cons, elem_of_nil.
  intros [->|[->|[->|[->|[->|[->|[]]]]]]]; reflexivity.
Qed.

Lemma findColor_Some key c :
  findColor key = Some c → c ∈ DMC_COLORS ∧ key = Some (dmc c).
Proof.
  unfold findColor. destruct (list_find _ _) as [[i x]|] eqn:E; [|discriminate].
  intros [= <-]. apply list_find_Some in E as (Hi & Hx & _).
  split; [by eapply list_elem_of_lookup_2 | by symmetry].
Qed.

Lemma findColor_None key c : findColor key = None → c ∈ DMC_COLORS → key ≠ Some (dmc c).
Proof.
  unfold findColor. destruct (list_find _ _) as [[i x]|] eqn:E; [discriminate|].
  intros _ Hc Hk. rewrite list_find_None, Forall_forall in E. by apply (E c).
Qed.

Lemma loadedState_color initialState :
  ∃ c, selectedColor (loadedState initialState) = Some c ∧ c ∈ DMC_COLORS ∧
       ∀ s, initialState = Some s →
            match selectedColor (saved s) with
            | Some col =>
                (∀ c', c' ∈ DMC_COLORS → dmc c' = dmc col → c = c') ∧
                ((∀ c', c' ∈ DMC_COLORS → dmc c' ≠ dmc col) → dmc c = "#310")
            | None => dmc c = "#310"
            end.
Proof.
  assert (Hb : {| name := "Black"; dmc := "#310"; hex := "#000000" |} ∈ DMC_COLORS).
  { unfold DMC_COLORS. rewrite !elem_of_cons. tauto. }
  destruct initialState as [s|]; simpl.
  - destruct (findColor (dmc <$> selectedColor (saved s))) as [c|] eqn:E.
    + destruct (findColor_Some _ _ E) as [Hin Hk].
      exists c. split; [reflexivity|]. split; [exact Hin|].
      intros s' [= <-].
      destruct (selectedColor (saved s)) as [col|]; [|discriminate].
      injection Hk as Hk. split.
      * intros c' Hc' Hd. simpl in E. rewrite <- Hd in E.
        rewrite (findColor_palette c' Hc') in E. congruence.
      * intros Hno. destruct (Hno c Hin). congruence.
    + eexists. split; [reflexivity|]. split; [exact Hb|].
      intros s' [= <-].
      destruct (selectedColor (saved s)) as [col|]; [|reflexivity].
      split; [|reflexivity].
      intros c' Hc' Hd. exfalso. apply (findColor_None _ c' E Hc'). simpl. by rewrite Hd.
  - eexists. split; [reflexivity|]. split; [exact Hb|]. discriminate.
Qed.

(** X5: whatever pattern the editor is opened with, its first state has a
    colour of the palette: the palette colour with the saved thread number
    if there is one, Black otherwise.  The other four parameters are taken as
    saved, and the history starts with this state alone. *)
Theorem loaded_color_from_palette initialState :
  ∃ c, selectedColor (loadedState initialState) = Some c ∧ c ∈ DMC_COLORS ∧
       (∀ s, initialState = Some s →
             match selectedColor (saved s) with
             | Some col =>
                 (∀ c', c' ∈ DMC_COLORS → dmc c' = dmc col → c = c') ∧
                 ((∀ c', c' ∈ DMC_COLORS → dmc c' ≠ dmc col) → dmc c = "#310")
             | None => dmc c = "#310"
             end ∧
             gridSize (loadedState initialState) = gridSize (saved s) ∧
             threshold (loadedState initialState) = threshold (saved s) ∧
             fillShape (loadedState initialState) = fillShape (saved s) ∧
             outlineOffset (loadedState initialState) = outlineOffset (saved s)) ∧
       (initialState = None → loadedState initialState = defaultState) ∧
       currentState (initHistory initialState) = Some (loadedState initialState) ∧
       canUndo (initHistory initialState) = false ∧
       canRedo (initHistory initialState) = false.
Proof.
  destruct (loadedState_color initialState) as (c & Hc & Hin & Hs).
  exists c. split; [exact Hc|]. split; [exact Hin|]. split; [|split].
  - intros s ->. split; [by apply Hs | repeat split].
  - intros ->. reflexivity.
  - repeat split.
Qed.

Lemma loaded_color_from_palette_witness :
  selectedColor
    (loadedState
       (Some {| id := "1"; createdAt := 1; previewDataUrl := "p";
                originalImageDataUrl := "o";
                saved := {| gridSize := Some 20; threshold := Some 100;
                            fillShape := Some square; outlineOffset := Some 2;
                            selectedColor :=
                              Some {| name := "Rouge"; dmc := "#321"; hex := "#FF0000" |} |} |}))
  = Some {| name := "Red"; dmc := "#321"; hex := "#DE313A" |}.
Proof.
  destruct (loaded_color_from_palette
              (Some {| id := "1"; createdAt := 1; previewDataUrl := "p";
                       originalImageDataUrl := "o";
                       saved := {| gridSize := Some 20; threshold := Some 100;
                                   fillShape := Some square; outlineOffset := Some 2;
                                   selectedColor :=
                                     Some {| name := "Rouge"; dmc := "#321";
                                             hex := "#FF0000" |} |} |}))
    as (c & Hc & _ & Hs & _).
  destruct (Hs _ eq_refl) as [[Hfound _] _]. simpl in Hfound.
  rewrite Hc. f_equal. apply Hfound; [|reflexivity].
  unfold DMC_COLORS. apply list_elem_of_here.
Defined.

(** X6: saving and opening again gives the parameters back.  A state whose
    colour is one of the palette is read back unchanged from the pattern
    that [handleSavePattern] builds from it, whatever was open before, the
    clock and the two images. *)
Theorem save_then_load initialState now preview original s c :
  selectedColor s = Some c → c ∈ DMC_COLORS →
  loadedState (Some (newPattern initialState now preview original s)) = s ∧
  currentState (initHistory (Some (newPattern initialState now preview original s)))
  = Some s.
Proof.
  intros Hs Hc.
  assert (E : loadedState (Some (newPattern initialState now preview original s)) = s).
  { unfold loadedState, newPattern; simpl. rewrite Hs; simpl.
    rewrite (findColor_palette c Hc). destruct s; simpl in *. by rewrite Hs. }
  split; [exact E|].
  change (Some (loadedState (Some (newPattern initialState now preview original s)))
          = Some s).
  by rewrite E.
Qed.

Lemma save_then_load_witness :
  loadedState (Some (newPattern None 1700000000000 "preview" "original" (paramsOf 48)))
  = paramsOf 48.
Proof.
  apply (save_then_load None 1700000000000 "preview" "original" (paramsOf 48)
           {| name := "Black"; dmc := "#310"; hex := "#000000" |}).
  - reflexivity.
  - unfold DMC_COLORS. rewrite !elem_of_cons. tauto.
Defined.

Lemma storePattern_new patterns p :
  id p ∉ id <$> patterns → storePattern patterns p = p :: patterns.
Proof.
  intros Hn. unfold storePattern.
  destruct (list_find _ _) as [[i q]|] eqn:E; [|reflexivity].
  apply list_find_Some in E as (Hi & Hq & _). exfalso. apply Hn.
  rewrite <- Hq. apply list_elem_of_fmap_2. by eapply list_elem_of_lookup_2.
Qed.

Lemma storePattern_old patterns p i q :
  NoDup (id <$> patterns) → patterns !! i = Some q → id q = id p →
  storePattern patterns p = <[i := p]> patterns.
Proof.
  intros Hnd Hi Hq. unfold storePattern.
  destruct (list_find _ _) as [[j r]|] eqn:E.
  - apply list_find_Some in E as (Hj & Hr & _).
    assert (i = j); [|by subst].
    eapply NoDup_lookup; [exact Hnd| |]; rewrite list_lookup_fmap.
    + rewrite Hi. simpl. reflexivity.
    + rewrite Hj. simpl. congruence.
  - rewrite list_find_None, Forall_forall in E. destruct (E q); [|exact Hq].
    by eapply list_elem_of_lookup_2.
Qed.

Lemma ids_insert (patterns : list SavedPattern) i p q :
  patterns !! i = Some q → id q = id p → id <$> <[i := p]> patterns = id <$> patterns.
Proof.
  intros Hi Hq. rewrite list_fmap_insert. apply list_insert_id.
  rewrite list_lookup_fmap, Hi. simpl. by rewrite Hq.
Qed.

(** X7: storing a pattern is an insert-or-replace on its id.  In a list
    without two patterns of the same id, the stored pattern is afterwards
    the only one with its id, every other pattern is kept, and the ids stay
    distinct; a new id is put in front, a known id is replaced where it
    stood and the list keeps its length. *)
Theorem storePattern_upsert patterns p :
  NoDup (id <$> patterns) →
  NoDup (id <$> storePattern patterns p) ∧
  (∀ q, q ∈ storePattern patterns p ↔ q = p ∨ (q ∈ patterns ∧ id q ≠ id p)) ∧
  (id p ∉ id <$> patterns → storePattern patterns p = p :: patterns) ∧
  (∀ i q, patterns !! i = Some q → id q = id p →
          storePattern patterns p = <[i := p]> patterns ∧
          length (storePattern patterns p) = length patterns).
Proof.
  intros Hnd.
  assert (Hold : ∀ i q, patterns !! i = Some q → id q = id p →
                        storePattern patterns p = <[i := p]> patterns ∧
                        length (storePattern patterns p) = length patterns).
  { intros i q Hi Hq. rewrite (storePattern_old _ _ _ _ Hnd Hi Hq).
    split; [reflexivity | apply length_insert]. }
  destruct (decide (id p ∈ id <$> patterns)) as [Hin|Hn].
  - apply list_elem_of_fmap in Hin as (q & Hq & Hin).
    apply list_elem_of_lookup in Hin as [i Hi]. symmetry in Hq.
    destruct (Hold i q Hi Hq) as [E _]. rewrite E.
    split; [by rewrite (ids_insert _ _ _ _ Hi Hq)|].
    split; [|split; [|rewrite <- E; exact Hold]].
    + intros r. rewrite list_elem_of_lookup. split.
      * intros [j Hj]. destruct (decide (j = i)) as [->|Hji].
        -- rewrite list_lookup_insert_eq in Hj by (by eapply lookup_lt_Some).
           left. congruence.
        -- rewrite list_lookup_insert_ne in Hj by congruence.
           right.
           split; [by eapply list_elem_of_lookup_2|].
           intros Hid. apply Hji.
           eapply NoDup_lookup; [exact Hnd| |]; rewrite list_lookup_fmap.
           ++ rewrite Hj. simpl. reflexivity.
           ++ rewrite Hi. simpl. congruence.
      * intros [->|[Hr Hid]].
        -- exists i. apply list_lookup_insert_eq. by eapply lookup_lt_Some.
        -- apply list_elem_of_lookup in Hr as [j Hj]. exists j.
           rewrite list_lookup_insert_ne; [exact Hj|]. intros ->. congruence.
    + intros Hn. destruct Hn. rewrite <- Hq. apply list_elem_of_fmap_2.
      by eapply list_elem_of_lookup_2.
  - rewrite (storePattern_new _ _ Hn).
    split; [rewrite fmap_cons; by apply NoDup_cons|].
    split; [|split; [reflexivity | rewrite <- (storePattern_new _ _ Hn); exact Hold]].
    intros q. rewrite elem_of_cons. split.
    + intros [->|Hq]; [by left|]. right. split; [exact Hq|].
      intros Hid. apply Hn. rewrite <- Hid. by apply list_elem_of_fmap_2.
    + intros [->|[Hq _]]; [by left | by right].
Qed.

Lemma storePattern_upsert_witness :
  NoDup (id <$> storePattern [] (newPattern None 5 "p" "o" (paramsOf 16))).
Proof.
  apply (storePattern_upsert [] (newPattern None 5 "p" "o" (paramsOf 16))).
  apply NoDup_nil_2.
Defined.

(** X8: saving a pattern that was opened from the gallery overwrites it.
    With a non-empty id and a non-zero date, the saved pattern keeps both,
    takes the place of the opened one in the stored list and carries the
    current parameters and the new images; nothing else in the list changes. *)
Theorem resave_overwrites opened now preview original h patterns i current :
  NoDup (id <$> patterns) → patterns !! i = Some opened →
  id opened ≠ EmptyString → createdAt opened ≠ 0 →
  currentState h = Some current →
  handleSavePattern (Some opened) now preview original h patterns
  = Some (<[i := {| id := id opened; createdAt := createdAt opened;
                    previewDataUrl := preview; originalImageDataUrl := original;
                    saved := current |}]> patterns).
Proof.
  intros Hnd Hi Hid Hc Hcur. unfold handleSavePattern. rewrite Hcur. f_equal.
  assert (E : newPattern (Some opened) now preview original current
              = {| id := id opened; createdAt := createdAt opened;
                   previewDataUrl := preview; originalImageDataUrl := original;
                   saved := current |}).
  { unfold newPattern. destruct (decide (id opened = "")); [done|].
    destruct (decide (createdAt opened = 0)); [done|]. reflexivity. }
  rewrite E. by apply (storePattern_old _ _ i opened).
Qed.

Lemma resave_overwrites_witness :
  handleSavePattern
    (Some (newPattern None 5 "p" "o" (paramsOf 16))) 9 "p2" "o2"
    {| history := [paramsOf 32]; historyIndex := 0 |}
    [newPattern None 5 "p" "o" (paramsOf 16)]
  = Some [ {| id := "5"; createdAt := 5; previewDataUrl := "p2";
              originalImageDataUrl := "o2"; saved := paramsOf 32 |} ].
Proof.
  apply (resave_overwrites (newPattern None 5 "p" "o" (paramsOf 16)) 9 "p2" "o2"
           {| history := [paramsOf 32]; historyIndex := 0 |}
           [newPattern None 5 "p" "o" (paramsOf 16)] 0%nat (paramsOf 32)).
  - apply NoDup_singleton.
  - reflexivity.
  - discriminate.
  - discriminate.
  - reflexivity.
Defined.

Lemma filter_all {A : Type} (P : A → Prop) `{∀ x, Decision (P x)} (l : list A) :
  Forall P l → filter P l = l.
Proof.
  induction 1 as [|x l Hx Hl IH]; [reflexivity|].
  rewrite filter_cons_True by exact Hx. by rewrite IH.
Qed.


(** *** The gallery *)

Lemma insertPattern_head p l :
  Forall (newerFirst p) l → insertPattern p l = p :: l.
Proof.
  destruct l as [|q l]; [reflexivity|]. intros H. apply Forall_cons in H as [H _].
  simpl. destruct (decide _) as [_|Hn]; [reflexivity|]. by destruct Hn.
Qed.

Lemma insertPattern_perm p l : insertPattern p l ≡ₚ p :: l.
Proof.
  induction l as [|q l IH]; [reflexivity|]. simpl.
  destruct (decide _); [reflexivity|]. rewrite IH. apply Permutation_swap.
Qed.

Lemma sortPatterns_perm l : sortPatterns l ≡ₚ l.
Proof.
  induction l as [|p l IH]; [reflexivity|].
  simpl. rewrite insertPattern_perm. by rewrite IH.
Qed.

Lemma newerFirst_trans a b c : newerFirst a b → newerFirst b c → newerFirst a c.
Proof. unfold newerFirst. lia. Qed.

Lemma insertPattern_sorted p l : newestFirst l → newestFirst (insertPattern p l).
Proof.
  unfold newestFirst. induction 1 as [|q l Hl IH Hq]; simpl.
  - repeat constructor.
  - destruct (decide _) as [Hle|Hgt].
    + constructor; [by constructor|]. constructor; [exact Hle|].
      eapply Forall_impl; [exact Hq|]. intros r Hr. by eapply newerFirst_trans.
    + constructor; [exact IH|].
      rewrite insertPattern_perm. constructor; [unfold newerFirst; lia | exact Hq].
Qed.

Lemma sortPatterns_sorted l : newestFirst (sortPatterns l).
Proof.
  induction l as [|p l IH]; [constructor|]. simpl. by apply insertPattern_sorted.
Qed.

Lemma sortPatterns_id l : newestFirst l → sortPatterns l = l.
Proof.
  unfold newestFirst. induction 1 as [|p l Hl IH Hp]; [reflexivity|].
  simpl. rewrite IH. by apply insertPattern_head.
Qed.

(** Leaving patterns out and sorting can be done in either order: the
    sort is stable. *)
Lemma filter_insertPattern (P : SavedPattern → Prop) `{∀ x, Decision (P x)} p l :
  newestFirst l →
  filter P (insertPattern p l)
  = if decide (P p) then insertPattern p (filter P l) else filter P l.
Proof.
  unfold newestFirst. induction 1 as [|q l Hl IH Hq]; simpl.
  - rewrite filter_cons, filter_nil. by destruct (decide (P p)).
  - destruct (decide (createdAt q ≤ createdAt p)) as [Hle|Hgt].
    + rewrite (filter_cons _ p). destruct (decide (P p)) as [Hp|Hp]; [|reflexivity].
      symmetry. apply insertPattern_head.
      apply Forall_forall. intros r Hr. apply list_elem_of_filter in Hr as [_ Hr].
      apply elem_of_cons in Hr as [->|Hr]; [exact Hle|].
      rewrite Forall_forall in Hq. eapply newerFirst_trans; [exact Hle | by apply Hq].
    + rewrite (filter_cons _ q), IH. rewrite (filter_cons _ q).
      destruct (decide (P q)) as [Hpq|Hpq]; [|reflexivity].
      destruct (decide (P p)); [|reflexivity].
      simpl. destruct (decide _); [lia | reflexivity].
Qed.

Lemma filter_sortPatterns (P : SavedPattern → Prop) `{∀ x, Decision (P x)} l :
  filter P (sortPatterns l) = sortPatterns (filter P l).
Proof.
  induction l as [|p l IH]; [reflexivity|]. simpl.
  rewrite filter_insertPattern by apply sortPatterns_sorted.
  rewrite filter_cons, IH. by destruct (decide (P p)).
Qed.

(** X9: deleting in the gallery.  The gallery shows the stored patterns
    newest first; a confirmed delete leaves, and writes back, the stored
    patterns with another id, newest first and otherwise in their stored
    order; a declined one changes nothing.  Deleting a pattern that was just
    saved under a new id writes back the patterns from before the save,
    newest first: the very list from before when that was newest first. *)
Theorem gallery_delete stored id0 :
  newestFirst (loadPatterns stored) ∧ loadPatterns stored ≡ₚ stored ∧
  handleDelete true id0 (loadPatterns stored)
  = loadPatterns (filter (λ p, id p ≠ id0) stored) ∧
  newestFirst (handleDelete true id0 (loadPatterns stored)) ∧
  (∀ q, q ∈ handleDelete true id0 (loadPatterns stored) ↔ q ∈ stored ∧ id q ≠ id0) ∧
  handleDelete false id0 (loadPatterns stored) = loadPatterns stored ∧
  (∀ p, id p ∉ id <$> stored →
        handleDelete true (id p) (loadPatterns (storePattern stored p))
        = loadPatterns stored ∧
        (newestFirst stored →
         handleDelete true (id p) (loadPatterns (storePattern stored p)) = stored)).
Proof.
  unfold loadPatterns.
  assert (Hd : ∀ i l, handleDelete true i (sortPatterns l)
                      = sortPatterns (filter (λ p, id p ≠ i) l)).
  { intros i l. unfold handleDelete. apply filter_sortPatterns. }
  split; [apply sortPatterns_sorted|]. split; [apply sortPatterns_perm|].
  split; [apply Hd|]. split; [rewrite Hd; apply sortPatterns_sorted|].
  split; [|split; [reflexivity|]].
  - intros q. rewrite Hd, sortPatterns_perm, list_elem_of_filter. tauto.
  - intros p Hn.
    assert (E : handleDelete true (id p) (sortPatterns (storePattern stored p))
                = sortPatterns stored).
    { rewrite Hd, (storePattern_new _ _ Hn).
      rewrite filter_cons_False by (intros Hf; by apply Hf).
      f_equal. apply filter_all, Forall_forall.
      intros q Hq Hid. apply Hn. rewrite <- Hid. by apply list_elem_of_fmap_2. }
    split; [exact E|]. intros Hs. rewrite E. by apply sortPatterns_id.
Qed.

Lemma gallery_delete_witness :
  handleDelete true "9"
    (loadPatterns
       (storePattern [newPattern None 3 "p" "o" (paramsOf 16);
                      newPattern None 7 "p" "o" (paramsOf 32)]
          (newPattern None 9 "p" "o" (paramsOf 48))))
  = loadPatterns [newPattern None 3 "p" "o" (paramsOf 16);
                  newPattern None 7 "p" "o" (paramsOf 32)].
Proof.
  apply (proj2 (proj2 (proj2 (proj2 (proj2 (proj2
           (gallery_delete [newPattern None 3 "p" "o" (paramsOf 16);
                            newPattern None 7 "p" "o" (paramsOf 32)] "9"))))))
           (newPattern None 9 "p" "o" (paramsOf 48))).
  simpl. rewrite !not_elem_of_cons. repeat split; try discriminate. apply not_elem_of_nil.
Defined.

(** ** The application shell *)

Lemma provenance_mono actions a st : provenance actions st → provenance (actions ++ [a]) st.
Proof.
  unfold provenance. destruct (imageFile st), (initialEditorState st); try done.
  - intros [seen H]. exists seen. apply elem_of_app. by left.
  - intros [H1 H2]. split; [apply elem_of_app; by left | exact H2].
Qed.

Lemma provenance_act actions a st :
  provenance actions st → provenance (actions ++ [a]) (act st a).
Proof.
  intros H. pose proof (provenance_mono actions a st H) as Hm.
  assert (Ha : a ∈ actions ++ [a]) by (apply elem_of_app; right; apply list_elem_of_here).
  destruct a as [t|[f|]|p [f|] seen| |]; simpl; try exact Hm.
  - unfold handleFile. destruct (String.prefix "image/" (fileType f)) eqn:E; [|exact Hm].
    unfold provenance; simpl. by split.
  - unfold provenance; simpl. by exists seen.
  - unfold provenance; simpl. done.
Qed.

Lemma run_snoc actions a : run (actions ++ [a]) = act (run actions) a.
Proof. unfold run. by rewrite foldl_app. Qed.

Lemma run_provenance actions : provenance actions (run actions).
Proof.
  induction actions as [|a actions IH] using rev_ind; [done|].
  rewrite run_snoc. by apply provenance_act.
Qed.

(** X10: whatever the user does, the editor is shown only with an image
    that came in properly.  Without a saved pattern, its file was picked on
    the upload screen and has a type that starts with [image/]; with a saved
    pattern, the file is the one fetched for that very pattern.  The shell
    never holds a saved pattern without an image. *)
Theorem editor_inputs actions :
  (is_Some (initialEditorState (run actions)) → is_Some (imageFile (run actions))) ∧
  ∀ f i, renderScreen (run actions) = EditorScreen f i →
         match i with
         | None => PickFile (Some f) ∈ actions ∧ String.prefix "image/" (fileType f) = true
         | Some p => ∃ seen, LoadPattern p (Some f) seen ∈ actions
         end.
Proof.
  pose proof (run_provenance actions) as H. unfold provenance in H. split.
  - intros [p Hp]. rewrite Hp in H. destruct (imageFile (run actions)); [eauto | done].
  - intros f i. unfold renderScreen.
    destruct (screen (run actions)); try discriminate.
    destruct (imageFile (run actions)) as [g|]; [|discriminate].
    intros [= -> <-]. exact H.
Qed.

Lemma editor_inputs_witness :
  PickFile (Some {| fileName := "cat.png"; fileType := "image/png"; fileData := "" |})
  ∈ [PickFile (Some {| fileName := "cat.png"; fileType := "image/png"; fileData := "" |})]
  ∧ String.prefix "image/" "image/png" = true.
Proof.
  apply (proj2 (editor_inputs
                  [PickFile (Some {| fileName := "cat.png"; fileType := "image/png";
                                     fileData := "" |})])
           {| fileName := "cat.png"; fileType := "image/png"; fileData := "" |} None).
  reflexivity.
Defined.

(** X11: moving between screens never drops the work in progress.  After
    any series of navigations and backs the shell holds the same image and
    the same pattern, so the editor, when shown again, is shown with them;
    [handleBack] undoes one [navigateTo] and a second back changes nothing. *)
Theorem navigation_keeps_work st actions :
  Forall moves actions →
  imageFile (foldl act st actions) = imageFile st ∧
  initialEditorState (foldl act st actions) = initialEditorState st ∧
  (screen (foldl act st actions) = editor → screen st = editor →
   renderScreen (foldl act st actions) = renderScreen st) ∧
  (∀ t, screen (handleBack (navigateTo t st)) = screen st) ∧
  handleBack (handleBack st) = handleBack st.
Proof.
  intros Hm.
  assert (H : imageFile (foldl act st actions) = imageFile st ∧
              initialEditorState (foldl act st actions) = initialEditorState st).
  { revert st. induction Hm as [|a actions Ha _ IH]; intros st; [done|].
    simpl. destruct (IH (act st a)) as [-> ->]. destruct a; done. }
  destruct H as [Hi Hp]. split; [exact Hi|]. split; [exact Hp|].
  split; [|split; [reflexivity | reflexivity]].
  intros H1 H2. unfold renderScreen. by rewrite H1, H2, Hi, Hp.
Qed.

Lemma navigation_keeps_work_witness :
  imageFile
    (foldl act
       (handleImageUpload {| fileName := "a"; fileType := "image/png"; fileData := "" |}
          initialApp)
       [Navigate settings; Navigate privacyPolicy; Back])
  = Some {| fileName := "a"; fileType := "image/png"; fileData := "" |}.
Proof.
  apply (navigation_keeps_work
           (handleImageUpload {| fileName := "a"; fileType := "image/png"; fileData := "" |}
              initialApp)
           [Navigate settings; Navigate privacyPolicy; Back]).
  repeat constructor.
Defined.

(** X12: the upload screen lets only images through.  No file, or a file
    whose type does not start with [image/], leaves the shell as it is; an
    image opens the editor on that file with no saved pattern, even when a
    saved pattern was open before; and once the editor is closed no navigation and no back
    shows it again: without an image the editor screen falls back to the
    upload screen. *)
Theorem upload_gate st :
  handleFile None st = st ∧
  (∀ f, String.prefix "image/" (fileType f) = false → handleFile (Some f) st = st) ∧
  (∀ f, String.prefix "image/" (fileType f) = true →
        renderScreen (handleFile (Some f) st) = EditorScreen f None ∧
        previousScreen (handleFile (Some f) st) = screen st) ∧
  renderScreen (handleCloseEditor st) = UploadScreen ∧
  ∀ t f i, renderScreen (navigateTo t (handleCloseEditor st)) ≠ EditorScreen f i ∧
           renderScreen (handleBack (handleCloseEditor st)) ≠ EditorScreen f i.
Proof.
  split; [reflexivity|]. split.
  { intros f Hf. unfold handleFile. by rewrite Hf. }
  split.
  { intros f Hf. unfold handleFile. rewrite Hf. split; reflexivity. }
  split; [reflexivity|].
  intros t f i. split.
  - destruct t; discriminate.
  - unfold renderScreen, handleBack, handleCloseEditor; simpl.
    destruct (screen st); discriminate.
Qed.

Lemma upload_gate_witness :
  handleFile (Some {| fileName := "notes.txt"; fileType := "text/plain"; fileData := "" |})
    initialApp = initialApp.
Proof.
  apply (proj1 (proj2 (upload_gate initialApp))
           {| fileName := "notes.txt"; fileType := "text/plain"; fileData := "" |}).
  reflexivity.
Defined.


(** ** The PDF export *)

Lemma elem_of_countUp i from to step :
  0 < step →
  i ∈ countUp from to step ↔ ∃ k, 0 ≤ k ∧ i = from + step * k ∧ i ≤ to.
Proof.
  intros Hs. unfold countUp. rewrite list_elem_of_fmap. split.
  - intros (k & -> & Hk). apply elem_of_seqZ in Hk. exists k.
    split; [lia|]. split; [reflexivity|].
    assert (k ≤ (to - from) `div` step) as Hle by lia.
    pose proof (Z.mul_div_le (to - from) step Hs). nia.
  - intros (k & Hk & -> & Hle). exists k. split; [reflexivity|].
    apply elem_of_seqZ. split; [lia|].
    assert (k ≤ (to - from) `div` step); [|lia].
    apply Z.div_le_lower_bound; lia.
Qed.

Lemma countUp_tens stitches i : i ∈ countUp 0 stitches 10 → i ∈ countUp 0 stitches 1.
Proof.
  rewrite !elem_of_countUp by lia. intros (k & Hk & -> & Hle). exists (10 * k). lia.
Qed.

Lemma countUp_labels stitches i : i ∈ countUp 10 stitches 10 → i ∈ countUp 0 stitches 10.
Proof.
  rewrite !elem_of_countUp by lia. intros (k & Hk & -> & Hle). exists (k + 1). lia.
Qed.

Lemma length_countUp from to step :
  length (countUp from to step) = Z.to_nat ((to - from) `div` step + 1).
Proof. unfold countUp. by rewrite length_fmap, length_seqZ. Qed.

Lemma pages_app ops ops' : (pages (ops ++ ops') + 1 = pages ops + pages ops')%nat.
Proof. unfold pages. rewrite filter_app, length_app. lia. Qed.

Lemma no_addPage {A : Type} (f : A → PdfOp) (l : list A) :
  (∀ x, isAddPage (f x) = false) → filter (λ op, isAddPage op = true) (f <$> l) = [].
Proof.
  intros Hf. induction l as [|x l IH]; [reflexivity|].
  rewrite fmap_cons, filter_cons_False; [exact IH|]. rewrite Hf. discriminate.
Qed.

Lemma pages_fmap {A : Type} (f : A → PdfOp) (l : list A) ops :
  (∀ x, isAddPage (f x) = false) → pages ((f <$> l) ++ ops) = pages ops.
Proof. intros Hf. unfold pages. by rewrite filter_app, no_addPage. Qed.

Lemma pages_pdfCalls pw ph split img iw ih ins sx sy :
  pages (pdfCalls pw ph split img iw ih ins sx sy)
  = if decide (ins = EmptyString) then 1%nat else 2%nat.
Proof.
  unfold pdfCalls. cbn zeta. cbn [app].
  change (pages (?a :: ?b :: ?c :: ?d :: ?l)) with (pages l).
  unfold verticalLines, horizontalLines, topLabels, sideLabels.
  rewrite !pages_fmap by reflexivity. cbn [app].
  change (pages (?a :: ?b :: ?l)) with (pages l).
  rewrite !pages_fmap by reflexivity. cbn [app].
  change (pages (?a :: ?b :: ?l)) with (pages l).
  rewrite !pages_fmap by reflexivity. cbn [app].
  change (pages (?a :: ?l)) with (pages l).
  destruct (decide _); reflexivity.
Qed.

Lemma instructions_printed pw ph split img iw ih ins sx sy :
  ins ≠ EmptyString →
  textLines (split ins (pw - 40 * 2)%float) 40%float (40 + 20)%float
  ∈ pdfCalls pw ph split img iw ih ins sx sy.
Proof.
  intros Hi. unfold pdfCalls. cbn zeta.
  destruct (decide _) as [|_]; [done|].
  rewrite !elem_of_app. do 10 right. left.
  rewrite !elem_of_cons. tauto.
Qed.

Lemma drawnLines_vertical lw gridX gridY w h stitchesX steps ops :
  drawnLines lw (verticalLines gridX gridY w h stitchesX steps ++ ops)
  = ((λ i, let x := (gridX + (Z2F i / Z2F stitchesX) * w)%float in
           (lw, (x, gridY, x, (gridY + h)%float))) <$> steps)
    ++ drawnLines lw ops.
Proof.
  unfold verticalLines. induction steps as [|i steps IH]; [reflexivity|].
  rewrite !fmap_cons. simpl. by rewrite IH.
Qed.

Lemma drawnLines_horizontal lw gridX gridY w h stitchesY steps ops :
  drawnLines lw (horizontalLines gridX gridY w h stitchesY steps ++ ops)
  = ((λ i, let y := (gridY + (Z2F i / Z2F stitchesY) * h)%float in
           (lw, (gridX, y, (gridX + w)%float, y))) <$> steps)
    ++ drawnLines lw ops.
Proof.
  unfold horizontalLines. induction steps as [|i steps IH]; [reflexivity|].
  rewrite !fmap_cons. simpl. by rewrite IH.
Qed.

Lemma drawnLines_none {A : Type} (f : A → PdfOp) lw (l : list A) ops :
  (∀ x lw ops, drawnLines lw (f x :: ops) = drawnLines lw ops) →
  drawnLines lw ((f <$> l) ++ ops) = drawnLines lw ops.
Proof.
  intros Hf. induction l as [|x l IH]; [reflexivity|].
  rewrite fmap_cons. simpl app. by rewrite Hf.
Qed.

Lemma half_not_one : 1%float ≠ 0.5%float.
Proof.
  intros H. pose proof (f_equal (λ x, PrimFloat.eqb x 1) H) as H'.
  vm_compute in H'. discriminate.
Qed.
Lemma drawn_pdfCalls lw0 pw ph split img iw ih ins sx sy :
  drawnLines lw0 (pdfCalls pw ph split img iw ih ins sx sy)
  = let size := pdfImgSize (pw - 40 * 2) (ph - 40 * 2) iw ih in
    ((λ i, let x := (40 + (Z2F i / Z2F sx) * size.1)%float in
           (0.5%float, (x, (40 + 30)%float, x, (40 + 30 + size.2)%float)))
       <$> countUp 0 sx 1)
    ++ ((λ i, let y := (40 + 30 + (Z2F i / Z2F sy) * size.2)%float in
              (0.5%float, (40%float, y, (40 + size.1)%float, y)))
          <$> countUp 0 sy 1)
    ++ ((λ i, let x := (40 + (Z2F i / Z2F sx) * size.1)%float in
              (1%float, (x, (40 + 30)%float, x, (40 + 30 + size.2)%float)))
          <$> countUp 0 sx 10)
    ++ ((λ i, let y := (40 + 30 + (Z2F i / Z2F sy) * size.2)%float in
              (1%float, (40%float, y, (40 + size.1)%float, y)))
          <$> countUp 0 sy 10).
Proof.
  unfold pdfCalls. cbn zeta. cbn [app drawnLines].
  rewrite drawnLines_vertical, drawnLines_horizontal. cbn [app drawnLines].
  rewrite drawnLines_vertical, drawnLines_horizontal. cbn [app drawnLines].
  unfold topLabels, sideLabels.
  rewrite !drawnLines_none by reflexivity. cbn [app drawnLines].
  destruct (decide _); cbn [app drawnLines]; by rewrite app_nil_r.
Qed.

Lemma top_label pw ph split img iw ih ins sx sy s x y :
  text s x y alignCenter ∈ pdfCalls pw ph split img iw ih ins sx sy →
  ∃ i, i ∈ countUp 10 sx 10 ∧ s = pretty i ∧ (y = 40 + 30 - 5)%float ∧
       x = (40 + (Z2F i / Z2F sx)
                 * (pdfImgSize (pw - 40 * 2) (ph - 40 * 2) iw ih).1)%float.
Proof.
  unfold pdfCalls. cbn zeta.
  unfold verticalLines, horizontalLines, topLabels, sideLabels.
  destruct (decide _);
    rewrite !elem_of_app, !elem_of_cons, !list_elem_of_fmap, !elem_of_nil;
    intros H; repeat (destruct H as [H|H]); try discriminate; try (by destruct H);
    try (destruct H as (i & H & Hi); discriminate);
    destruct H as (i & H & Hi); injection H as -> -> ->; exists i; done.
Qed.

Lemma side_label pw ph split img iw ih ins sx sy s x y :
  text s x y alignRight ∈ pdfCalls pw ph split img iw ih ins sx sy →
  ∃ i, i ∈ countUp 10 sy 10 ∧ s = pretty i ∧ (x = 40 - 5)%float ∧
       y = (40 + 30 + (Z2F i / Z2F sy)
                      * (pdfImgSize (pw - 40 * 2) (ph - 40 * 2) iw ih).2 + 3)%float.
Proof.
  unfold pdfCalls. cbn zeta.
  unfold verticalLines, horizontalLines, topLabels, sideLabels.
  destruct (decide _);
    rewrite !elem_of_app, !elem_of_cons, !list_elem_of_fmap, !elem_of_nil;
    intros H; repeat (destruct H as [H|H]); try discriminate; try (by destruct H);
    try (destruct H as (i & H & Hi); discriminate);
    destruct H as (i & H & Hi); injection H as -> -> ->; exists i; done.
Qed.


Lemma perform_saved accepts calls : ∀ done,
  forallb accepts calls = true → perform accepts calls done = Saved (done ++ calls).
Proof.
  induction calls as [|op calls IH]; intros done; simpl.
  - intros _. by rewrite app_nil_r.
  - intros H. apply andb_true_iff in H as [-> H]. rewrite IH by exact H.
    by rewrite <- app_assoc.
Qed.

Lemma perform_Saved accepts calls : ∀ done ops,
  perform accepts calls done = Saved ops →
  ops = done ++ calls ∧ forallb accepts calls = true.
Proof.
  induction calls as [|op calls IH]; intros done ops; simpl.
  - intros [= <-]. by rewrite app_nil_r.
  - destruct (accepts op); [|discriminate]. intros H.
    apply IH in H as [-> H]. by rewrite <- app_assoc.
Qed.

(** A refused call ends the run: what the document took is a part of what
    came before that call. *)
Lemma perform_stops accepts pre op post : ∀ done,
  accepts op = false →
  ∃ taken, perform accepts (pre ++ op :: post) done = Failed (done ++ taken) ∧
           taken `prefix_of` pre.
Proof.
  induction pre as [|p pre IH]; intros done Hop; simpl.
  - rewrite Hop. exists []. split; [by rewrite app_nil_r | apply prefix_nil].
  - destruct (accepts p).
    + destruct (IH (done ++ [p]) Hop) as (taken & E & Hp).
      exists (p :: taken). rewrite E, <- app_assoc. split; [reflexivity|].
      by apply prefix_cons.
    + exists []. split; [by rewrite app_nil_r | apply prefix_nil].
Qed.

Lemma is_nan_position a w : is_nan (a + (Z2F 0 / Z2F 0) * w)%float = true.
Proof.
  unfold is_nan. rewrite FloatAxioms.eqb_spec, FloatAxioms.add_spec, FloatAxioms.mul_spec.
  change (Prim2SF (Z2F 0 / Z2F 0)) with S754_nan.
  destruct (Prim2SF a), (Prim2SF w); reflexivity.
Qed.


Lemma prefix_Forall {A : Type} (P : A → Prop) (taken pre : list A) :
  taken `prefix_of` pre → Forall P pre → Forall P taken.
Proof. intros [k ->] H. by apply Forall_app in H as [H _]. Qed.

Lemma pages_one ops : Forall (λ op, isAddPage op = false) ops → pages ops = 1%nat.
Proof.
  intros H. unfold pages. f_equal. induction H as [|op ops Hop _ IH]; [reflexivity|].
  rewrite filter_cons_False; [exact IH|]. rewrite Hop. discriminate.
Qed.

Lemma drawnLines_quiet ops :
  Forall (λ op, match op with line _ _ _ _ | setLineWidth _ => False | _ => True end) ops →
  ∀ lw, drawnLines lw ops = [].
Proof.
  induction 1 as [|op ops Hop _ IH]; intros lw; [reflexivity|].
  destruct op; try contradiction; simpl; apply IH.
Qed.

(** Without columns, or without rows, the first grid line of that direction
    is at a position that is not a number: the run ends there at the
    latest, before any page is added and before the document is saved. *)
Lemma pdf_fails accepts pw ph split img iw ih ins sx sy :
  rejectsNaN accepts → sx = 0 ∨ sy = 0 →
  ∃ taken, generatePdf accepts pw ph split img iw ih ins sx sy = Failed taken ∧
           Forall (λ op, match op with addPage | save _ => False | _ => True end) taken ∧
           (sx = 0 →
            Forall (λ op, match op with line _ _ _ _ => False | _ => True end) taken).
Proof.
  intros Hrej Hz. unfold generatePdf, pdfCalls. cbn zeta.
  set (size := pdfImgSize _ _ iw ih).
  destruct (decide (sx = 0)) as [->|Hx].
  - change (countUp 0 0 1) with [0]. unfold verticalLines at 1. cbn [fmap list_fmap].
    match goal with
    | |- context [perform accepts (?pre ++ [?op] ++ ?post) []] =>
        destruct (perform_stops accepts pre op post []) as (taken & E & Hp)
    end.
    { apply Hrej. by rewrite is_nan_position. }
    cbn [app] in E |- *. rewrite E. exists taken. split; [reflexivity|].
    split; [|intros _]; (eapply prefix_Forall; [exact Hp|]); repeat constructor.
  - destruct Hz as [Hz|Hz]; [contradiction|]. subst sy.
    change (countUp 0 0 1) with [0]. unfold horizontalLines at 1. cbn [fmap list_fmap].
    match goal with
    | |- context [perform accepts (?A ++ ?V ++ [?op] ++ ?post) []] =>
        destruct (perform_stops accepts (A ++ V) op post []) as (taken & E & Hp)
    end.
    { apply Hrej. rewrite is_nan_position. by rewrite !orb_true_r. }
    rewrite <- app_assoc in E. cbn [app] in E |- *. rewrite E.
    exists taken. split; [reflexivity|]. split; [|contradiction].
    eapply prefix_Forall; [exact Hp|]. apply Forall_app. split; [repeat constructor|].
    unfold verticalLines. apply Forall_fmap, Forall_forall. by intros.
Qed.

Lemma checksLines_rejectsNaN : rejectsNaN checksLines.
Proof. intros x1 y1 x2 y2 H. simpl. by rewrite H. Qed.

(** X13: the instruction page of the PDF.  When jsPDF takes every call,
    the document is saved with all of them, and it has a second page
    exactly when the instruction text is not empty: one page for the
    download without instructions, two for the download with instructions
    whenever the service answers with a text, and also when the service
    fails, the second page then carrying [Failed to generate instructions.]
    When a stitch count is 0 the first grid line is at a position that is
    not a number, jsPDF refuses it, and nothing is saved: no page is added
    and the document is not written. *)
Theorem pdf_instruction_page accepts pw ph split img iw ih :
  (∀ ins sx sy,
      forallb accepts (pdfCalls pw ph split img iw ih ins sx sy) = true →
      generatePdf accepts pw ph split img iw ih ins sx sy
      = Saved (pdfCalls pw ph split img iw ih ins sx sy) ∧
      pages (pdfCalls pw ph split img iw ih ins sx sy)
      = if decide (ins = EmptyString) then 1%nat else 2%nat) ∧
  (∀ ins sx sy ops,
      generatePdf accepts pw ph split img iw ih ins sx sy = Saved ops →
      ops = pdfCalls pw ph split img iw ih ins sx sy ∧
      pages ops = if decide (ins = EmptyString) then 1%nat else 2%nat) ∧
  (∀ w h g ops,
      handleDownloadPdfWithoutInstructions (generatePdf accepts pw ph split img iw ih) w h g
      = Saved ops →
      pages ops = 1%nat) ∧
  (∀ w h g ops,
      handleDownloadPdfWithInstructions (generatePdf accepts pw ph split img iw ih)
        None w h g = Saved ops →
      pages ops = 2%nat ∧
      textLines (split "Failed to generate instructions." (pw - 40 * 2)%float)
        40%float (40 + 20)%float ∈ ops) ∧
  (∀ answer w h g ops,
      answer ≠ EmptyString →
      handleDownloadPdfWithInstructions (generatePdf accepts pw ph split img iw ih)
        (Some answer) w h g = Saved ops →
      pages ops = 2%nat ∧
      textLines (split answer (pw - 40 * 2)%float) 40%float (40 + 20)%float ∈ ops) ∧
  (rejectsNaN accepts →
   ∀ ins sx sy,
     sx = 0 ∨ sy = 0 →
     ∃ taken,
       generatePdf accepts pw ph split img iw ih ins sx sy = Failed taken ∧
       pages taken = 1%nat ∧ ∀ filename, save filename ∉ taken).
Proof.
  assert (Hs : ∀ ins sx sy ops,
             generatePdf accepts pw ph split img iw ih ins sx sy = Saved ops →
             ops = pdfCalls pw ph split img iw ih ins sx sy).
  { intros ins sx sy ops H. by apply perform_Saved in H as [-> _]. }
  split; [|split; [|split; [|split; [|split]]]].
  - intros ins sx sy H. split; [by apply perform_saved | apply pages_pdfCalls].
  - intros ins sx sy ops H. rewrite (Hs _ _ _ _ H). split; [reflexivity|].
    apply pages_pdfCalls.
  - intros w h g ops H. unfold handleDownloadPdfWithoutInstructions in H.
    rewrite (Hs _ _ _ _ H). by rewrite pages_pdfCalls.
  - intros w h g ops H. unfold handleDownloadPdfWithInstructions in H. cbn zeta in H.
    simpl default in H. rewrite (Hs _ _ _ _ H).
    split; [by rewrite pages_pdfCalls | by apply instructions_printed].
  - intros answer w h g ops Ha H. unfold handleDownloadPdfWithInstructions in H.
    cbn zeta in H. simpl default in H. rewrite (Hs _ _ _ _ H).
    split; [|by apply instructions_printed].
    rewrite pages_pdfCalls. by destruct (decide _).
  - intros Hrej ins sx sy Hz.
    destruct (pdf_fails accepts pw ph split img iw ih ins sx sy Hrej Hz)
      as (taken & E & Hq & _).
    exists taken. split; [exact E|]. split.
    + apply pages_one. eapply Forall_impl; [exact Hq|]. by intros [].
    + intros filename Hin. rewrite Forall_forall in Hq. exact (Hq _ Hin).
Qed.

Lemma pdf_instruction_page_witness :
  generatePdf checksLines 446 631 (λ s _, [s]) "png" 320 240 "Start at the centre." 32 24
  = Saved (pdfCalls 446 631 (λ s _, [s]) "png" 320 240 "Start at the centre." 32 24) ∧
  pages (pdfCalls 446 631 (λ s _, [s]) "png" 320 240 "Start at the centre." 32 24) = 2%nat ∧
  ∃ taken,
    generatePdf checksLines 446 631 (λ s _, [s]) "png" 320 240 "Start at the centre." 32 0
    = Failed taken ∧ pages taken = 1%nat.
Proof.
  destruct (pdf_instruction_page checksLines 446 631 (λ s _, [s]) "png" 320 240)
    as (H1 & _ & _ & _ & _ & H6).
  destruct (H1 "Start at the centre." 32 24) as [E P]; [vm_compute; reflexivity|].
  split; [exact E|]. split; [exact P|].
  destruct (H6 checksLines_rejectsNaN "Start at the centre." 32 0)
    as (taken & Et & Pt & _); [by right|].
  exists taken. by split.
Defined.

(** X14: the grid of the PDF.  When the document is saved, only two line
    widths have been used, 0.5 for the lines at every stitch and 1 for the
    lines at every tenth; each line at a tenth is drawn over a line at a
    stitch with the same end points; with positive stitch counts there are
    as many lines as the counts say; and each number printed along the top
    or down the side is a positive multiple of ten within the stitch
    count, printed 5 units away from the grid at the end of the darker line
    of that step.  The document is saved when jsPDF takes every call; with
    no column it takes no line at all. *)
Theorem pdf_grid accepts lw0 pw ph split img iw ih ins sx sy :
  let size := pdfImgSize (pw - 40 * 2) (ph - 40 * 2) iw ih in
  (forallb accepts (pdfCalls pw ph split img iw ih ins sx sy) = true →
   ∃ ops, generatePdf accepts pw ph split img iw ih ins sx sy = Saved ops) ∧
  (∀ ops,
      generatePdf accepts pw ph split img iw ih ins sx sy = Saved ops →
      (∀ lw seg, (lw, seg) ∈ drawnLines lw0 ops → lw = 0.5%float ∨ lw = 1%float) ∧
      (∀ seg, (1%float, seg) ∈ drawnLines lw0 ops → (0.5%float, seg) ∈ drawnLines lw0 ops) ∧
      (0 < sx → 0 < sy →
       length (drawnLines lw0 ops)
       = Z.to_nat ((sx + 1) + (sy + 1) + (sx `div` 10 + 1) + (sy `div` 10 + 1))) ∧
      (∀ s x y, text s x y alignCenter ∈ ops →
                ∃ i, 10 ≤ i ≤ sx ∧ (10 | i) ∧ s = pretty i ∧ y = (40 + 30 - 5)%float ∧
                     (1%float, (x, (40 + 30)%float, x, (40 + 30 + size.2)%float))
                     ∈ drawnLines lw0 ops) ∧
      (∀ s x y, text s x y alignRight ∈ ops →
                ∃ i yl, 10 ≤ i ≤ sy ∧ (10 | i) ∧ s = pretty i ∧ x = (40 - 5)%float ∧
                        y = (yl + 3)%float ∧
                        (1%float, (40%float, yl, (40 + size.1)%float, yl))
                        ∈ drawnLines lw0 ops)) ∧
  (rejectsNaN accepts → sx = 0 →
   ∃ taken, generatePdf accepts pw ph split img iw ih ins sx sy = Failed taken ∧
            drawnLines lw0 taken = []).
Proof.
  intros size. split; [|split].
  - intros H. eexists. by apply perform_saved.
  - intros ops H. apply perform_Saved in H as [-> _]. cbn [app].
    rewrite drawn_pdfCalls. cbn zeta. fold size.
    split; [|split; [|split; [|split]]].
    + intros lw seg. rewrite !elem_of_app, !list_elem_of_fmap.
      intros [H|[H|[H|H]]]; destruct H as (i & H & _);
        apply (f_equal fst) in H; simpl in H; auto.
    + intros seg. rewrite !elem_of_app, !list_elem_of_fmap.
      intros [H|[H|[H|H]]]; destruct H as (i & H & Hi).
      * apply (f_equal fst) in H. destruct (half_not_one H).
      * apply (f_equal fst) in H. destruct (half_not_one H).
      * left. exists i. split; [|by apply countUp_tens].
        apply (f_equal snd) in H. simpl in H. by rewrite H.
      * right. left. exists i. split; [|by apply countUp_tens].
        apply (f_equal snd) in H. simpl in H. by rewrite H.
    + intros Hx Hy. rewrite !length_app, !length_fmap, !length_countUp.
      rewrite !Z.sub_0_r, !Z.div_1_r.
      assert (0 ≤ sx `div` 10) by (apply Z.div_pos; lia).
      assert (0 ≤ sy `div` 10) by (apply Z.div_pos; lia). lia.
    + intros s x y H. apply top_label in H as (i & Hi & -> & -> & ->).
      exists i. pose proof (countUp_labels _ _ Hi) as Hi'.
      apply elem_of_countUp in Hi as (k & Hk & -> & Hle); [|lia].
      split; [lia|]. split; [exists (k + 1); lia|]. split; [reflexivity|].
      split; [reflexivity|].
      rewrite !elem_of_app, !list_elem_of_fmap. right. right. left.
      exists (10 + 10 * k). done.
    + intros s x y H. apply side_label in H as (i & Hi & -> & -> & ->).
      pose proof (countUp_labels _ _ Hi) as Hi'.
      apply elem_of_countUp in Hi as (k & Hk & -> & Hle); [|lia].
      exists (10 + 10 * k). eexists.
      split; [lia|]. split; [exists (k + 1); lia|]. split; [reflexivity|].
      split; [reflexivity|]. split; [reflexivity|].
      rewrite !elem_of_app, !list_elem_of_fmap. right. right. right.
      exists (10 + 10 * k). done.
  - intros Hrej ->.
    destruct (pdf_fails accepts pw ph split img iw ih ins 0 sy Hrej) as (taken & E & _ & Hq);
      [by left|].
    exists taken. split; [exact E|].
    specialize (Hq eq_refl). clear E.
    revert lw0. induction Hq as [|op ops Hop _ IH]; intros lw0; [reflexivity|].
    destruct op; try contradiction; simpl; apply IH.
Qed.

Lemma pdf_grid_witness :
  ∃ ops,
    generatePdf checksLines 446 631 (λ s _, [s]) "png" 320 240 "" 32 24 = Saved ops ∧
    length (drawnLines 0 ops) = 65%nat.
Proof.
  destruct (pdf_grid checksLines 0 446 631 (λ s _, [s]) "png" 320 240 "" 32 24)
    as (H1 & H2 & _).
  destruct H1 as [ops E]; [vm_compute; reflexivity|].
  exists ops. split; [exact E|].
  destruct (H2 ops E) as (_ & _ & Hn & _). apply Hn; lia.
Defined.

(** ** BackgroundResolver: the mask reaches every background cell *)

Section Sweep.
Variable stitchGrid : Grid.
Variables width height : Z.
Hypothesis stitch_wf : wf_grid stitchGrid width height.

Let flooding := flooding stitchGrid width height.
Let reachable := reachable stitchGrid width height.
Let swept := swept stitchGrid width height.
Let within := inside width height.
Let free := unoccupied stitchGrid.

(** Marking a reachable unoccupied cell and queueing it. *)
Lemma push_marks st y x :
  flooding st → within (y, x) → free (y, x) → reachable (y, x) →
  ∃ bg, mark st.1 y x = Ok bg ∧ flooding (bg, st.2 ++ [(y, x)]) ∧
        (∀ c, marked bg c ↔ marked st.1 c ∨ c = (y, x)) ∧
        (read st.1 y x = Ok false → budget (bg, st.2 ++ [(y, x)]) = budget st).
Proof.
  intros Hfl [Hy Hx] Hfree Hreach. simpl in Hy, Hx.
  destruct (flooding_row stitchGrid width height st y Hfl Hy) as (row & Hrow & _).
  destruct (mark_read st.1 y x row Hrow) as (bg & E & _ & Hread); [lia|].
  destruct (flooding_mark stitchGrid width height st y x Hfl Hy)
    as (bg' & E' & Hfl' & Hb); try lia; [exact Hfree | intros _; exact Hreach |].
  assert (bg' = bg) as -> by congruence.
  exists bg. split; [exact E|]. split; [exact Hfl'|]. split.
  - intros [cy cx]. unfold marked. simpl. rewrite Hread.
    destruct (decide _) as [[-> ->]|Hne].
    + split; [by right | done].
    + split; [by left|]. intros [H|[= -> ->]]; [exact H | tauto].
  - intros Hf. apply Hb; [lia | exact Hf].
Qed.

Lemma seed_marks st y x :
  flooding st → within (y, x) → border width height (y, x) →
  ∃ st', seed stitchGrid y x st = Ok st' ∧ flooding st' ∧
         (∀ c, marked st'.1 c ↔ marked st.1 c ∨ (c = (y, x) ∧ free (y, x))) ∧
         (∀ c, c ∈ st'.2 ↔ c ∈ st.2 ∨ (c = (y, x) ∧ free (y, x))).
Proof.
  intros Hfl Hin Hb. unfold seed.
  destruct (read_ok stitchGrid width height y x stitch_wf (proj1 Hin)) as [occ Eocc].
  rewrite Eocc. simpl. destruct occ.
  - exists st. split; [reflexivity|]. split; [exact Hfl|].
    assert (Hno : ¬ free (y, x)).
    { unfold free, unoccupied. simpl. rewrite Eocc. discriminate. }
    split; intros c; tauto.
  - destruct (push_marks st y x Hfl Hin Eocc) as (bg & E & Hfl' & Hm & _).
    { by apply reach_border. }
    rewrite E. simpl. eexists. split; [reflexivity|]. split; [exact Hfl'|]. simpl.
    split; intros c.
    + rewrite Hm. assert (free (y, x)) by exact Eocc. tauto.
    + rewrite elem_of_app, list_elem_of_singleton.
      assert (free (y, x)) by exact Eocc. tauto.
Qed.

(** During the seeding every marked cell is queued. *)
Let seeding (st : FloodState) : Prop :=
  flooding st ∧ ∀ c, marked st.1 c → c ∈ st.2.

Lemma seed_seeding st y x :
  seeding st → within (y, x) → border width height (y, x) →
  ∃ st', seed stitchGrid y x st = Ok st' ∧ seeding st' ∧
         ∀ c, marked st'.1 c ↔ marked st.1 c ∨ (c = (y, x) ∧ free (y, x)).
Proof.
  intros [Hfl Hq] Hin Hb.
  destruct (seed_marks st y x Hfl Hin Hb) as (st' & E & Hfl' & Hm & Hq').
  exists st'. split; [exact E|]. split; [|exact Hm].
  split; [exact Hfl'|]. intros c Hc. apply Hq'. apply Hm in Hc as [Hc|Hc]; auto.
Qed.

Hypothesis width_pos : 0 < width.
Hypothesis height_pos : 0 < height.

Lemma seedRow_seeding st y :
  seeding st → 0 ≤ y < height →
  ∃ st', seedRow stitchGrid width y st = Ok st' ∧ seeding st' ∧
         ∀ c, marked st'.1 c ↔
              marked st.1 c ∨ (c.1 = y ∧ (c.2 = 0 ∨ c.2 = width - 1) ∧ free c).
Proof.
  intros Hs Hy. unfold seedRow.
  destruct (seed_seeding st y 0 Hs) as (st1 & E1 & Hs1 & Hm1).
  { split; simpl; lia. }
  { right. right. left. reflexivity. }
  rewrite E1. simpl. destruct (decide (1 < width)) as [Hw|Hw].
  - destruct (seed_seeding st1 y (width - 1) Hs1) as (st2 & E2 & Hs2 & Hm2).
    { split; simpl; lia. }
    { right. right. right. reflexivity. }
    exists st2. split; [exact E2|]. split; [exact Hs2|].
    intros [cy cx]. rewrite Hm2, Hm1. simpl. split.
    + intros H; repeat (destruct H as [H|H]); auto;
        destruct H as [Heq H]; injection Heq as -> ->; auto.
    + intros [H|(-> & [-> | ->] & H)]; auto.
  - exists st1. split; [reflexivity|]. split; [exact Hs1|].
    intros [cy cx]. rewrite Hm1. simpl. split.
    + intros H; repeat (destruct H as [H|H]); auto;
        destruct H as [Heq H]; injection Heq as -> ->; auto.
    + intros [H|(-> & [-> | ->] & H)]; auto.
      right. replace (width - 1) with 0 in * by lia. auto.
Qed.

Lemma seedColumn_seeding st x :
  seeding st → 0 ≤ x < width →
  ∃ st', seedColumn stitchGrid height x st = Ok st' ∧ seeding st' ∧
         ∀ c, marked st'.1 c ↔
              marked st.1 c ∨ (c.2 = x ∧ (c.1 = 0 ∨ c.1 = height - 1) ∧ free c).
Proof.
  intros Hs Hx. unfold seedColumn.
  destruct (seed_seeding st 0 x Hs) as (st1 & E1 & Hs1 & Hm1).
  { split; simpl; lia. }
  { left. reflexivity. }
  rewrite E1. simpl. destruct (decide (1 < height)) as [Hh|Hh].
  - destruct (seed_seeding st1 (height - 1) x Hs1) as (st2 & E2 & Hs2 & Hm2).
    { split; simpl; lia. }
    { right. left. reflexivity. }
    exists st2. split; [exact E2|]. split; [exact Hs2|].
    intros [cy cx]. rewrite Hm2, Hm1. simpl. split.
    + intros H; repeat (destruct H as [H|H]); auto;
        destruct H as [Heq H]; injection Heq as -> ->; auto.
    + intros [H|(-> & [-> | ->] & H)]; auto.
  - exists st1. split; [reflexivity|]. split; [exact Hs1|].
    intros [cy cx]. rewrite Hm1. simpl. split.
    + intros H; repeat (destruct H as [H|H]); auto;
        destruct H as [Heq H]; injection Heq as -> ->; auto.
    + intros [H|(-> & [-> | ->] & H)]; auto.
      right. replace (height - 1) with 0 in * by lia. auto.
Qed.

(** After the two seeding loops every unoccupied border cell is marked and
    every marked cell is queued. *)
Lemma seeded :
  ∃ st1 st2,
    forEach (seedRow stitchGrid width) (seqZ 0 height)
      (replicate (Z.to_nat height) (replicate (Z.to_nat width) false), []) = Ok st1 ∧
    forEach (seedColumn stitchGrid height) (seqZ 0 width) st1 = Ok st2 ∧
    seeding st2 ∧
    ∀ c, within c → border width height c → free c → marked st2.1 c.
Proof.
  destruct (forEach_collect (seedRow stitchGrid width) seeding
              (λ st c, marked st.1 c)
              (λ y c, c.1 = y ∧ (c.2 = 0 ∨ c.2 = width - 1) ∧ free c)
              (seqZ 0 height)) with
    (s := (replicate (Z.to_nat height) (replicate (Z.to_nat width) false), @nil Cell))
    as (st1 & E1 & Hs1 & Hm1).
  { intros y st Hy Hs. apply elem_of_seqZ in Hy. apply seedRow_seeding; [exact Hs | lia]. }
  { split.
    - split; [|split; [|split]]; simpl.
      + apply length_replicate.
      + apply Forall_replicate. intros _. apply length_replicate.
      + intros y x Hy Hx. rewrite read_replicate by assumption. discriminate.
      + constructor.
    - intros [cy cx]. unfold marked. simpl. unfold read, at_.
      destruct (decide _); [|discriminate].
      destruct (replicate _ _ !! _) as [row|] eqn:E; [|discriminate].
      apply lookup_replicate in E as [-> _].
      destruct (decide _); [|discriminate].
      destruct (replicate _ _ !! _) as [b|] eqn:E; [|discriminate].
      apply lookup_replicate in E as [-> _]. discriminate. }
  destruct (forEach_collect (seedColumn stitchGrid height) seeding
              (λ st c, marked st.1 c)
              (λ x c, c.2 = x ∧ (c.1 = 0 ∨ c.1 = height - 1) ∧ free c)
              (seqZ 0 width)) with (s := st1)
    as (st2 & E2 & Hs2 & Hm2).
  { intros x st Hx Hs. apply elem_of_seqZ in Hx. apply seedColumn_seeding; [exact Hs | lia]. }
  { exact Hs1. }
  exists st1, st2. split; [exact E1|]. split; [exact E2|]. split; [exact Hs2|].
  intros [cy cx] [Hy Hx] Hb Hfree. simpl in *. apply Hm2. rewrite Hm1. simpl.
  destruct Hb as [Hb|[Hb|[Hb|Hb]]]; simpl in Hb.
  - right. exists cx. split; [apply elem_of_seqZ; lia | auto].
  - right. exists cx. split; [apply elem_of_seqZ; lia | auto].
  - left. right. exists cy. split; [apply elem_of_seqZ; lia | auto].
  - left. right. exists cy. split; [apply elem_of_seqZ; lia | auto].
Qed.

Lemma neighbors_adjacent c d : adjacent c d → d ∈ neighbors c.
Proof.
  destruct c as [y x], d as [dy dx]. unfold adjacent, neighbors. simpl.
  rewrite !elem_of_cons.
  intros [[-> [-> | ->]]|[-> [-> | ->]]]; auto.
Qed.

(** What one neighbour test does to the marks and to the queue. *)
Lemma visit_marks c n st :
  flooding st → reachable c → adjacent c n →
  ∃ st', visit stitchGrid width height n st = Ok st' ∧ flooding st' ∧
         budget st' = budget st ∧
         (∀ d, marked st'.1 d ↔ marked st.1 d ∨ (d = n ∧ within n ∧ free n)) ∧
         (∀ d, d ∈ st.2 → d ∈ st'.2) ∧
         (∀ d, marked st'.1 d → marked st.1 d ∨ d ∈ st'.2).
Proof.
  intros Hfl Hc Hadj. unfold visit. destruct n as [ny nx].
  destruct (decide _) as [Hin|Hout].
  - assert (Hi : within (ny, nx)) by (split; simpl; lia).
    destruct (flooding_row stitchGrid width height st ny Hfl) as (row & Hrow & _); [lia|].
    destruct (read st.1 ny nx) as [b| |] eqn:Eb;
      [|unfold read in Eb; rewrite Hrow in Eb; discriminate..].
    simpl. destruct b.
    { exists st. split; [reflexivity|]. split; [exact Hfl|]. split; [reflexivity|].
      split; [|split; [auto | auto]].
      intros d. split; [by left|]. intros [H|(-> & _)]; [exact H | exact Eb]. }
    destruct (read_ok stitchGrid width height ny nx stitch_wf) as [s Es]; [lia|].
    rewrite Es. simpl. destruct s.
    { exists st. split; [reflexivity|]. split; [exact Hfl|]. split; [reflexivity|].
      split; [|split; [auto | auto]].
      intros d. split; [by left|]. intros [H|(_ & _ & Hf)]; [exact H|].
      unfold free, unoccupied in Hf. simpl in Hf. congruence. }
    destruct (push_marks st ny nx Hfl Hi Es) as (bg & E & Hfl' & Hm & Hb).
    { by apply (reach_step _ _ _ c). }
    rewrite E. simpl. eexists. split; [reflexivity|]. split; [exact Hfl'|].
    split; [by apply Hb|]. simpl. split; [|split].
    + intros d. rewrite Hm. assert (free (ny, nx)) by exact Es. tauto.
    + intros d Hd. apply elem_of_app. by left.
    + intros d Hd. apply Hm in Hd as [Hd| ->]; [by left|].
      right. apply elem_of_app. right. apply list_elem_of_here.
  - exists st. split; [reflexivity|]. split; [exact Hfl|]. split; [reflexivity|].
    split; [|split; [auto | auto]].
    intros d. split; [by left|]. intros [H|(_ & [Hy Hx] & _)]; [exact H|].
    simpl in *. lia.
Qed.

(** The flood fill leaves no marked cell with an unmarked background
    neighbour, and never unmarks a cell. *)
Lemma flood_swept fuel : ∀ st bg,
  flooding st → swept st →
  flood fuel stitchGrid width height st = Ok bg →
  swept (bg, []) ∧ ∀ c, marked st.1 c → marked bg c.
Proof.
  induction fuel as [|fuel IH]; intros [bg0 queue] bg Hfl Hsw.
  - destruct queue as [|c queue]; [|discriminate]. simpl. intros [= <-]. auto.
  - destruct queue as [|c queue]; [simpl; intros [= <-]; auto|].
    simpl.
    assert (Hc : reachable c).
    { destruct Hfl as (_ & _ & _ & Hq). simpl in Hq.
      apply Forall_cons in Hq as [Hq _]. by apply Hq. }
    assert (Hfl0 : flooding (bg0, queue)).
    { destruct Hfl as (H1 & H2 & H3 & Hq). simpl in *.
      apply Forall_cons in Hq as [_ Hq]. split; [|split; [|split]]; assumption. }
    destruct (forEach_collect (visit stitchGrid width height)
                (λ st, flooding st ∧
                       (∀ d, d ∈ queue → d ∈ st.2) ∧
                       (∀ d, marked st.1 d → marked bg0 d ∨ d ∈ st.2))
                (λ st d, marked st.1 d)
                (λ n d, d = n ∧ within n ∧ free n)
                (neighbors c)) with (s := (bg0, queue))
      as (st' & E & (Hfl' & Hq' & Hnew) & Hm).
    { intros n st Hn (Hst & Hq & Hnew).
      destruct (visit_marks c n st Hst Hc (adjacent_neighbors c n Hn))
        as (st' & E & H1 & _ & H2 & H3 & H4).
      exists st'. split; [exact E|]. split; [|exact H2].
      split; [exact H1|]. split; [auto|].
      intros d Hd. apply H4 in Hd as [Hd|Hd]; [|by right].
      apply Hnew in Hd as [Hd|Hd]; auto. }
    { split; [exact Hfl0|]. split; auto. }
    rewrite E. simpl. intros Hflood.
    destruct (IH st' bg Hfl') as [Hsw' Hmono]; [|exact Hflood|].
    + intros d Hd Hmd.
      destruct (Hnew d Hmd) as [Hold|Hqd]; [|by left].
      destruct (Hsw d Hd Hold) as [Hdq|Hclosed].
      * simpl in Hdq. apply elem_of_cons in Hdq as [->|Hdq]; [|left; auto].
        right. intros e Hadj He Hfree. apply Hm. right.
        exists e. split; [by apply neighbors_adjacent | auto].
      * right. intros e Hadj He Hfree. apply Hm. left. simpl. auto.
    + split; [exact Hsw'|]. intros d Hd. apply Hmono. apply Hm. by left.
Qed.

Lemma reachable_inside c : reachable c → within c.
Proof. by intros [? ? ?|? ? ? ? ? ?]. Qed.

Lemma getBackgroundGrid_complete bg :
  getBackgroundGrid stitchGrid width height = Ok bg →
  ∀ c, reachable c → marked bg c.
Proof.
  unfold getBackgroundGrid, newGrid. destruct (decide _); [lia|]. simpl.
  destruct seeded as (st1 & st2 & E1 & E2 & [Hfl Hq] & Hseed).
  rewrite E1. simpl. rewrite E2. simpl. intros Hflood.
  destruct (flood_swept (unmarked st2.1 + length st2.2) st2 bg Hfl) as [Hsw Hmono];
    [|exact Hflood|].
  { intros c _ Hc. left. by apply Hq. }
  intros c Hc. induction Hc as [c Hin Hb Hfree | c d Hc IH Hadj Hin Hfree].
  - apply Hmono. by apply Hseed.
  - destruct (Hsw c (reachable_inside c Hc) IH) as [Hnil|Hclosed].
    + by apply elem_of_nil in Hnil.
    + by apply Hclosed.
Qed.
End Sweep.

(** X15: the flood fill misses nothing.  On a grid with at least one row
    and one column the mask is true at every unoccupied cell that a
    4-connected path of unoccupied cells joins to the border, so the mask is
    true exactly at those cells, and it has the dimensions of the grid. *)
Theorem background_mask_complete stitchGrid width height :
  wf_grid stitchGrid width height → 0 < width → 0 < height →
  ∃ bg, getBackgroundGrid stitchGrid width height = Ok bg ∧
        wf_grid bg width height ∧
        ∀ y x, 0 ≤ y < height → 0 ≤ x < width →
               (read bg y x = Ok true ↔ reachable stitchGrid width height (y, x)).
Proof.
  intros Hwf Hw Hh.
  destruct (getBackgroundGrid_spec stitchGrid width height Hwf Hh) as (bg & E & Hfl).
  exists bg. split; [exact E|].
  split; [apply (flooding_wf stitchGrid); [exact Hfl | lia | lia]|].
  intros y x Hy Hx. split.
  - intros Hm. destruct Hfl as (_ & _ & Hsound & _). by apply (Hsound y x Hy Hx).
  - intros Hr. by apply (getBackgroundGrid_complete stitchGrid width height Hwf Hw Hh bg E (y, x)).
Qed.

Lemma background_mask_complete_witness :
  ∃ bg, getBackgroundGrid dot3 3 3 = Ok bg ∧ wf_grid bg 3 3 ∧
        (read bg 0 0 = Ok true ↔ reachable dot3 3 3 (0, 0)).
Proof.
  destruct (background_mask_complete dot3 3 3) as (bg & E & Hwf & H); [|lia|lia|].
  { split; [lia|]. split; [lia|]. split; [reflexivity|]. repeat constructor. }
  exists bg. split; [exact E|]. split; [exact Hwf|]. apply H; lia.
Defined.

(** ** PathSimplifier and ContourTracer: the shape of the outlines *)

Lemma aligned_sym p q : aligned p q → aligned q p.
Proof. unfold aligned. intros [H|H]; auto. Qed.

(** A point in line with an aligned pair lies on the same grid line. *)
Lemma aligned_through p c n :
  aligned p c → p ≠ c → cross_product p c n = 0 → aligned p n.
Proof.
  destruct p as [px py], c as [cx cy], n as [nx ny].
  unfold aligned, cross_product. simpl. intros [H|H] Hne Hc; subst.
  - left. assert (cy ≠ py) by congruence. nia.
  - right. assert (cx ≠ px) by congruence. nia.
Qed.

Lemma rectilinear_cons p q l :
  rectilinear (p :: q :: l) ↔ aligned p q ∧ rectilinear (q :: l).
Proof. reflexivity. Qed.

Lemma rectilinear_tail l : rectilinear l → rectilinear (tail l).
Proof. destruct l as [|p [|q l]]; simpl; tauto. Qed.

Lemma rectilinear_removelast l : rectilinear l → rectilinear (removelast l).
Proof.
  induction l as [|p [|q [|r l]] IH]; try (simpl; tauto).
  intros [H1 H2]. change (removelast (p :: q :: r :: l)) with (p :: removelast (q :: r :: l)).
  specialize (IH H2). change (removelast (q :: r :: l)) with (q :: removelast (r :: l)) in *.
  split; assumption.
Qed.

Lemma rectilinear_snoc path c n :
  rectilinear path → last path = Some c → aligned c n → rectilinear (path ++ [n]).
Proof.
  induction path as [|p [|q l] IH]; [discriminate| |].
  - simpl. intros _ [= ->] H. auto.
  - intros [H1 H2] Hl Ha. change ((p :: q :: l) ++ [n]) with (p :: q :: (l ++ [n])).
    split; [exact H1|]. apply IH; assumption.
Qed.

Lemma kept_rectilinear rest : ∀ prev,
  NoDup (prev :: rest) → rectilinear rest →
  (∀ c tl, rest = c :: tl → aligned prev c) →
  rectilinear (prev :: kept prev rest).
Proof.
  induction rest as [|c [|n tl] IH]; intros prev Hnd Hr Ha.
  - exact I.
  - simpl. split; [by eapply Ha | exact I].
  - rewrite kept_step. destruct Hr as [Hcn Hr].
    apply NoDup_cons in Hnd as [Hp Hnd].
    destruct (abs_above_eps _) eqn:E.
    + apply rectilinear_cons. split; [by eapply Ha|].
      apply IH; [exact Hnd | exact Hr |]. by intros ? ? [= <- <-].
    + apply IH; [| exact Hr |].
      * apply NoDup_cons. split.
        -- intros H. apply Hp. by right.
        -- by apply NoDup_cons in Hnd as [_ Hnd].
      * intros ? ? [= <- <-].
        apply (aligned_through prev c n); [by eapply Ha| |].
        -- intros ->. apply Hp. by left.
        -- destruct (decide (cross_product prev c n = 0)) as [|Hne]; [done|].
           apply abs_above_eps_spec in Hne. congruence.
Qed.

Lemma simplifyPath_rectilinear path :
  NoDup path → rectilinear path → rectilinear (simplifyPath path).
Proof.
  intros Hnd Hr. destruct (decide (len path < 3)) as [Hs|Hl].
  - by rewrite simplifyPath_short.
  - destruct path as [|p0 rest]; [done|].
    rewrite simplifyPath_long by lia.
    assert (Hk : rectilinear (p0 :: kept p0 rest)).
    { apply kept_rectilinear; [exact Hnd| |].
      - destruct rest as [|c tl]; [done|]. by destruct Hr.
      - intros c tl ->. by destruct Hr. }
    unfold seam_first, seam_last.
    repeat (destruct (decide _) || destruct (abs_below_eps _));
      auto using rectilinear_tail, rectilinear_removelast.
Qed.

Lemma straight_ensure k m : straight m → straight (ensure k m).
Proof.
  intros Hs k' es e Hin He. apply (Hs k' es e); [|exact He].
  unfold ensure in Hin. destruct (bool_decide _); [assumption|].
  apply elem_of_app in Hin as [Hin|Hin]; [assumption|].
  apply list_elem_of_singleton in Hin. injection Hin as -> ->. inversion He.
Qed.

Lemma straight_pushAt k e m :
  straight m → aligned (p1 e) (p2 e) → straight (pushAt k e m).
Proof.
  intros Hs Ha k' es e' Hin He.
  unfold pushAt in Hin. apply list_elem_of_fmap in Hin as ([k0 es0] & E & Hin).
  simpl in E. destruct (bool_decide _).
  - injection E as -> ->. apply elem_of_app in He as [He|He]; [exact (Hs _ _ _ Hin He)|].
    by apply list_elem_of_singleton in He as ->.
  - injection E as -> ->. exact (Hs _ _ _ Hin He).
Qed.

Lemma straight_addEdgeToMap a b m : straight m → aligned a b → straight (addEdgeToMap a b m).
Proof.
  intros Hs Ha. unfold addEdgeToMap.
  apply straight_pushAt; [|exact Ha]. apply straight_pushAt; [|exact Ha].
  by apply straight_ensure, straight_ensure.
Qed.

Lemma straight_foldl (f : Point → Point * Point) (l : list Point) :
  (∀ k, aligned (f k).1 (f k).2) →
  ∀ m, straight m → straight (foldl (λ m k, addEdgeToMap (f k).1 (f k).2 m) m l).
Proof.
  intros Hf. induction l as [|k l IH]; intros m Hs; [assumption|].
  simpl. apply IH. by apply straight_addEdgeToMap.
Qed.

Lemma straight_buildMap es : straight (buildMap es).
Proof.
  unfold buildMap.
  apply (straight_foldl (λ k, ((k.1, k.2), (k.1, k.2 + 1)))); [by left|].
  apply (straight_foldl (λ k, ((k.1, k.2), (k.1 + 1, k.2)))); [by right|].
  intros k es' e Hin. inversion Hin.
Qed.

Lemma candidate_ends current e k :
  candidate current e = Some k →
  (p1 e = current ∧ k = p2 e) ∨ (p2 e = current ∧ k = p1 e).
Proof.
  unfold candidate. destruct (bool_decide (p2 e = current)) eqn:E2.
  - apply bool_decide_eq_true in E2. intros [= <-]. by right.
  - destruct (bool_decide (p1 e = current)) eqn:E1; [|discriminate].
    apply bool_decide_eq_true in E1. intros [= <-]. by left.
Qed.

Lemma nextPoint_edge es current visited k :
  nextPoint es current visited = Some k →
  ∃ e, e ∈ es ∧ ((p1 e = current ∧ k = p2 e) ∨ (p2 e = current ∧ k = p1 e)).
Proof.
  induction es as [|e es IH]; simpl; [discriminate|].
  assert (Hrec : nextPoint es current visited = Some k →
                 ∃ e', e' ∈ e :: es ∧
                       ((p1 e' = current ∧ k = p2 e') ∨ (p2 e' = current ∧ k = p1 e'))).
  { intros H. destruct (IH H) as (e' & He' & Hk). exists e'. split; [by right | exact Hk]. }
  destruct (candidate current e) as [c|] eqn:Ec; [|exact Hrec].
  destruct (bool_decide (c ∈ visited)) eqn:Ev; [exact Hrec|].
  intros [= ->]. exists e. split; [by left | by apply candidate_ends].
Qed.

(** A step of the walk follows an edge of the map. *)
Lemma nextPoint_aligned m current visited k :
  straight m → nextPoint (getEdges current m) current visited = Some k → aligned current k.
Proof.
  intros Hs H. apply nextPoint_edge in H as (e & He & Hk).
  apply getEdges_in in He as (es & Hin & He). pose proof (Hs _ _ _ Hin He) as Ha.
  destruct Hk as [[<- ->]|[<- ->]]; [exact Ha | by apply aligned_sym].
Qed.

Lemma walk_rectilinear m : straight m → ∀ fuel visited current path r,
  rectilinear path → last path = Some current →
  walk fuel m visited current path = Ok r → rectilinear r.1.
Proof.
  intros Hs fuel. induction fuel as [|fuel IH]; intros visited current path r Hr Hl; simpl.
  - destruct (nextPoint _ _ _); [discriminate|]. by intros [= <-].
  - destruct (nextPoint _ _ _) as [next|] eqn:En; [|by intros [= <-]].
    apply IH.
    + eapply rectilinear_snoc; [exact Hr | exact Hl |].
      by eapply nextPoint_aligned.
    + by rewrite last_snoc.
Qed.

Lemma traceFrom_squared m start st :
  closed m → straight m → start ∈ keys m → traced m st → squared st →
  ∃ st', traceFrom m start st = Ok st' ∧ traced m st' ∧ squared st'.
Proof.
  intros Hc Hs Hstart Ht Hsq.
  destruct (traceFrom_spec m start st Hc Hstart Ht) as (st' & E & Ht').
  exists st'. split; [exact E|]. split; [exact Ht'|].
  unfold traceFrom in E. destruct (bool_decide _) eqn:Ev; [by injection E as <-|].
  apply bool_decide_eq_false in Ev.
  destruct Ht as (Hnd & Hsub & _).
  destruct (walk_spec m Hc (length m) (st.1 ++ [start]) start [start])
    as (ext & Ew & Hnd' & _).
  { by apply NoDup_snoc. }
  { intros x Hx. apply elem_of_app in Hx as [Hx|Hx]; [auto|].
    by apply list_elem_of_singleton in Hx as ->. }
  { unfold keys. rewrite length_fmap, length_app. lia. }
  assert (Hrect : rectilinear ([start] ++ ext)).
  { apply (walk_rectilinear m Hs (length m) (st.1 ++ [start]) start [start]
             ([start] ++ ext, (st.1 ++ [start]) ++ ext)); [exact I | reflexivity | exact Ew]. }
  rewrite Ew in E. simpl in E.
  destruct (decide _); injection E as <-; [|exact Hsq].
  unfold squared. simpl. apply Forall_app. split; [exact Hsq|].
  apply Forall_singleton. apply simplifyPath_rectilinear; [|exact Hrect].
  rewrite <- app_assoc in Hnd'. by apply NoDup_app in Hnd' as (_ & _ & Hnd').
Qed.

Lemma tracePaths_squared m :
  closed m → straight m →
  ∃ paths, tracePaths m = Ok paths ∧
           Forall rectilinear paths ∧ ∀ path x, path ∈ paths → x ∈ path → x ∈ keys m.
Proof.
  intros Hc Hs. unfold tracePaths.
  destruct (forEach_inv (traceFrom m) (λ st, traced m st ∧ squared st) (keys m) ([], []))
    as (st & E & Ht & Hsq).
  - split; [|constructor].
    unfold traced. simpl. repeat split; try constructor; intros x Hx; inversion Hx.
  - intros k st Hk [Hst Hsq]. by apply traceFrom_squared.
  - exists st.2. rewrite E. split; [reflexivity|]. split; [exact Hsq|].
    destruct Ht as (_ & Hsub & _ & Hin & _).
    intros path x Hp Hx. apply Hsub, Hin, elem_of_concat. eauto.
Qed.

Lemma keys_addEdgeToMap a b m k :
  k ∈ keys (addEdgeToMap a b m) ↔ k ∈ keys m ∨ k = a ∨ k = b.
Proof.
  unfold addEdgeToMap. rewrite !keys_pushAt, !keys_ensure. tauto.
Qed.

Lemma keys_foldl (f : Point → Point * Point) (l : list Point) k :
  ∀ m, k ∈ keys (foldl (λ m k, addEdgeToMap (f k).1 (f k).2 m) m l) ↔
       k ∈ keys m ∨ ∃ k0, k0 ∈ l ∧ (k = (f k0).1 ∨ k = (f k0).2).
Proof.
  induction l as [|k0 l IH]; intros m; simpl.
  - split; [by left|]. intros [H|(k0 & H & _)]; [exact H | by apply elem_of_nil in H].
  - rewrite IH, keys_addEdgeToMap. split.
    + intros [[H|H]|(k1 & H1 & H)]; [by left | |].
      * right. exists k0. split; [by left | exact H].
      * right. exists k1. split; [by right | exact H].
    + intros [H|(k1 & H1 & H)]; [by left; left|].
      apply elem_of_cons in H1 as [->|H1]; [left; by right|].
      right. exists k1. by split.
Qed.

(** The keys of the map are the end points of the boundary edges. *)
Lemma keys_buildMap es k :
  k ∈ keys (buildMap es) ↔
  (∃ k0, k0 ∈ es.1 ∧ (k = k0 ∨ k = (k0.1 + 1, k0.2))) ∨
  (∃ k0, k0 ∈ es.2 ∧ (k = k0 ∨ k = (k0.1, k0.2 + 1))).
Proof.
  unfold buildMap.
  rewrite (keys_foldl (λ k, ((k.1, k.2), (k.1, k.2 + 1)))).
  rewrite (keys_foldl (λ k, ((k.1, k.2), (k.1 + 1, k.2)))). simpl.
  assert (Hp : ∀ p : Point, (p.1, p.2) = p) by (by intros []).
  setoid_rewrite Hp. split.
  - intros [[H|H]|H]; [by apply elem_of_nil in H | by left | by right].
  - intros [H|H]; [left; by right | by right].
Qed.

Lemma boundary_key_corner stitchGrid backgroundGrid width height es k :
  (∀ horizontal k,
      inEdges es horizontal k ↔
      ∃ y x, 0 ≤ y < height ∧ 0 ≤ x < width ∧
             selects stitchGrid backgroundGrid width height y x horizontal k) →
  k ∈ keys (buildMap es) →
  ∃ y x, 0 ≤ y < height ∧ 0 ≤ x < width ∧
         read stitchGrid y x = Ok true ∧ cornerOf k (y, x).
Proof.
  intros Hes Hk. apply keys_buildMap in Hk as [(k0 & Hk0 & Hk)|(k0 & Hk0 & Hk)].
  - apply (Hes true k0) in Hk0 as (y & x & Hy & Hx & Hocc & Hsel).
    exists y, x. split; [exact Hy|]. split; [exact Hx|]. split; [exact Hocc|].
    unfold cornerOf. simpl.
    destruct Hsel as [[-> _]|[-> _]], Hk as [-> | ->]; simpl; lia.
  - apply (Hes false k0) in Hk0 as (y & x & Hy & Hx & Hocc & Hsel).
    exists y, x. split; [exact Hy|]. split; [exact Hx|]. split; [exact Hocc|].
    unfold cornerOf. simpl.
    destruct Hsel as [[-> _]|[-> _]], Hk as [-> | ->]; simpl; lia.
Qed.

Lemma trace_shape stitchGrid backgroundGrid width height :
  wf_grid stitchGrid width height → wf_grid backgroundGrid width height →
  ∃ paths,
    traceAndSimplifyContours stitchGrid backgroundGrid width height = Ok paths ∧
    Forall rectilinear paths ∧
    ∀ path k, path ∈ paths → k ∈ path →
      ∃ y x, 0 ≤ y < height ∧ 0 ≤ x < width ∧
             read stitchGrid y x = Ok true ∧ cornerOf k (y, x).
Proof.
  intros Hs Hb. unfold traceAndSimplifyContours.
  destruct (boundaryEdges_spec _ _ _ _ Hs Hb) as (es & E & Hes). rewrite E. simpl.
  destruct (tracePaths_squared (buildMap es) (closed_buildMap es) (straight_buildMap es))
    as (paths & Ep & Hr & Hkeys).
  exists paths. split; [exact Ep|]. split; [exact Hr|]. intros path k Hp Hk.
  exact (boundary_key_corner _ _ _ _ _ k Hes (Hkeys path k Hp Hk)).
Qed.

(** X16: every point of every outline is a corner of an occupied cell of
    the grid, so it lies on the lattice from (0, 0) to (width, height). *)
Theorem outline_corners stitchGrid backgroundGrid width height :
  wf_grid stitchGrid width height → wf_grid backgroundGrid width height →
  ∃ paths,
    traceAndSimplifyContours stitchGrid backgroundGrid width height = Ok paths ∧
    ∀ path k, path ∈ paths → k ∈ path →
      0 ≤ k.1 ≤ width ∧ 0 ≤ k.2 ≤ height ∧
      ∃ y x, 0 ≤ y < height ∧ 0 ≤ x < width ∧
             read stitchGrid y x = Ok true ∧ cornerOf k (y, x).
Proof.
  intros Hs Hb.
  destruct (trace_shape stitchGrid backgroundGrid width height Hs Hb)
    as (paths & Ep & _ & Hkeys).
  exists paths. split; [exact Ep|]. intros path k Hp Hk.
  destruct (Hkeys path k Hp Hk) as (y & x & Hy & Hx & Hocc & Hc).
  assert (Hc' := Hc). destruct Hc' as [H1 H2]. simpl in H1, H2.
  split; [lia|]. split; [lia|]. exists y, x. auto.
Qed.

Lemma outline_corners_witness :
  ∃ paths,
    traceAndSimplifyContours dot3
      [[true; true; true]; [true; false; true]; [true; true; true]] 3 3 = Ok paths ∧
    ∀ path k, path ∈ paths → k ∈ path → 0 ≤ k.1 ≤ 3 ∧ 0 ≤ k.2 ≤ 3.
Proof.
  destruct (outline_corners dot3
              [[true; true; true]; [true; false; true]; [true; true; true]] 3 3)
    as (paths & E & H).
  - split; [lia|]. split; [lia|]. split; [reflexivity|]. repeat constructor.
  - split; [lia|]. split; [lia|]. split; [reflexivity|]. repeat constructor.
  - exists paths. split; [exact E|]. intros path k Hp Hk.
    destruct (H path k Hp Hk) as (H1 & H2 & _). split; assumption.
Defined.

(** X17: every segment of every outline is horizontal or vertical: two
    consecutive points of a returned path share a coordinate, although the
    simplifier has removed points between them.  *)
Theorem outline_rectilinear stitchGrid backgroundGrid width height :
  wf_grid stitchGrid width height → wf_grid backgroundGrid width height →
  ∃ paths,
    traceAndSimplifyContours stitchGrid backgroundGrid width height = Ok paths ∧
    (∀ path, path ∈ paths → rectilinear path) ∧
    ∀ path i, path ∈ paths → 0 ≤ i → i + 1 < len path →
              (pt path i).1 = (pt path (i + 1)).1 ∨ (pt path i).2 = (pt path (i + 1)).2.
Proof.
  intros Hs Hb.
  destruct (trace_shape stitchGrid backgroundGrid width height Hs Hb)
    as (paths & Ep & Hr & _).
  rewrite Forall_forall in Hr.
  exists paths. split; [exact Ep|]. split; [exact Hr|].
  intros path i Hp. specialize (Hr path Hp). clear Hp. revert i.
  induction path as [|p [|q l] IH]; intros i Hi Hl.
  - unfold len in Hl. simpl in Hl. lia.
  - unfold len in Hl. simpl in Hl. lia.
  - destruct Hr as [Ha Hr]. destruct (decide (i = 0)) as [->|Hne].
    + exact Ha.
    + rewrite (pt_cons' p (q :: l) i) by lia.
      rewrite (pt_cons' p (q :: l) (i + 1)) by lia.
      replace (i + 1 - 1) with (i - 1 + 1) by lia.
      apply IH; [exact Hr | lia |].
      rewrite len_cons in Hl. lia.
Qed.

Lemma outline_rectilinear_witness :
  ∃ paths,
    traceAndSimplifyContours ring5 (replicate 5 (replicate 5 false)) 5 5 = Ok paths ∧
    ∀ path, path ∈ paths → rectilinear path.
Proof.
  destruct (outline_rectilinear ring5 (replicate 5 (replicate 5 false)) 5 5)
    as (paths & E & H & _).
  - split; [lia|]. split; [lia|]. split; [reflexivity|]. repeat constructor.
  - split; [lia|]. split; [lia|]. split; [reflexivity|]. repeat constructor.
  - exists paths. split; [exact E | exact H].
Defined.

Lemma no_elements {A : Type} (l : list A) : (∀ x, x ∉ l) → l = [].
Proof. destruct l as [|x l]; [done|]. intros H. destruct (H x). by left. Qed.

(** X18: a grid without a stitch has no outline: the tracer returns the
    empty list of paths, whatever the mask, and so does the whole outline
    pipeline. *)
Theorem no_stitch_no_outline stitchGrid width height :
  wf_grid stitchGrid width height →
  (∀ y x, 0 ≤ y < height → 0 ≤ x < width → read stitchGrid y x = Ok false) →
  (∀ backgroundGrid,
      wf_grid backgroundGrid width height →
      traceAndSimplifyContours stitchGrid backgroundGrid width height = Ok []) ∧
  (0 < width → 0 < height → contours stitchGrid width height = Ok []).
Proof.
  intros Hs Hfree.
  assert (Ht : ∀ backgroundGrid,
             wf_grid backgroundGrid width height →
             traceAndSimplifyContours stitchGrid backgroundGrid width height = Ok []).
  { intros backgroundGrid Hb. unfold traceAndSimplifyContours.
    destruct (boundaryEdges_spec _ _ _ _ Hs Hb) as ([hs vs] & E & Hes). rewrite E. simpl.
    assert (hs = []) as ->.
    { apply no_elements. intros k Hk. apply (Hes true k) in Hk as (y & x & Hy & Hx & Ho & _).
      rewrite (Hfree y x Hy Hx) in Ho. discriminate. }
    assert (vs = []) as ->.
    { apply no_elements. intros k Hk. apply (Hes false k) in Hk as (y & x & Hy & Hx & Ho & _).
      rewrite (Hfree y x Hy Hx) in Ho. discriminate. }
    reflexivity. }
  split; [exact Ht|]. intros Hw Hh. unfold contours.
  destruct (getBackgroundGrid_spec stitchGrid width height Hs Hh) as (bg & E & Hfl).
  rewrite E. simpl. apply Ht. apply (flooding_wf stitchGrid); [exact Hfl | lia | lia].
Qed.

Lemma no_stitch_no_outline_witness :
  contours (replicate 2 (replicate 3 false)) 3 2 = Ok [].
Proof.
  apply (no_stitch_no_outline (replicate 2 (replicate 3 false)) 3 2); try lia.
  - split; [lia|]. split; [lia|]. split; [reflexivity|]. repeat constructor.
  - intros y x Hy Hx. apply (read_replicate 3 2 y x Hy).
Defined.

(** ** PathSimplifier: simplifying twice *)

Lemma traceFrom_fixed m start st :
  closed m → start ∈ keys m → traced m st →
  Forall (λ path, simplifyPath path = path) st.2 →
  ∃ st', traceFrom m start st = Ok st' ∧ traced m st' ∧
         Forall (λ path, simplifyPath path = path) st'.2.
Proof.
  intros Hc Hstart Ht Hfix.
  destruct (traceFrom_spec m start st Hc Hstart Ht) as (st' & E & Ht').
  exists st'. split; [exact E|]. split; [exact Ht'|].
  unfold traceFrom in E. destruct (bool_decide _) eqn:Ev; [by injection E as <-|].
  apply bool_decide_eq_false in Ev.
  destruct Ht as (Hnd & Hsub & _).
  destruct (walk_spec m Hc (length m) (st.1 ++ [start]) start [start])
    as (ext & Ew & Hnd' & _).
  { by apply NoDup_snoc. }
  { intros x Hx. apply elem_of_app in Hx as [Hx|Hx]; [auto|].
    by apply list_elem_of_singleton in Hx as ->. }
  { unfold keys. rewrite length_fmap, length_app. lia. }
  rewrite Ew in E. simpl in E.
  destruct (decide _); injection E as <-; [|exact Hfix].
  simpl. apply Forall_app. split; [exact Hfix|].
  apply Forall_singleton. apply simplifyPath_twice.
  rewrite <- app_assoc in Hnd'. by apply NoDup_app in Hnd' as (_ & _ & Hnd').
Qed.

(** Every path that the tracer returns has been through [simplifyPath],
    which leaves it as it is when applied again. *)
Lemma tracePaths_fixed m :
  closed m →
  ∃ paths, tracePaths m = Ok paths ∧ Forall (λ path, simplifyPath path = path) paths.
Proof.
  intros Hc. unfold tracePaths.
  destruct (forEach_inv (traceFrom m)
              (λ st, traced m st ∧ Forall (λ path, simplifyPath path = path) st.2)
              (keys m) ([], []))
    as (st & E & Ht & Hfix).
  - split; [|constructor].
    unfold traced. simpl. repeat split; try constructor; intros x Hx; inversion Hx.
  - intros k st Hk [Hst Hfix]. by apply traceFrom_fixed.
  - exists st.2. rewrite E. split; [reflexivity | exact Hfix].
Qed.

(** C4: [simplifyPath] is idempotent on the paths it is given.  It is
    called on the walks of the tracer only, whose points are pairwise
    distinct corners of the grid: on every path of pairwise distinct
    points, in the range where the arithmetic of the source is exact,
    simplifying the simplified path returns it unchanged; a path of fewer
    than three points is returned as it is; and every path that the tracer
    returns, already simplified, is returned unchanged by [simplifyPath]. *)
Theorem simplifyPath_idempotent :
  (∀ path, NoDup path → Forall gridPoint path →
           simplifyPath (simplifyPath path) = simplifyPath path) ∧
  (∀ path, len path < 3 → simplifyPath path = path) ∧
  (∀ stitchGrid backgroundGrid width height,
      wf_grid stitchGrid width height → wf_grid backgroundGrid width height →
      width ≤ 2 ^ 25 → height ≤ 2 ^ 25 →
      ∃ paths,
        traceAndSimplifyContours stitchGrid backgroundGrid width height = Ok paths ∧
        ∀ path, path ∈ paths →
                NoDup path ∧ Forall gridPoint path ∧ simplifyPath path = path).
Proof.
  split; [|split].
  - intros path Hnd _. by apply simplifyPath_twice.
  - apply simplifyPath_short.
  - intros stitchGrid backgroundGrid width height Hs Hb Hw Hh.
    destruct (trace_shape stitchGrid backgroundGrid width height Hs Hb)
      as (paths & E & _ & Hkeys).
    destruct (trace_spec stitchGrid backgroundGrid width height Hs Hb)
      as (paths1 & E1 & Hnd & _).
    assert (paths1 = paths) as -> by congruence.
    exists paths. split; [exact E|].
    unfold traceAndSimplifyContours in E.
    destruct (boundaryEdges_spec _ _ _ _ Hs Hb) as (es & Ee & _).
    rewrite Ee in E. simpl in E.
    destruct (tracePaths_fixed (buildMap es) (closed_buildMap es)) as (paths2 & E2 & Hfix).
    assert (paths2 = paths) as -> by congruence.
    rewrite Forall_forall in Hfix.
    intros path Hp. split; [|split; [|by apply Hfix]].
    + apply list_elem_of_lookup in Hp as [i Hi].
      rewrite <- (take_drop_middle paths i path Hi) in Hnd.
      rewrite concat_app, concat_cons in Hnd.
      apply NoDup_app in Hnd as (_ & _ & Hnd). by apply NoDup_app in Hnd as (Hnd & _).
    + apply Forall_forall. intros k Hk.
      destruct (Hkeys path k Hp Hk) as (y & x & Hy & Hx & _ & [H1 H2]).
      simpl in H1, H2. split; lia.
Qed.

Lemma simplifyPath_idempotent_witness :
  simplifyPath (simplifyPath [(0, 0); (1, 0); (2, 0); (2, 1); (2, 2); (1, 2); (0, 2); (0, 1)])
  = simplifyPath [(0, 0); (1, 0); (2, 0); (2, 1); (2, 2); (1, 2); (0, 2); (0, 1)] ∧
  simplifyPath [(0, 0); (1, 0)] = [(0, 0); (1, 0)] ∧
  ∃ paths,
    traceAndSimplifyContours dot3
      [[true; true; true]; [true; false; true]; [true; true; true]] 3 3 = Ok paths ∧
    ∀ path, path ∈ paths → simplifyPath path = path.
Proof.
  split; [|split].
  - apply (proj1 simplifyPath_idempotent).
    + refine (@bool_decide_unpack (NoDup _) _ _). vm_compute. exact I.
    + repeat constructor; simpl; lia.
  - apply (proj1 (proj2 simplifyPath_idempotent)). vm_compute. reflexivity.
  - destruct (proj2 (proj2 simplifyPath_idempotent) dot3
                [[true; true; true]; [true; false; true]; [true; true; true]] 3 3)
      as (paths & E & H); try lia.
    + split; [lia|]. split; [lia|]. split; [reflexivity|]. repeat constructor.
    + split; [lia|]. split; [lia|]. split; [reflexivity|]. repeat constructor.
    + exists paths. split; [exact E|]. intros path Hp. by apply H.
Defined.

(** ** PathSimplifier: what simplification keeps *)

(** X19: the simplifier only removes points.  Its result is the input with
    some points left out, in the same order, and a path without a repeated
    point stays without one.  On such a path, with its points in the range
    where the arithmetic of the source is exact, nothing more can be
    removed: the result turns at each of its points, those at the two ends
    of the closing segment included. *)
Theorem simplifyPath_only_removes path :
  simplifyPath path `sublist_of` path ∧
  (∀ p, p ∈ simplifyPath path → p ∈ path) ∧
  len (simplifyPath path) ≤ len path ∧
  (NoDup path → NoDup (simplifyPath path)) ∧
  (NoDup path → Forall gridPoint path →
   Forall gridPoint (simplifyPath path) ∧ settled (simplifyPath path)) ∧
  (NoDup path → Forall gridPoint path →
   ∀ k, 0 ≤ k → k + 2 < len (simplifyPath path) →
        cross_product (pt (simplifyPath path) k) (pt (simplifyPath path) (k + 1))
          (pt (simplifyPath path) (k + 2)) ≠ 0).
Proof.
  pose proof (simplifyPath_sublist path) as Hsub.
  assert (Hs : NoDup path → settled (simplifyPath path)).
  { intros Hnd. destruct (simplifyPath_settled path Hnd) as [H|H]; [exact H|].
    rewrite simplifyPath_short by exact H. split.
    - destruct path as [|a [|b [|c l]]]; [constructor..|].
      exfalso. unfold len in H. simpl in H. lia.
    - intros H3. lia. }
  split; [exact Hsub|]. split; [|split; [|split; [|split]]].
  - intros p Hp. by eapply elem_of_sublist.
  - unfold len. apply sublist_length in Hsub. lia.
  - intros Hnd. by eapply sublist_NoDup.
  - intros Hnd Hg. split; [|by apply Hs].
    rewrite Forall_forall in *. intros p Hp. apply Hg. by eapply elem_of_sublist.
  - intros Hnd _. apply turns_pt. by apply Hs.
Qed.

Lemma simplifyPath_only_removes_witness :
  settled (simplifyPath [(0, 0); (1, 0); (2, 0); (2, 1); (2, 2); (1, 2); (0, 2); (0, 1)]).
Proof.
  apply (simplifyPath_only_removes
           [(0, 0); (1, 0); (2, 0); (2, 1); (2, 2); (1, 2); (0, 2); (0, 1)]).
  - refine (@bool_decide_unpack (NoDup _) _ _). vm_compute. exact I.
  - repeat constructor; simpl; lia.
Defined.

Lemma kept_line rest : ∀ prev last0,
  last rest = Some last0 →
  (∀ c n, c ∈ rest → n ∈ rest → cross_product prev c n = 0) →
  kept prev rest = [last0].
Proof.
  induction rest as [|c [|n tl] IH]; intros prev last0 Hl Hline.
  - discriminate.
  - simpl in *. congruence.
  - rewrite kept_step.
    destruct (abs_above_eps _) eqn:E.
    + apply abs_above_eps_spec in E. destruct E.
      apply Hline; [by left | right; by left].
    + apply IH; [exact Hl|]. intros c' n' Hc' Hn'. apply Hline; by right.
Qed.

(** X20: a straight run collapses to its two ends.  A path of three or
    more points, in the range where the arithmetic of the source is exact,
    that all lie on one line through its first point is simplified to its
    first and its last point. *)
Theorem simplifyPath_straight p0 rest last0 :
  gridPoint p0 → Forall gridPoint rest →
  2 ≤ len rest → last rest = Some last0 →
  (∀ c n, c ∈ rest → n ∈ rest → cross_product p0 c n = 0) →
  simplifyPath (p0 :: rest) = [p0; last0].
Proof.
  intros _ _ Hlen Hl Hline. rewrite simplifyPath_long by (rewrite len_cons; lia).
  rewrite (kept_line rest p0 last0 Hl Hline).
  reflexivity.
Qed.

Lemma simplifyPath_straight_witness :
  simplifyPath [(0, 0); (1, 0); (2, 0); (5, 0)] = [(0, 0); (5, 0)].
Proof.
  apply (simplifyPath_straight (0, 0) [(1, 0); (2, 0); (5, 0)] (5, 0)).
  - split; simpl; lia.
  - repeat constructor; simpl; lia.
  - unfold len. simpl. lia.
  - reflexivity.
  - intros c n Hc Hn. rewrite !elem_of_cons, elem_of_nil in Hc, Hn.
    destruct Hc as [->|[->|[->|[]]]], Hn as [->|[->|[->|[]]]]; reflexivity.
Defined.

(** ** The renderers at any size *)

(** The two fill loops draw one shape for each occupied cell, row by row. *)
Lemma fill_loops {X : Type} (body : Z → Z → list X → Res (list X)) (cell : Z → Z → X)
    (stitchGrid : Grid) (stitchesX stitchesY : Z) :
  wf_grid stitchGrid stitchesX stitchesY →
  (∀ y x s, body y x s
            = do occ <- read stitchGrid y x; if occ then Ok (s ++ [cell y x]) else Ok s) →
  ∀ outline,
    forEach (λ y, forEach (body y) (seqZ 0 stitchesX)) (seqZ 0 stitchesY) outline
    = Ok (outline
          ++ ((λ c : Cell, cell c.1 c.2) <$> occupiedCells stitchGrid stitchesX stitchesY)).
Proof.
  intros Hwf Hbody outline. unfold occupiedCells. rewrite concat_fmap_fmap.
  apply (forEach_app _ (λ y, (λ c : Cell, cell c.1 c.2)
                               <$> concat ((λ x, match read stitchGrid y x with
                                                 | Ok true => [(y, x)]
                                                 | _ => []
                                                 end) <$> seqZ 0 stitchesX))).
  intros y s Hy. apply elem_of_seqZ in Hy. rewrite concat_fmap_fmap.
  apply (forEach_app _ (λ x, (λ c : Cell, cell c.1 c.2)
                               <$> match read stitchGrid y x with
                                   | Ok true => [(y, x)]
                                   | _ => []
                                   end)).
  intros x t _. rewrite Hbody.
  destruct (read_ok stitchGrid stitchesX stitchesY y x Hwf) as [occ ->]; [lia|].
  simpl. destruct occ; [reflexivity | by rewrite app_nil_r].
Qed.

Lemma drawPattern_fills canvasWidth canvasHeight stitchGrid stitchesX stitchesY
    shape hex outline :
  wf_grid stitchGrid stitchesX stitchesY →
  ∃ cell,
    (∀ y x, (∃ cx cy r, cell y x = fillArc cx cy r hex) ∨
            (∃ rx ry w h, cell y x = fillRect rx ry w h hex)) ∧
    forEach
      (λ y, forEach (fillCell stitchGrid (num canvasWidth / num stitchesX)%Qc
                       (num canvasHeight / num stitchesY)%Qc shape hex y)
              (seqZ 0 stitchesX))
      (seqZ 0 stitchesY) outline
    = Ok (outline
          ++ ((λ c : Cell, cell c.1 c.2) <$> occupiedCells stitchGrid stitchesX stitchesY)).
Proof.
  intros Hwf.
  set (sw := (num canvasWidth / num stitchesX)%Qc).
  set (sh := (num canvasHeight / num stitchesY)%Qc).
  set (cell := λ y x,
       match shape with
       | circle => fillArc (num x * sw + sw / num 2)%Qc (num y * sh + sh / num 2)%Qc
                     (minQc sw sh / num 3)%Qc hex
       | square => fillRect (num x * sw + (sw - minQc sw sh * num 2 / num 3) / num 2)%Qc
                     (num y * sh + (sh - minQc sw sh * num 2 / num 3) / num 2)%Qc
                     (minQc sw sh * num 2 / num 3)%Qc (minQc sw sh * num 2 / num 3)%Qc hex
       end).
  exists cell. split.
  - intros y x. unfold cell. destruct shape; [left | right]; eauto.
  - apply (fill_loops (fillCell stitchGrid sw sh shape hex) cell); [exact Hwf|].
    intros y x s. unfold fillCell. destruct (read stitchGrid y x) as [[|]| |]; try reflexivity.
    simpl. by destruct shape.
Qed.

Lemma svg_fills stitchGrid stitchesX stitchesY shape hex outline :
  wf_grid stitchGrid stitchesX stitchesY →
  ∃ cell,
    (∀ y x, (∃ cx cy r, cell y x = svgCircle cx cy r hex) ∨
            (∃ rx ry w h, cell y x = svgRect rx ry w h hex)) ∧
    forEach
      (λ y, forEach (svgCell stitchGrid (num 10) shape hex y) (seqZ 0 stitchesX))
      (seqZ 0 stitchesY) outline
    = Ok (outline
          ++ ((λ c : Cell, cell c.1 c.2) <$> occupiedCells stitchGrid stitchesX stitchesY)).
Proof.
  intros Hwf.
  set (cell := λ y x,
       match shape with
       | circle => svgCircle (num x * num 10 + num 10 / num 2)%Qc
                     (num y * num 10 + num 10 / num 2)%Qc (num 10 / num 3)%Qc hex
       | square => svgRect (num x * num 10 + num 10 / num 2
                            - num 10 * num 2 / num 3 / num 2)%Qc
                     (num y * num 10 + num 10 / num 2
                      - num 10 * num 2 / num 3 / num 2)%Qc
                     (num 10 * num 2 / num 3)%Qc (num 10 * num 2 / num 3)%Qc hex
       end).
  exists cell. split.
  - intros y x. unfold cell. destruct shape; [left | right]; eauto.
  - apply (fill_loops (svgCell stitchGrid (num 10) shape hex) cell); [exact Hwf|].
    intros y x s. unfold svgCell. destruct (read stitchGrid y x) as [[|]| |]; try reflexivity.
    simpl. by destruct shape.
Qed.

Lemma canvasStrokes_fills (cell : Z → Z → CanvasOp) hex (cells : list Cell) :
  (∀ y x, (∃ cx cy r, cell y x = fillArc cx cy r hex) ∨
          (∃ rx ry w h, cell y x = fillRect rx ry w h hex)) →
  canvasStrokes ((λ c : Cell, cell c.1 c.2) <$> cells) = [] ∧
  Forall (λ f, f.2 = hex) (canvasFills ((λ c : Cell, cell c.1 c.2) <$> cells)) ∧
  length (canvasFills ((λ c : Cell, cell c.1 c.2) <$> cells)) = length cells.
Proof.
  intros Hcell. induction cells as [|c cells (IH1 & IH2 & IH3)]; [by repeat split|].
  rewrite fmap_cons.
  destruct (Hcell c.1 c.2) as [(cx & cy & r & ->)|(rx & ry & w & h & ->)].
  - change (canvasStrokes (fillArc cx cy r hex :: ?l)) with (canvasStrokes l).
    change (canvasFills (fillArc cx cy r hex :: ?l))
      with ((disc cx cy r, hex) :: canvasFills l).
    split; [exact IH1|]. split; [by constructor|]. cbn [length]. by rewrite IH3.
  - change (canvasStrokes (fillRect rx ry w h hex :: ?l)) with (canvasStrokes l).
    change (canvasFills (fillRect rx ry w h hex :: ?l))
      with ((box rx ry w h, hex) :: canvasFills l).
    split; [exact IH1|]. split; [by constructor|]. cbn [length]. by rewrite IH3.
Qed.

Lemma svgStrokes_fills (cell : Z → Z → SvgElement) hex (cells : list Cell) :
  (∀ y x, (∃ cx cy r, cell y x = svgCircle cx cy r hex) ∨
          (∃ rx ry w h, cell y x = svgRect rx ry w h hex)) →
  svgStrokes ((λ c : Cell, cell c.1 c.2) <$> cells) = [] ∧
  Forall (λ f, f.2 = hex) (svgFills ((λ c : Cell, cell c.1 c.2) <$> cells)) ∧
  length (svgFills ((λ c : Cell, cell c.1 c.2) <$> cells)) = length cells.
Proof.
  intros Hcell. induction cells as [|c cells (IH1 & IH2 & IH3)]; [by repeat split|].
  rewrite fmap_cons.
  destruct (Hcell c.1 c.2) as [(cx & cy & r & ->)|(rx & ry & w & h & ->)].
  - change (svgStrokes (svgCircle cx cy r hex :: ?l)) with (svgStrokes l).
    change (svgFills (svgCircle cx cy r hex :: ?l)) with ((disc cx cy r, hex) :: svgFills l).
    split; [exact IH1|]. split; [by constructor|]. cbn [length]. by rewrite IH3.
  - change (svgStrokes (svgRect rx ry w h hex :: ?l)) with (svgStrokes l).
    change (svgFills (svgRect rx ry w h hex :: ?l)) with ((box rx ry w h, hex) :: svgFills l).
    split; [exact IH1|]. split; [by constructor|]. cbn [length]. by rewrite IH3.
Qed.

(** X21: with the outline switched off the renderers never trace a
    contour.  For an offset of 0 or less, on a canvas of any size and in
    the exported document alike, nothing is stroked, and what is drawn is
    one fill in the selected colour for each occupied cell and nothing
    else; the document measures 10 units per stitch. *)
Theorem no_outline_without_offset canvasWidth canvasHeight stitchGrid stitchesX stitchesY
    shape outlineOffset hex :
  wf_grid stitchGrid stitchesX stitchesY → outlineOffset ≤ 0 →
  ∃ ops doc,
    drawPattern canvasWidth canvasHeight stitchGrid stitchesX stitchesY
      shape outlineOffset hex = Ok ops ∧
    handleDownloadSvg stitchGrid stitchesX stitchesY shape outlineOffset hex = Ok doc ∧
    canvasStrokes ops = [] ∧ svgStrokes (svgElements doc) = [] ∧
    length ops = length (occupiedCells stitchGrid stitchesX stitchesY) ∧
    length (canvasFills ops) = length ops ∧
    length (svgElements doc) = length (occupiedCells stitchGrid stitchesX stitchesY) ∧
    length (svgFills (svgElements doc)) = length (svgElements doc) ∧
    Forall (λ f, f.2 = hex) (canvasFills ops) ∧
    Forall (λ f, f.2 = hex) (svgFills (svgElements doc)) ∧
    svgWidth doc = stitchesX * 10 ∧ svgHeight doc = stitchesY * 10.
Proof.
  intros Hwf Ho. unfold drawPattern, handleDownloadSvg. cbn zeta.
  destruct (decide (0 < outlineOffset)); [lia|]. cbn [bind].
  destruct (drawPattern_fills canvasWidth canvasHeight stitchGrid stitchesX stitchesY
              shape hex [] Hwf) as (cell & Hcell & ->).
  destruct (svg_fills stitchGrid stitchesX stitchesY shape hex [] Hwf)
    as (cell' & Hcell' & ->).
  cbn [bind app]. eexists _, _. split; [reflexivity|]. split; [reflexivity|].
  cbn [svgElements svgWidth svgHeight].
  destruct (canvasStrokes_fills cell hex (occupiedCells stitchGrid stitchesX stitchesY) Hcell)
    as (H1 & H2 & H3).
  destruct (svgStrokes_fills cell' hex (occupiedCells stitchGrid stitchesX stitchesY) Hcell')
    as (H1' & H2' & H3').
  rewrite !length_fmap, H3, H3'. repeat split; assumption.
Qed.

Lemma no_outline_without_offset_witness :
  ∃ ops doc,
    drawPattern 300 300 dot3 3 3 square 0 "#000000" = Ok ops ∧
    handleDownloadSvg dot3 3 3 square 0 "#000000" = Ok doc ∧
    canvasStrokes ops = [] ∧ svgStrokes (svgElements doc) = [].
Proof.
  destruct (no_outline_without_offset 300 300 dot3 3 3 square 0 "#000000")
    as (ops & doc & H1 & H2 & H3 & H4 & _).
  - split; [lia|]. split; [lia|]. split; [reflexivity|]. repeat constructor.
  - lia.
  - exists ops, doc. auto.
Defined.

(** X22: a grid without rows cannot be outlined.  With no row and at
    least one column the flood fill reads the first row of the grid and
    throws, so the outline pipeline and, for a positive offset, both
    renderers throw; without an outline both renderers draw nothing. *)
Theorem no_rows_throws width :
  0 < width →
  getBackgroundGrid [] width 0 = Throw ∧
  contours [] width 0 = Throw ∧
  ∀ canvasWidth canvasHeight shape outlineOffset hex,
    (0 < outlineOffset →
     drawPattern canvasWidth canvasHeight [] width 0 shape outlineOffset hex = Throw ∧
     handleDownloadSvg [] width 0 shape outlineOffset hex = Throw) ∧
    (outlineOffset ≤ 0 →
     drawPattern canvasWidth canvasHeight [] width 0 shape outlineOffset hex = Ok [] ∧
     handleDownloadSvg [] width 0 shape outlineOffset hex
     = Ok {| svgWidth := width * 10; svgHeight := 0; svgElements := [] |}).
Proof.
  intros Hw.
  assert (Hbg : getBackgroundGrid [] width 0 = Throw).
  { unfold getBackgroundGrid, newGrid. destruct (decide _); [lia|].
    cbn [bind]. change (seqZ 0 0) with (@nil Z). cbn [forEach bind].
    rewrite (seqZ_cons 0 width) by lia. reflexivity. }
  assert (Hc : contours [] width 0 = Throw) by (unfold contours; by rewrite Hbg).
  split; [exact Hbg|]. split; [exact Hc|].
  intros canvasWidth canvasHeight shape outlineOffset hex. split; intros Ho.
  - unfold drawPattern, handleDownloadSvg. cbn zeta.
    destruct (decide _); [|lia]. by rewrite Hc.
  - unfold drawPattern, handleDownloadSvg. cbn zeta.
    destruct (decide _); [lia|]. split; reflexivity.
Qed.

Lemma no_rows_throws_witness : contours [] 16 0 = Throw.
Proof. apply (no_rows_throws 16). lia. Defined.

Lemma strokeContours_strokes sw sh hex outlineOffset paths :
  canvasStrokes (strokeContours sw sh hex outlineOffset paths)
  = (λ path, (path2D sw sh path, num (outlineOffset * 2), miter)) <$> paths ∧
  canvasFills (strokeContours sw sh hex outlineOffset paths) = [] ∧
  length (strokeContours sw sh hex outlineOffset paths) = length paths.
Proof.
  unfold strokeContours. induction paths as [|path paths (IH1 & IH2 & IH3)]; [done|].
  rewrite !fmap_cons.
  change (canvasStrokes (stroke ?p ?c ?w ?j ?m :: ?l)) with ((p, w, j) :: canvasStrokes l).
  change (canvasFills (stroke ?p ?c ?w ?j ?m :: ?l)) with (canvasFills l).
  rewrite IH1. split; [reflexivity|]. split; [exact IH2|]. cbn [length]. by rewrite IH3.
Qed.

Lemma svgContours_length hex outlineOffset paths :
  Forall (λ path, 2 ≤ len path) paths →
  length (svgContours (num 10) hex outlineOffset paths) = length paths.
Proof.
  intros Hlen. unfold svgContours. rewrite svgContours_concat. cbn [app].
  induction Hlen as [|path paths Hp _ IH]; [reflexivity|].
  rewrite fmap_cons. cbn [concat]. destruct (decide _); [lia|].
  cbn [app length]. by rewrite IH.
Qed.

(** X23: the outline lies under the stitches.  With a positive offset, on
    a canvas of any size and in the exported document, the renderers first
    stroke one outline for each contour path, each twice the offset wide,
    and only then draw the fills, one for each occupied cell. *)
Theorem outline_under_fills canvasWidth canvasHeight stitchGrid stitchesX stitchesY
    shape outlineOffset hex :
  wf_grid stitchGrid stitchesX stitchesY →
  0 < stitchesX → 0 < stitchesY → 0 < outlineOffset →
  ∃ paths ops doc,
    contours stitchGrid stitchesX stitchesY = Ok paths ∧
    drawPattern canvasWidth canvasHeight stitchGrid stitchesX stitchesY
      shape outlineOffset hex = Ok ops ∧
    handleDownloadSvg stitchGrid stitchesX stitchesY shape outlineOffset hex = Ok doc ∧
    (length (canvasStrokes (take (length paths) ops)) = length paths ∧
     canvasFills (take (length paths) ops) = [] ∧
     canvasStrokes (drop (length paths) ops) = [] ∧
     length (canvasFills (drop (length paths) ops))
     = length (occupiedCells stitchGrid stitchesX stitchesY) ∧
     Forall (λ out, out.1.2 = num (outlineOffset * 2)) (canvasStrokes ops)) ∧
    (length (svgStrokes (take (length paths) (svgElements doc))) = length paths ∧
     svgFills (take (length paths) (svgElements doc)) = [] ∧
     svgStrokes (drop (length paths) (svgElements doc)) = [] ∧
     length (svgFills (drop (length paths) (svgElements doc)))
     = length (occupiedCells stitchGrid stitchesX stitchesY)).
Proof.
  intros Hwf Hx Hy Ho.
  destruct (contours_spec stitchGrid stitchesX stitchesY Hwf Hx Hy) as (paths & E & Hlen).
  exists paths. unfold drawPattern, handleDownloadSvg. cbn zeta.
  destruct (decide (0 < outlineOffset)); [|lia]. rewrite E. cbn [bind].
  set (strokes := strokeContours _ _ hex outlineOffset paths).
  set (outlines := svgContours (num 10) hex outlineOffset paths).
  destruct (drawPattern_fills canvasWidth canvasHeight stitchGrid stitchesX stitchesY
              shape hex strokes Hwf) as (cell & Hcell & ->).
  destruct (svg_fills stitchGrid stitchesX stitchesY shape hex outlines Hwf)
    as (cell' & Hcell' & ->).
  cbn [bind]. eexists _, _. split; [reflexivity|]. split; [reflexivity|].
  split; [reflexivity|]. cbn [svgElements].
  destruct (strokeContours_strokes (num canvasWidth / num stitchesX)%Qc
              (num canvasHeight / num stitchesY)%Qc hex outlineOffset paths)
    as (Hs1 & Hs2 & Hs3). fold strokes in Hs1, Hs2, Hs3.
  destruct (svg_outline outlineOffset hex paths Hlen) as [Ho1 Ho2].
  pose proof (svgContours_length hex outlineOffset paths Hlen) as Ho3.
  fold outlines in Ho1, Ho2, Ho3.
  destruct (canvasStrokes_fills cell hex (occupiedCells stitchGrid stitchesX stitchesY) Hcell)
    as (H1 & _ & H3).
  destruct (svgStrokes_fills cell' hex (occupiedCells stitchGrid stitchesX stitchesY) Hcell')
    as (H1' & _ & H3').
  set (fills := (λ c : Cell, cell c.1 c.2) <$> occupiedCells stitchGrid stitchesX stitchesY)
    in *.
  set (fills' := (λ c : Cell, cell' c.1 c.2)
                   <$> occupiedCells stitchGrid stitchesX stitchesY) in *.
  assert (Ht : take (length paths) (strokes ++ fills) = strokes)
    by (rewrite <- Hs3; apply take_app_length).
  assert (Hd : drop (length paths) (strokes ++ fills) = fills)
    by (rewrite <- Hs3; apply drop_app_length).
  assert (Ht' : take (length paths) (outlines ++ fills') = outlines)
    by (rewrite <- Ho3; apply take_app_length).
  assert (Hd' : drop (length paths) (outlines ++ fills') = fills')
    by (rewrite <- Ho3; apply drop_app_length).
  rewrite Ht, Hd, Ht', Hd'.
  split; [|split; [|split; [|split]]].
  - split; [by rewrite Hs1, length_fmap|]. split; [exact Hs2|].
    split; [exact H1|]. split; [exact H3|].
    assert (Happ : canvasStrokes (strokes ++ fills)
                   = canvasStrokes strokes ++ canvasStrokes fills)
      by (unfold canvasStrokes; apply omap_app).
    rewrite Happ, H1, app_nil_r, Hs1. apply Forall_fmap, Forall_forall. by intros.
  - by rewrite Ho1, length_fmap.
  - exact Ho2.
  - exact H1'.
  - exact H3'.
Qed.

Lemma outline_under_fills_witness :
  ∃ paths ops doc,
    contours dot3 3 3 = Ok paths ∧
    drawPattern 300 300 dot3 3 3 circle 2 "#000000" = Ok ops ∧
    handleDownloadSvg dot3 3 3 circle 2 "#000000" = Ok doc ∧
    canvasFills (take (length paths) ops) = [] ∧
    svgFills (take (length paths) (svgElements doc)) = [].
Proof.
  destruct (outline_under_fills 300 300 dot3 3 3 circle 2 "#000000")
    as (paths & ops & doc & H1 & H2 & H3 & (_ & H4 & _) & (_ & H5 & _)); try lia.
  - split; [lia|]. split; [lia|]. split; [reflexivity|]. repeat constructor.
  - exists paths, ops, doc. auto.
Defined.

Lemma num_le a b : a ≤ b → (num a <= num b)%Qc.
Proof.
  intros H. unfold num, Qcle. cbn [this Q2Qc]. rewrite !Qred_correct.
  by rewrite <- Zle_Qle.
Qed.

(** X24: in the exported document every outline stays inside the view
    box: each point of each stroked path has coordinates between 0 and the
    width and the height of the document. *)
Theorem svg_outline_in_viewBox stitchGrid stitchesX stitchesY shape outlineOffset hex :
  wf_grid stitchGrid stitchesX stitchesY →
  0 < stitchesX → 0 < stitchesY → 0 < outlineOffset →
  ∃ doc,
    handleDownloadSvg stitchGrid stitchesX stitchesY shape outlineOffset hex = Ok doc ∧
    ∀ out p, out ∈ svgStrokes (svgElements doc) → p ∈ out.1.1 →
             (num 0 <= p.1)%Qc ∧ (p.1 <= num (svgWidth doc))%Qc ∧
             (num 0 <= p.2)%Qc ∧ (p.2 <= num (svgHeight doc))%Qc.
Proof.
  intros Hwf Hx Hy Ho. unfold handleDownloadSvg, contours. cbn zeta.
  destruct (decide (0 < outlineOffset)); [|lia].
  destruct (getBackgroundGrid_spec stitchGrid stitchesX stitchesY Hwf Hy) as (bg & E & Hfl).
  rewrite E. cbn [bind].
  assert (Hbg : wf_grid bg stitchesX stitchesY)
    by (apply (flooding_wf stitchGrid); [exact Hfl | lia | lia]).
  destruct (trace_shape stitchGrid bg stitchesX stitchesY Hwf Hbg)
    as (paths & Ep & _ & Hkeys).
  destruct (trace_spec stitchGrid bg stitchesX stitchesY Hwf Hbg)
    as (paths' & Ep' & _ & Hlen).
  assert (paths' = paths) as -> by congruence.
  rewrite Ep. cbn [bind].
  set (outlines := svgContours (num 10) hex outlineOffset paths).
  destruct (svg_fills stitchGrid stitchesX stitchesY shape hex outlines Hwf)
    as (cell' & Hcell' & ->).
  cbn [bind]. eexists. split; [reflexivity|]. cbn [svgElements svgWidth svgHeight].
  destruct (svg_outline outlineOffset hex paths Hlen) as [Ho1 _]. fold outlines in Ho1.
  destruct (svgStrokes_fills cell' hex (occupiedCells stitchGrid stitchesX stitchesY) Hcell')
    as (H1' & _ & _).
  assert (Happ : ∀ l l', svgStrokes (l ++ l') = svgStrokes l ++ svgStrokes l')
    by (intros; unfold svgStrokes; apply omap_app).
  rewrite Happ, H1', app_nil_r, Ho1.
  intros out p Hout Hp. apply list_elem_of_fmap in Hout as (path & -> & Hpath).
  cbn [fst] in Hp. unfold scalePath in Hp.
  apply list_elem_of_fmap in Hp as (k & -> & Hk). cbn [fst snd].
  destruct (Hkeys path k Hpath Hk) as (y & x & Hy' & Hx' & _ & [H1 H2]).
  simpl in H1, H2. rewrite <- !num_mul.
  repeat split; apply num_le; lia.
Qed.

Lemma svg_outline_in_viewBox_witness :
  ∃ doc, handleDownloadSvg dot3 3 3 circle 2 "#000000" = Ok doc.
Proof.
  destruct (svg_outline_in_viewBox dot3 3 3 circle 2 "#000000") as (doc & H & _); try lia.
  - split; [lia|]. split; [lia|]. split; [reflexivity|]. repeat constructor.
  - by exists doc.
Defined.
(** ** Concrete scenarios *)

(** C3: on the 4×4 grid whose 16 cells are all occupied, the background mask
    is false everywhere, and the tracer returns exactly one path, the outer
    rectangle [(0,0), (4,0), (4,4), (0,4)]. *)
Theorem solid_square_scenario :
  getBackgroundGrid solid4 4 4 = Ok (replicate 4 (replicate 4 false)) ∧
  traceAndSimplifyContours solid4 (replicate 4 (replicate 4 false)) 4 4
  = Ok [[(0, 0); (4, 0); (4, 4); (0, 4)]].
Proof. split; vm_compute; reflexivity. Qed.

(** On the 3×3 grid whose centre alone is occupied the tracer returns the
    four corners of that cell. *)
Example centre_cell_scenario : contours dot3 3 3 = Ok [[(1, 1); (2, 1); (2, 2); (1, 2)]].
Proof. vm_compute. reflexivity. Qed.

(** On the 5×5 ring the enclosed centre is not background: the mask is
    false everywhere. *)
Example ring_mask_scenario :
  getBackgroundGrid ring5 5 5 = Ok (replicate 5 (replicate 5 false)).
Proof. vm_compute. reflexivity. Qed.
